(** * Storyboard generator: a shallow embedding and its verified properties

    The development follows the TypeScript sources of the storyboard tool:
    - [lib/storyboard-generator.ts]   (heuristic story segmentation),
    - [context/storyboard-context.tsx] (the document and its edit operations,
      project persistence),
    - the two [StoryboardViewer] components (delete handlers),
    - [lib/fal-image-service.ts] and the [ImageGenerationService] class
      (the serial image-request queue),
    - the print preview (pagination).

    JavaScript strings are sequences of UTF-16 code units; they are modelled
    as lists of code units ([N]).  Finite maps ([Map], object spreads,
    [localStorage]) are stdpp's [gmap]. *)

From Stdlib Require Import String Ascii NArith ZArith DecimalString DecimalNat.
From stdpp Require Import gmap list strings fin_maps.

Local Open Scope nat_scope.

(** ** JavaScript strings *)

Abbreviation jsstring := (list N).

(** [js "abc"] is the JavaScript string literal ["abc"] (code units below 256). *)
Fixpoint js (s : string) : jsstring :=
  match s with
  | EmptyString => []
  | String a s' => N_of_ascii a :: js s'
  end.

(** A string used as a condition is truthy when it is not empty. *)
Definition truthy (s : jsstring) : bool :=
  match s with [] => false | _ => true end.

(** Code units removed by [String.prototype.trim]: the ECMAScript WhiteSpace
    and LineTerminator productions. *)
Definition isWhiteSpace (c : N) : bool :=
  ((c =? 9) || (c =? 10) || (c =? 11) || (c =? 12) || (c =? 13) || (c =? 32)
   || (c =? 160) || (c =? 5760) || ((8192 <=? c) && (c <=? 8202))
   || (c =? 8232) || (c =? 8233) || (c =? 8239) || (c =? 8287)
   || (c =? 12288) || (c =? 65279))%N.

(** [s.trim().length > 0] *)
Definition nonBlank (s : jsstring) : bool := existsb (fun c => negb (isWhiteSpace c)) s.

(** [s.split(/[...]+/)] for a character class given as a predicate: the pieces
    between maximal runs of separator characters.  A separator run at the
    start (at the end) leaves an empty first (last) piece; the result is never
    the empty array.  [insep] tells that the previous character was a
    separator. *)
Fixpoint splitRuns (sep : N -> bool) (s : jsstring) (insep : bool) : list jsstring :=
  match s with
  | [] => [[]]
  | c :: s' =>
      if sep c then
        if insep then splitRuns sep s' true else [] :: splitRuns sep s' true
      else
        match splitRuns sep s' false with
        | p :: ps => (c :: p) :: ps
        | [] => [[c]]
        end
  end.

Definition splitOn (sep : N -> bool) (s : jsstring) : list jsstring :=
  splitRuns sep s false.

(** [/\n+/] and [/[.!?]+/] *)
Definition isNewline (c : N) : bool := (c =? 10)%N.
Definition isSentenceEnd (c : N) : bool := ((c =? 46) || (c =? 33) || (c =? 63))%N.

(** [arr.slice(start, end)] for [0 <= start], [0 <= end]. *)
Definition slice {A} (start end_ : nat) (l : list A) : list A :=
  take (end_ - start) (drop start l).

(** [arr.join(sep)] *)
Fixpoint join (sep : jsstring) (l : list jsstring) : jsstring :=
  match l with
  | [] => []
  | [x] => x
  | x :: xs => x ++ sep ++ join sep xs
  end.

(** [s.split(c)] for a separator of one character: every occurrence
    separates. *)
Fixpoint splitAt (c : N) (s : jsstring) : list jsstring :=
  match s with
  | [] => [[]]
  | x :: s' =>
      if (x =? c)%N then [] :: splitAt c s'
      else
        match splitAt c s' with
        | p :: ps => (x :: p) :: ps
        | [] => [[x]]
        end
  end.

(** How often a character occurs in a string *)
Definition occurrences (c : N) (s : jsstring) : nat := length (filter (fun x => x = c) s).

(** [`${n}`] for a non-negative integer *)
Definition decimal (n : nat) : jsstring := js (NilEmpty.string_of_uint (Nat.to_uint n)).

Definition isUpper (c : N) : bool := ((65 <=? c) && (c <=? 90))%N.
Definition isLower (c : N) : bool := ((97 <=? c) && (c <=? 122))%N.
Definition isDigit (c : N) : bool := ((48 <=? c) && (c <=? 57))%N.

(** The class [\w] *)
Definition isWord (c : N) : bool := isUpper c || isLower c || isDigit c || (c =? 95)%N.

(** [s.toLowerCase()], exact on the code units whose result has an ASCII
    letter: A-Z, the Kelvin sign (to [k]) and the dotted capital I (to [i]
    and a combining dot).  The other code units stay outside ASCII, so
    whether the result includes an ASCII word is decided by these. *)
Definition toLowerCase (s : jsstring) : jsstring :=
  flat_map (fun c => if isUpper c then [c + 32]
                     else if c =? 8490 then [107]
                     else if c =? 304 then [105; 775]
                     else [c])%N s.

Fixpoint startsWith (s p : jsstring) : bool :=
  match p, s with
  | [], _ => true
  | x :: p', y :: s' => (x =? y)%N && startsWith s' p'
  | _ :: _, [] => false
  end.

(** [s.includes(p)] *)
Fixpoint includes (s p : jsstring) : bool :=
  startsWith s p || match s with [] => false | _ :: s' => includes s' p end.

(** [[...new Set(l)]]: the first occurrences, in order *)
Fixpoint dedupe (l : list jsstring) : list jsstring :=
  match l with
  | [] => []
  | x :: l' => x :: filter (fun y => y <> x) (dedupe l')
  end.

(** [s.match(/\b[A-Z][a-z]+\b/g)]: the words made of a capital and at least
    one small letter, nothing but small letters after it.  The scanner keeps
    whether the previous character was a word character and the candidate
    read so far, if any, with whether it has a small letter yet. *)
Fixpoint capitalizedWords (s : jsstring) (prevWord : bool)
    (candidate : option (jsstring * bool)) : list jsstring :=
  match s with
  | [] =>
      match candidate with
      | Some (w, true) => [w]
      | _ => []
      end
  | c :: s' =>
      match candidate with
      | Some (w, hasLower) =>
          if isLower c then capitalizedWords s' true (Some (w ++ [c], true))
          else if isWord c then capitalizedWords s' true None
          else (if hasLower then [w] else []) ++ capitalizedWords s' false None
      | None =>
          if negb prevWord && isUpper c then capitalizedWords s' true (Some ([c], false))
          else capitalizedWords s' (isWord c) None
      end
  end.

(** [Math.ceil(n / d)] on non-negative integers *)
Definition ceilDiv (n d : nat) : nat := (n + d - 1) / d.

(** [s.substring(0, n)] *)
Definition substring0 (n : nat) (s : jsstring) : jsstring := take n s.

(** ** The random source

    [Math.random()] is read only through [Math.floor(Math.random() * n)] with
    [n] between 3 and 6, an integer of [0 .. n-1].  The model threads an
    oracle: an infinite sequence of draws and the number of draws consumed. *)

Record Rng := mkRng { draws : nat -> nat; consumed : nat }.

Definition Rand (A : Type) : Type := Rng -> A * Rng.

#[export] Instance rand_ret : MRet Rand := fun A (a : A) r => (a, r).
#[export] Instance rand_bind : MBind Rand :=
  fun A B (k : A -> Rand B) (m : Rand A) r => let '(a, r') := m r in k a r'.

(** [Math.floor(Math.random() * n)] *)
Definition randomBelow (n : nat) : Rand nat :=
  fun r => (draws r (consumed r) mod n, mkRng (draws r) (S (consumed r))).

(** [arr[Math.floor(Math.random() * arr.length)]] for a non-empty literal array *)
Definition pick {A} (d : A) (arr : list A) : Rand A :=
  k ← randomBelow (length arr); mret (nth k arr d).

(** [for (let i = start; i < start + count; i++) out.push(body(i))] *)
Fixpoint forRange {A} (count start : nat) (body : nat -> Rand A) : Rand (list A) :=
  match count with
  | 0 => mret []
  | S count' =>
      x ← body start;
      xs ← forRange count' (S start) body;
      mret (x :: xs)
  end.

(** [arr.map((x, index) => body(x, index))], the callbacks run in array order *)
Fixpoint mapIndexed {A B} (body : A -> nat -> Rand B) (l : list A) (index : nat)
  : Rand (list B) :=
  match l with
  | [] => mret []
  | x :: l' =>
      y ← body x index;
      ys ← mapIndexed body l' (S index);
      mret (y :: ys)
  end.

(** ** Heuristic story segmentation ([analyzeStoryBasic]) *)

Module Generator.

Inductive ShotType :=
  ECU | CU | MCU | MS | MLS | LS | ELS | OTS | POV | AERIAL | DUTCH | TWO_SHOT.
Inductive CameraAngle :=
  EYE_LEVEL | LOW_ANGLE | HIGH_ANGLE | BIRD_EYE | WORM_EYE | DUTCH_ANGLE.
Inductive CameraMovement :=
  STATIC | PAN | TILT | DOLLY_IN | DOLLY_OUT | TRACKING | ZOOM_IN | ZOOM_OUT
  | CRANE | HANDHELD.
Inductive SceneMood :=
  HAPPY | SAD | TENSE | MYSTERIOUS | ROMANTIC | SCARY | SERENE | CHAOTIC.

(** The names of the constants, as the source writes them. *)
Definition shotTypeName (t : ShotType) : jsstring :=
  js match t with
     | ECU => "ECU" | CU => "CU" | MCU => "MCU" | MS => "MS" | MLS => "MLS"
     | LS => "LS" | ELS => "ELS" | OTS => "OTS" | POV => "POV"
     | AERIAL => "AERIAL" | DUTCH => "DUTCH" | TWO_SHOT => "TWO_SHOT"
     end.

Definition cameraMovementName (m : CameraMovement) : jsstring :=
  js match m with
     | STATIC => "STATIC" | PAN => "PAN" | TILT => "TILT" | DOLLY_IN => "DOLLY_IN"
     | DOLLY_OUT => "DOLLY_OUT" | TRACKING => "TRACKING" | ZOOM_IN => "ZOOM_IN"
     | ZOOM_OUT => "ZOOM_OUT" | CRANE => "CRANE" | HANDHELD => "HANDHELD"
     end.

(** One analysed shot, as pushed to [shots]. *)
Record AnalyzedShot := mkAnalyzedShot {
  a_shotType : ShotType;
  a_description : jsstring;
  a_cameraAngle : CameraAngle;
  a_cameraMovement : CameraMovement;
  a_characters : option (list jsstring);
  a_location : jsstring;
  a_timeOfDay : jsstring;
  a_lighting : jsstring;
  a_mood : SceneMood;
  a_audio : jsstring;
  a_notes : jsstring
}.

Record AnalyzedScene := mkAnalyzedScene {
  as_title : jsstring;
  as_description : jsstring;
  as_shots : list AnalyzedShot
}.

(** The result of [analyzeStoryBasic]: [{ title, scenes }] *)
Record Analysis := mkAnalysis {
  an_title : jsstring;
  an_scenes : list AnalyzedScene
}.

(** [generateTitle]: the first five words, and ["..."] when there are more *)
Definition generateTitle (storyText : jsstring) : jsstring :=
  let words := splitAt 32 storyText in
  let titleWords := slice 0 (5 `min` length words) words in
  join (js " ") titleWords
  ++ (if length titleWords <? length words then js "..." else []).

(** [storyText.split(/\n+/).filter((p) => p.trim().length > 0)] *)
Definition paragraphs (storyText : jsstring) : list jsstring :=
  filter (fun p => nonBlank p = true) (splitOn isNewline storyText).

(** *** Lines, and paragraphs in the words of the specification

    The lines of a text are its pieces between newline characters; a line
    is blank when it has no character besides white space.  "Split text on
    blank-line boundaries to get paragraphs": a paragraph is a maximal run
    of consecutive lines that are not blank, the newlines between them
    kept.  [groupLines] and [blankLineParagraphs] follow these words and
    not the code; the segmentation is compared with them. *)
Definition linesOf (text : jsstring) : list jsstring := splitAt 10 text.

Fixpoint groupLines (ls current : list jsstring) : list (list jsstring) :=
  match ls with
  | [] => match current with [] => [] | _ => [current] end
  | l :: ls' =>
      if nonBlank l then groupLines ls' (current ++ [l])
      else match current with
           | [] => groupLines ls' []
           | _ => current :: groupLines ls' []
           end
  end.

Definition blankLineParagraphs (text : jsstring) : list jsstring :=
  map (join [10%N]) (groupLines (linesOf text) []).

(** [paragraph.split(/[.!?]+/).length] *)
Definition sentenceCount (paragraph : jsstring) : nat :=
  length (splitOn isSentenceEnd paragraph).

(** [paragraph.split(/[.!?]+/).filter((s) => s.trim().length > 0)] *)
Definition sentences (paragraph : jsstring) : list jsstring :=
  filter (fun s => nonBlank s = true) (splitOn isSentenceEnd paragraph).

(** [Math.floor((sentenceCount / shotCount) * i)].  The source computes in
    IEEE doubles; for [shotCount] in 2..4, [i < shotCount] and any sentence
    count a string can have, the rounded quotient and product have the same
    floor as the exact ones. *)
Definition startSentence (n shotCount i : nat) : nat := (n * i) / shotCount.

(** [Math.min(startSentence + Math.ceil(sentenceCount / shotCount), sentenceCount)];
    the quotient is not an integer only if its exact value is not, so the
    rounded one has the same ceiling. *)
Definition endSentence (n shotCount i : nat) : nat :=
  (startSentence n shotCount i + ceilDiv n shotCount) `min` n.

(** [sentences.slice(startSentence, endSentence)] *)
Definition shotSentences (paragraph : jsstring) (shotCount i : nat) : list jsstring :=
  let n := sentenceCount paragraph in
  slice (startSentence n shotCount i) (endSentence n shotCount i) (sentences paragraph).

(** [sentences.slice(startSentence, endSentence).join(". ") + "."] *)
Definition shotDescription (paragraph : jsstring) (shotCount i : nat) : jsstring :=
  join (js ". ") (shotSentences paragraph shotCount i) ++ js ".".

(** [characterMatches ? [...new Set(characterMatches)].slice(0, 2) : undefined] *)
Definition charactersOf (paragraph : jsstring) : option (list jsstring) :=
  match capitalizedWords paragraph false None with
  | [] => None
  | characterMatches => Some (slice 0 2 (dedupe characterMatches))
  end.

(** [paragraph.toLowerCase().includes(word)] *)
Definition mentions (paragraph : jsstring) (word : string) : bool :=
  includes (toLowerCase paragraph) (js word).

Definition lightingFor (paragraph : jsstring) : jsstring :=
  if mentions paragraph "night" || mentions paragraph "dark"
  then js "Low-key lighting with deep shadows"
  else if mentions paragraph "sunset" || mentions paragraph "dusk"
  then js "Golden hour lighting with warm orange tones"
  else if mentions paragraph "morning" || mentions paragraph "dawn"
  then js "Soft diffused morning light with cool blue tones"
  else js "Natural lighting".

Definition audioFor (mood : SceneMood) : jsstring :=
  match mood with
  | TENSE | SCARY => js "Tense music, subtle heartbeat sound"
  | HAPPY => js "Upbeat music, cheerful ambient sounds"
  | SAD => js "Melancholic music, soft ambient sounds"
  | MYSTERIOUS => js "Mysterious ambient sounds, subtle tones"
  | _ => js "Ambient sounds"
  end.

(** The director's notes *)
Definition notesFor (shotType : ShotType) (cameraMovement : CameraMovement) : jsstring :=
  js "This " ++ shotTypeName shotType ++ js " shot emphasizes the "
  ++ (match shotType with
      | CU | ECU => js "emotional impact"
      | _ => js "environmental context"
      end)
  ++ js " of the scene. "
  ++ (match cameraMovement with
      | STATIC => []
      | _ => js "The " ++ toLowerCase (cameraMovementName cameraMovement)
             ++ js " movement adds dynamism."
      end).

(** The body of the [for] loop over the shots of one paragraph. *)
Definition makeShot (paragraph : jsstring) (shotCount i : nat) : Rand AnalyzedShot :=
  shotType ← (if i =? 0 then pick ELS [ELS; LS; AERIAL]
               else if i =? shotCount - 1 then pick CU [CU; MCU; MS]
               else pick MS [MS; MLS; LS; MCU; OTS]);
  cameraAngle ← pick EYE_LEVEL [EYE_LEVEL; LOW_ANGLE; HIGH_ANGLE; BIRD_EYE];
  cameraMovement ← pick STATIC [STATIC; PAN; DOLLY_IN; ZOOM_IN; TRACKING];
  mood ← pick HAPPY [HAPPY; SAD; TENSE; MYSTERIOUS; ROMANTIC; SCARY];
  mret {| a_shotType := shotType;
         a_description := shotDescription paragraph shotCount i;
         a_cameraAngle := cameraAngle;
         a_cameraMovement := cameraMovement;
         a_characters := charactersOf paragraph;
         a_location := js "Story location";
         a_timeOfDay := if mentions paragraph "night" then js "Night" else js "Day";
         a_lighting := lightingFor paragraph;
         a_mood := mood;
         a_audio := audioFor mood;
         a_notes := notesFor shotType cameraMovement |}.

(** [`Scene ${index + 1}: ${paragraph.split(" ").slice(0, 3).join(" ")}...`] *)
Definition sceneTitle (paragraph : jsstring) (index : nat) : jsstring :=
  js "Scene " ++ decimal (index + 1) ++ js ": "
  ++ join (js " ") (slice 0 3 (splitAt 32 paragraph)) ++ js "...".

(** The callback of [paragraphs.map]. *)
Definition makeScene (paragraph : jsstring) (index : nat) : Rand AnalyzedScene :=
  k ← randomBelow 3;
  let shotCount := k + 2 in
  shots ← forRange shotCount 0 (makeShot paragraph shotCount);
  mret {| as_title := sceneTitle paragraph index;
         as_description := paragraph;
         as_shots := shots |}.

Definition analyzeStoryBasic (storyText : jsstring) : Rand Analysis :=
  scenes ← mapIndexed makeScene (paragraphs storyText) 0;
  mret {| an_title := generateTitle storyText; an_scenes := scenes |}.

(** The number of shots drawn for a paragraph when the oracle is at position
    [consumed r]. *)
Definition drawnShotCount (r : Rng) : nat := fst (randomBelow 3 r) + 2.

(** The shots of a scene partition its sentences: the sentence runs of the
    shots, put end to end in shot order, are the sentences of the paragraph,
    each once. *)
Definition shotsPartitionSentences (sc : AnalyzedScene) : Prop :=
  let c := length (as_shots sc) in
  concat (map (shotSentences (as_description sc) c) (seq 0 c))
  = sentences (as_description sc).

(** The shots of a scene cover its sentences: each description is the join
    of one run of consecutive sentences, every sentence lies in the run of
    some shot, and a run starts no earlier than the one before and no later
    than the one before ends. *)
Definition shotsCoverSentences (sc : AnalyzedScene) : Prop :=
  let p := as_description sc in
  let c := length (as_shots sc) in
  let n := sentenceCount p in
  (forall i shot, as_shots sc !! i = Some shot ->
     a_description shot
     = join (js ". ")
         (slice (startSentence n c i) (endSentence n c i) (sentences p)) ++ js ".")
  /\ (forall j s, sentences p !! j = Some s ->
        exists i, i < c /\ startSentence n c i <= j < endSentence n c i
                  /\ s ∈ shotSentences p c i)
  /\ (forall i, S i < c ->
        startSentence n c i <= startSentence n c (S i) <= endSentence n c i).

(** The story ["Alice ran. She fell."] with a random source that draws two
    shots. *)
Definition overlapStory : jsstring := js "Alice ran. She fell.".
Definition overlapRng : Rng := mkRng (fun _ => 0) 0.

(** One paragraph of two lines, and a story of two paragraphs, the first of
    two lines. *)
Definition twoLineStory : jsstring := js "Alice ran." ++ [10%N] ++ js "She fell.".
Definition threeLineStory : jsstring :=
  js "Alice ran." ++ [10%N] ++ js "She fell." ++ [10%N; 10%N] ++ js "Bob laughed.".

End Generator.

(** ** The simulated analysis ([GeminiProService.simulateGeminiResponse])

    [generateStoryboard] uses it unless Gemini Pro is switched off.  It
    segments as [analyzeStoryBasic] does, titles the story by its first eight
    words, and may give a shot a line of dialogue. *)

Module Gemini.
Import Generator.

(** [Math.random() > 0.5]: a draw that is over the half, or not. *)
Definition randomOverHalf : Rand bool :=
  fun r => (Nat.odd (draws r (consumed r)), mkRng (draws r) (S (consumed r))).

Record SimulatedShot := mkSimulatedShot {
  basic : AnalyzedShot;
  dialogueSnippet : option jsstring
}.

Record SimulatedScene := mkSimulatedScene {
  sim_title : jsstring;
  sim_description : jsstring;
  sim_shots : list SimulatedShot
}.

Record GeminiProSceneAnalysis := mkSimulated {
  gem_title : jsstring;
  gem_scenes : list SimulatedScene
}.

(** [`${character}: "${dialogueWords.join(" ")}..."`], the words being
    [paragraph.split(" ").slice(0, 10)]; code unit 34 is the double quote. *)
Definition dialogueOf (character paragraph : jsstring) : jsstring :=
  character ++ js ": " ++ [34%N]
  ++ join (js " ") (slice 0 10 (splitAt 32 paragraph)) ++ js "..." ++ [34%N].

(** The body of the loop: the draws of [analyzeStoryBasic]'s loop, then
    [Math.random() > 0.5 && characters && characters.length > 0] and, if
    so, the draw of the speaker. *)
Definition makeShot (paragraph : jsstring) (shotCount i : nat) : Rand SimulatedShot :=
  shot ← Generator.makeShot paragraph shotCount i;
  over ← randomOverHalf;
  dialogue ← match a_characters shot return Rand (option jsstring) with
              | Some (first :: others) =>
                  if over : bool then
                    character ← pick first (first :: others);
                    mret (Some (dialogueOf character paragraph))
                  else mret None
              | _ => mret None
              end;
  mret {| basic := shot; dialogueSnippet := dialogue |}.

Definition makeScene (paragraph : jsstring) (index : nat) : Rand SimulatedScene :=
  k ← randomBelow 3;
  let shotCount := k + 2 in
  shots ← forRange shotCount 0 (makeShot paragraph shotCount);
  mret {| sim_title := sceneTitle paragraph index;
         sim_description := paragraph;
         sim_shots := shots |}.

(** The first eight words, and ["..."] when there are more *)
Definition titleOf (storyText : jsstring) : jsstring :=
  let words := splitAt 32 storyText in
  let titleWords := slice 0 (8 `min` length words) words in
  join (js " ") titleWords
  ++ (if length titleWords <? length words then js "..." else []).

Definition simulateGeminiResponse (storyText : jsstring) : Rand GeminiProSceneAnalysis :=
  scenes ← mapIndexed makeScene (paragraphs storyText) 0;
  mret {| gem_title := titleOf storyText; gem_scenes := scenes |}.

(** A simulated scene without its lines of dialogue. *)
Definition basicScene (sc : SimulatedScene) : AnalyzedScene :=
  {| as_title := sim_title sc;
     as_description := sim_description sc;
     as_shots := map basic (sim_shots sc) |}.

(** A line of dialogue is spoken by one of the shot's characters and quotes
    the first ten words of the paragraph. *)
Definition dialogueFits (paragraph : jsstring) (sh : SimulatedShot) : Prop :=
  match dialogueSnippet sh with
  | None => True
  | Some line =>
      exists names character,
        a_characters (basic sh) = Some names
        /\ character ∈ names
        /\ line = dialogueOf character paragraph
  end.

(** A paragraph naming two characters, and a random source whose draws are
    all 1: three shots, every draw over the half, the second name speaks. *)
Definition meetingStory : jsstring := js "Alice met Bob. They talked.".
Definition onesRng : Rng := mkRng (fun _ => 1) 0.

End Gemini.

(** ** The document model ([lib/types.ts]) *)

(** Plain JSON data, for the parts of the document that the verified
    operations carry along without looking inside (template styles,
    annotations, the optional descriptive properties of a shot).  A number
    [JNum m e] stands for the finite double [m * 2^e]. *)
#[local] Unset Elimination Schemes.
Inductive json :=
  | JNull
  | JBool (b : bool)
  | JNum (m e : Z)
  | JStr (s : jsstring)
  | JArr (items : list json)
  | JObj (members : list (jsstring * json)).
#[local] Set Elimination Schemes.

(** Truthiness of a JSON value ([x || d], [if (x)]). *)
Definition jsTruthy (v : json) : bool :=
  match v with
  | JNull => false
  | JBool b => b
  | JNum m _ => negb (m =? 0)%Z
  | JStr s => truthy s
  | JArr _ | JObj _ => true
  end.

(** An exception that leaves the function: [throw new Error(msg)]. *)
Inductive Result (A : Type) :=
  | Ok (a : A)
  | Throw (msg : jsstring).
Arguments Ok {A} a.
Arguments Throw {A} msg.

(** [uuidv4()]: a supply of identifiers and the number already issued. *)
Record Uuids := mkUuids { uuidAt : nat -> jsstring; issued : nat }.

Definition uuidv4 (u : Uuids) : jsstring * Uuids :=
  (uuidAt u (issued u), mkUuids (uuidAt u) (S (issued u))).

(** [x || uuidv4()] on a property that may be missing *)
Definition orUuid (x : option jsstring) (u : Uuids) : jsstring * Uuids :=
  match x with
  | Some v => if truthy v then (v, u) else uuidv4 u
  | None => uuidv4 u
  end.

Module Doc.

(** [ShotInfo].  The four properties that the edit operations read or write
    by name are fields; the others ([shotType], [cameraAngle],
    [cameraMovement], [characters], ..., [printPosition], [printScale]) are
    kept in [shot_props], keyed by property name.  An optional property that
    is absent and one that is [undefined] are the same. *)
Record ShotInfo := mkShot {
  shot_id : jsstring;
  sceneId : jsstring;
  sceneContext : jsstring;
  shotDescription : jsstring;
  shot_props : gmap jsstring json
}.

(** [Partial<ShotInfo>]: every property may be missing.  In [partial_props]
    a key bound to [None] is a property written as [undefined]. *)
Record PartialShot := mkPartialShot {
  partial_id : option jsstring;
  partial_sceneId : option jsstring;
  partial_sceneContext : option jsstring;
  partial_shotDescription : option jsstring;
  partial_props : gmap jsstring (option json)
}.

(** [SceneInfo] *)
Record SceneInfo := mkScene {
  scene_id : jsstring;
  scene_title : jsstring;
  scene_description : jsstring;
  shots : list ShotInfo;
  order : option Z;
  printPageBreakBefore : option bool
}.

(** [Partial<SceneInfo>], as far as [addScene] reads it. *)
Record PartialScene := mkPartialScene {
  partial_scene_id : option jsstring;
  partial_scene_title : option jsstring;
  partial_scene_description : option jsstring;
  partial_shots : option (list ShotInfo)
}.

(** [StoryboardData].  The declared type has [annotations: Annotation[]];
    data read back from JSON may lack the property, so the record is given
    for any type [Ann] of the annotations slot. *)
Record StoryboardOf (Ann : Type) := mkStoryboard {
  sb_id : jsstring;
  sb_title : jsstring;
  author : option jsstring;
  director : option jsstring;
  date : jsstring;
  version : jsstring;
  style : jsstring;
  aspectRatio : jsstring;
  scenes : list SceneInfo;
  templateStyle : option json;
  annotations : Ann
}.
Arguments mkStoryboard {Ann}.
Arguments sb_id {Ann}. Arguments sb_title {Ann}. Arguments author {Ann}.
Arguments director {Ann}. Arguments date {Ann}. Arguments version {Ann}.
Arguments style {Ann}. Arguments aspectRatio {Ann}. Arguments scenes {Ann}.
Arguments templateStyle {Ann}. Arguments annotations {Ann}.

(** The document held in memory, and the document as parsed from JSON. *)
Definition StoryboardData := StoryboardOf (list json).
Definition ParsedStoryboard := StoryboardOf (option (list json)).

Definition withAnnotations {Ann Ann'} (sb : StoryboardOf Ann) (a : Ann') : StoryboardOf Ann' :=
  {| sb_id := sb_id sb; sb_title := sb_title sb; author := author sb;
     director := director sb; date := date sb; version := version sb;
     style := style sb; aspectRatio := aspectRatio sb; scenes := scenes sb;
     templateStyle := templateStyle sb; annotations := a |}.

(** [{ ...storyboardData, scenes }] *)
Definition withScenes {Ann} (sb : StoryboardOf Ann) (scs : list SceneInfo) : StoryboardOf Ann :=
  {| sb_id := sb_id sb; sb_title := sb_title sb; author := author sb;
     director := director sb; date := date sb; version := version sb;
     style := style sb; aspectRatio := aspectRatio sb; scenes := scs;
     templateStyle := templateStyle sb; annotations := annotations sb |}.

(** [{ ...scene, shots }] *)
Definition withShots (sc : SceneInfo) (shs : list ShotInfo) : SceneInfo :=
  {| scene_id := scene_id sc; scene_title := scene_title sc;
     scene_description := scene_description sc; shots := shs;
     order := order sc; printPageBreakBefore := printPageBreakBefore sc |}.

(** [StyleSettings] *)
Record StyleSettings := mkStyle {
  visualStyle : jsstring;
  style_aspectRatio : jsstring;
  quality : jsstring;
  styleModifiers : option (list jsstring);
  artistReference : option jsstring;
  colorPalette : option jsstring;
  style_characterDescriptions : option (gmap jsstring jsstring)
}.

(** [StoryboardVersion] *)
Record StoryboardVersion := mkVersion {
  version_id : jsstring;
  version_name : jsstring;
  version_description : option jsstring;
  timestamp : jsstring;
  version_storyboardData : StoryboardData;
  version_storyInput : jsstring;
  version_styleSettings : StyleSettings
}.

(** *** The provider state ([StoryboardProvider])

    The [useState] cells that the modelled operations read or write.  The
    generation progress cells, the export options and the Gemini switch are
    not touched by them. *)
Record ProviderState := mkProvider {
  storyInput : jsstring;
  storyboardData : option StoryboardData;
  styleSettings : StyleSettings;
  characters : list jsstring;
  characterDescriptions : gmap jsstring jsstring;
  projectSaved : bool;
  versionHistory : list StoryboardVersion;
  currentVersionIndex : nat;
  savedTemplateStyles : list json
}.

(** [if (!data.annotations) data.annotations = []] *)
Definition ensureAnnotations (data : ParsedStoryboard) : StoryboardData :=
  withAnnotations data (default [] (annotations data)).

(** A well-typed document seen at the loose type of a [JSON.parse] result. *)
Definition loose (data : StoryboardData) : ParsedStoryboard :=
  withAnnotations data (Some (annotations data)).

(** [setStoryboardData(data)] for a non-null [data] *)
Definition setStoryboardData (data : ParsedStoryboard) (s : ProviderState) : ProviderState :=
  {| storyInput := storyInput s;
     storyboardData := Some (ensureAnnotations data);
     styleSettings := styleSettings s;
     characters := characters s;
     characterDescriptions := characterDescriptions s;
     projectSaved := projectSaved s;
     versionHistory := versionHistory s;
     currentVersionIndex := currentVersionIndex s;
     savedTemplateStyles := savedTemplateStyles s |}.

Definition setProjectSaved (b : bool) (s : ProviderState) : ProviderState :=
  {| storyInput := storyInput s;
     storyboardData := storyboardData s;
     styleSettings := styleSettings s;
     characters := characters s;
     characterDescriptions := characterDescriptions s;
     projectSaved := b;
     versionHistory := versionHistory s;
     currentVersionIndex := currentVersionIndex s;
     savedTemplateStyles := savedTemplateStyles s |}.

(** The common tail of the edit operations:
    [setStoryboardData({ ...storyboardData, scenes }); setProjectSaved(false)] *)
Definition commitScenes (sb : StoryboardData) (scs : list SceneInfo) (s : ProviderState)
  : ProviderState :=
  setProjectSaved false (setStoryboardData (loose (withScenes sb scs)) s).

(** [{ ...shot, ...updates }] on the property bag *)
Definition spreadProps (base : gmap jsstring json) (upd : gmap jsstring (option json))
  : gmap jsstring json :=
  merge (fun b u => match u with Some v => v | None => b end) base upd.

(** [{ ...shot, ...updates }] *)
Definition spreadShot (shot : ShotInfo) (updates : PartialShot) : ShotInfo :=
  {| shot_id := default (shot_id shot) (partial_id updates);
     sceneId := default (sceneId shot) (partial_sceneId updates);
     sceneContext := default (sceneContext shot) (partial_sceneContext updates);
     shotDescription := default (shotDescription shot) (partial_shotDescription updates);
     shot_props := spreadProps (shot_props shot) (partial_props updates) |}.

(** [scenes.find((s) => s.id === sceneId)] *)
Definition findScene (sceneId : jsstring) (scs : list SceneInfo) : option SceneInfo :=
  List.find (fun sc => bool_decide (scene_id sc = sceneId)) scs.

(** [shots.find((s) => s.id === shotId)] *)
Definition findShot (shotId : jsstring) (shs : list ShotInfo) : option ShotInfo :=
  List.find (fun sh => bool_decide (shot_id sh = shotId)) shs.

Definition updateShot (sceneId shotId : jsstring) (updates : PartialShot) (s : ProviderState)
  : ProviderState :=
  match storyboardData s with
  | None => s
  | Some sb =>
      commitScenes sb
        (map (fun scene =>
                if decide (scene_id scene = sceneId)
                then withShots scene
                       (map (fun shot => if decide (shot_id shot = shotId)
                                         then spreadShot shot updates else shot)
                            (shots scene))
                else scene)
             (scenes sb)) s
  end.

(** The defaults that [addShot] gives to the properties it names. *)
Definition addShotDefaults : gmap jsstring json :=
  {[ js "shotType" := JStr (js "MS");
     js "cameraAngle" := JStr (js "EYE_LEVEL");
     js "cameraMovement" := JStr (js "STATIC");
     js "lighting" := JStr (js "Natural lighting") ]}.

(** [x || d] on a property that may be missing *)
Definition orElse (x : option jsstring) (d : jsstring) : jsstring :=
  match x with
  | Some v => if truthy v then v else d
  | None => d
  end.

(** [x || d] on a property bag entry *)
Definition orElseJson (x : option (option json)) (d : json) : json :=
  match x with
  | Some (Some v) => if jsTruthy v then v else d
  | Some None | None => d
  end.

Definition addShot (sceneId : jsstring) (shot : PartialShot) (s : ProviderState) (u : Uuids)
  : ProviderState * Uuids :=
  match storyboardData s with
  | None => (s, u)
  | Some sb =>
      let '(idOrFresh, u') := orUuid (partial_id shot) u in
      let prop k d := orElseJson (partial_props shot !! js k) (JStr (js d)) in
      let newShot :=
        spreadShot
          {| shot_id := idOrFresh;
             sceneId := sceneId;
             sceneContext := [];
             shotDescription := orElse (partial_shotDescription shot) (js "New shot");
             shot_props :=
               {[ js "shotType" := prop "shotType" "MS";
                  js "cameraAngle" := prop "cameraAngle" "EYE_LEVEL";
                  js "cameraMovement" := prop "cameraMovement" "STATIC";
                  js "lighting" := prop "lighting" "Natural lighting" ]} |}
          shot in
      (commitScenes sb
         (map (fun scene => if decide (scene_id scene = sceneId)
                            then withShots scene (shots scene ++ [newShot])
                            else scene)
              (scenes sb)) s,
       u')
  end.

Definition removeShot (sceneId shotId : jsstring) (s : ProviderState) : ProviderState :=
  match storyboardData s with
  | None => s
  | Some sb =>
      commitScenes sb
        (map (fun scene => if decide (scene_id scene = sceneId)
                           then withShots scene
                                  (filter (fun shot => shot_id shot <> shotId) (shots scene))
                           else scene)
             (scenes sb)) s
  end.

Definition addScene (scene : PartialScene) (s : ProviderState) (u : Uuids)
  : ProviderState * Uuids :=
  match storyboardData s with
  | None => (s, u)
  | Some sb =>
      let '(newId, u') := orUuid (partial_scene_id scene) u in
      let newScene :=
        {| scene_id := newId;
           scene_title := orElse (partial_scene_title scene) (js "New Scene");
           scene_description := orElse (partial_scene_description scene) [];
           shots := default [] (partial_shots scene);
           order := None;
           printPageBreakBefore := None |} in
      (commitScenes sb (scenes sb ++ [newScene]) s, u')
  end.

Definition removeScene (sceneId : jsstring) (s : ProviderState) : ProviderState :=
  match storyboardData s with
  | None => s
  | Some sb =>
      commitScenes sb (filter (fun scene => scene_id scene <> sceneId) (scenes sb)) s
  end.

(** [new Map(items.map((x) => [x.id, x]))]: a later entry with the same id
    replaces an earlier one. *)
Definition mapById {A} (key : A -> jsstring) (items : list A) : gmap jsstring A :=
  foldl (fun m x => <[key x := x]> m) ∅ items.

(** [ids.map((id) => { const x = m.get(id); if (!x) throw new Error(...); return x })] *)
Fixpoint lookupAll {A} (kind : jsstring) (m : gmap jsstring A) (ids : list jsstring)
  : Result (list A) :=
  match ids with
  | [] => Ok []
  | id :: ids' =>
      match m !! id with
      | None => Throw (kind ++ js " with ID " ++ id ++ js " not found")
      | Some x =>
          match lookupAll kind m ids' with
          | Ok xs => Ok (x :: xs)
          | Throw msg => Throw msg
          end
      end
  end.

(** The reorder operations throw before any state setter is called: a
    [Throw] result stands for the exception leaving with the state as it
    was. *)
Definition stateAfter (s : ProviderState) (r : Result ProviderState) : ProviderState :=
  match r with
  | Ok s' => s'
  | Throw _ => s
  end.

Definition reorderShots (sceneId : jsstring) (shotIds : list jsstring) (s : ProviderState)
  : Result ProviderState :=
  match storyboardData s with
  | None => Ok s
  | Some sb =>
      match findScene sceneId (scenes sb) with
      | None => Ok s
      | Some scene =>
          match lookupAll (js "Shot") (mapById shot_id (shots scene)) shotIds with
          | Throw msg => Throw msg
          | Ok reorderedShots =>
              Ok (commitScenes sb
                    (map (fun scene => if decide (scene_id scene = sceneId)
                                       then withShots scene reorderedShots
                                       else scene)
                         (scenes sb)) s)
          end
      end
  end.

Definition reorderScenes (sceneIds : list jsstring) (s : ProviderState)
  : Result ProviderState :=
  match storyboardData s with
  | None => Ok s
  | Some sb =>
      match lookupAll (js "Scene") (mapById scene_id (scenes sb)) sceneIds with
      | Throw msg => Throw msg
      | Ok reorderedScenes => Ok (commitScenes sb reorderedScenes s)
      end
  end.

Definition duplicateShot (sceneId shotId : jsstring) (s : ProviderState) (u : Uuids)
  : ProviderState * Uuids :=
  match storyboardData s with
  | None => (s, u)
  | Some sb =>
      match findScene sceneId (scenes sb) with
      | None => (s, u)
      | Some scene =>
          match findShot shotId (shots scene) with
          | None => (s, u)
          | Some shotToDuplicate =>
              let '(newId, u') := uuidv4 u in
              let newShot :=
                {| shot_id := newId;
                   sceneId := Doc.sceneId shotToDuplicate;
                   sceneContext := sceneContext shotToDuplicate;
                   shotDescription := shotDescription shotToDuplicate ++ js " (Copy)";
                   shot_props := shot_props shotToDuplicate |} in
              (commitScenes sb
                 (map (fun scene => if decide (scene_id scene = sceneId)
                                    then withShots scene (shots scene ++ [newShot])
                                    else scene)
                      (scenes sb)) s,
               u')
          end
      end
  end.

(** [shots.map((shot) => ({ ...shot, id: uuidv4(), sceneId: newSceneId }))] *)
Fixpoint duplicateShots (newSceneId : jsstring) (shs : list ShotInfo) (u : Uuids)
  : list ShotInfo * Uuids :=
  match shs with
  | [] => ([], u)
  | shot :: shs' =>
      let '(newId, u1) := uuidv4 u in
      let '(rest, u2) := duplicateShots newSceneId shs' u1 in
      ({| shot_id := newId;
          sceneId := newSceneId;
          sceneContext := sceneContext shot;
          shotDescription := shotDescription shot;
          shot_props := shot_props shot |} :: rest, u2)
  end.

Definition duplicateScene (sceneId : jsstring) (s : ProviderState) (u : Uuids)
  : ProviderState * Uuids :=
  match storyboardData s with
  | None => (s, u)
  | Some sb =>
      match findScene sceneId (scenes sb) with
      | None => (s, u)
      | Some sceneToDuplicate =>
          let '(newSceneId, u1) := uuidv4 u in
          let '(duplicatedShots, u2) := duplicateShots newSceneId (shots sceneToDuplicate) u1 in
          let newScene :=
            {| scene_id := newSceneId;
               scene_title := scene_title sceneToDuplicate ++ js " (Copy)";
               scene_description := scene_description sceneToDuplicate;
               shots := duplicatedShots;
               order := order sceneToDuplicate;
               printPageBreakBefore := printPageBreakBefore sceneToDuplicate |} in
          (commitScenes sb (scenes sb ++ [newScene]) s, u2)
      end
  end.

(** [arr.splice(start, 0, x)]: a negative [start] counts from the end, and
    the position is clamped to the array. *)
Definition spliceInsert {A} (start : Z) (x : A) (l : list A) : list A :=
  let len := Z.of_nat (length l) in
  let k := Z.to_nat (if (start <? 0)%Z then Z.max (len + start) 0 else Z.min start len) in
  take k l ++ x :: drop k l.

Definition moveShot (sourceSceneId shotId targetSceneId : jsstring) (targetIndex : option Z)
    (s : ProviderState) : ProviderState :=
  match storyboardData s with
  | None => s
  | Some sb =>
      match findScene sourceSceneId (scenes sb), findScene targetSceneId (scenes sb) with
      | Some sourceScene, Some targetScene =>
          match findShot shotId (shots sourceScene) with
          | None => s
          | Some shotToMove =>
              let updatedShot :=
                {| shot_id := shot_id shotToMove;
                   sceneId := targetSceneId;
                   sceneContext := scene_description targetScene;
                   shotDescription := shotDescription shotToMove;
                   shot_props := shot_props shotToMove |} in
              let updatedSourceScene :=
                withShots sourceScene
                  (filter (fun sh => shot_id sh <> shotId) (shots sourceScene)) in
              let updatedTargetShots :=
                match targetIndex with
                | Some k => spliceInsert k updatedShot (shots targetScene)
                | None => shots targetScene ++ [updatedShot]
                end in
              let updatedTargetScene := withShots targetScene updatedTargetShots in
              commitScenes sb
                (map (fun scene =>
                        if decide (scene_id scene = sourceSceneId) then updatedSourceScene
                        else if decide (scene_id scene = targetSceneId) then updatedTargetScene
                        else scene)
                     (scenes sb)) s
          end
      | _, _ => s
      end
  end.

(** *** Project persistence

    [localStorage] maps a key to a text.  A text is kept as the value that
    [JSON.parse] makes of it: [ProjectJson p] is a JSON text of the shape
    that [saveProject] writes, [Unparsable] one that [JSON.parse] rejects.
    [JSON.stringify] followed by [JSON.parse] gives back the same data (an
    optional property that is [undefined] being the same as an absent one);
    the properties that [loadProject] reads with a default may be missing
    from a stored text. *)
Record SavedProject := mkSaved {
  saved_storyboardData : option ParsedStoryboard;
  saved_storyInput : jsstring;
  saved_styleSettings : StyleSettings;
  saved_characters : list jsstring;
  saved_characterDescriptions : gmap jsstring jsstring;
  saved_versionHistory : option (list StoryboardVersion);
  saved_currentVersionIndex : option nat;
  saved_savedTemplateStyles : option (list json)
}.

Inductive StoredItem :=
  | Unparsable (text : jsstring)
  | ProjectJson (p : SavedProject).

(** [`storyboard-${id}`] *)
Definition projectKey (id : jsstring) : jsstring := js "storyboard-" ++ id.

Definition saveProject (s : ProviderState) (localStorage : gmap jsstring StoredItem)
  : ProviderState * gmap jsstring StoredItem :=
  match storyboardData s with
  | None => (s, localStorage)
  | Some sb =>
      (setProjectSaved true s,
       <[projectKey (sb_id sb) :=
           ProjectJson
             {| saved_storyboardData := Some (loose sb);
                saved_storyInput := storyInput s;
                saved_styleSettings := styleSettings s;
                saved_characters := characters s;
                saved_characterDescriptions := characterDescriptions s;
                saved_versionHistory := Some (versionHistory s);
                saved_currentVersionIndex := Some (currentVersionIndex s);
                saved_savedTemplateStyles := Some (savedTemplateStyles s) |}]>
         localStorage)
  end.

(** The state after the setter calls of [loadProject].  A missing key and a
    text that does not parse (the exception is caught and logged) leave the
    state as it was. *)
Definition loadProject (id : jsstring) (localStorage : gmap jsstring StoredItem)
    (s : ProviderState) : ProviderState :=
  match localStorage !! projectKey id with
  | None | Some (Unparsable _) => s
  | Some (ProjectJson p) =>
      {| storyInput := saved_storyInput p;
         storyboardData := ensureAnnotations <$> saved_storyboardData p;
         styleSettings := saved_styleSettings p;
         characters := saved_characters p;
         characterDescriptions := saved_characterDescriptions p;
         projectSaved := true;
         versionHistory := default [] (saved_versionHistory p);
         currentVersionIndex := default 0 (saved_currentVersionIndex p);
         savedTemplateStyles := default [] (saved_savedTemplateStyles p) |}
  end.

(** *** Reading a property of an object literal

    [characterDescriptions] is a plain object: its own properties are the
    map, and a name that is not an own property is looked up in
    [Object.prototype].  The members of the standard prototype (Annex B
    included) are functions or, for [__proto__], the prototype itself, so
    they are truthy; the prototype is taken not to have been extended. *)
Definition objectPrototypeNames : list jsstring :=
  map js ["constructor"; "hasOwnProperty"; "isPrototypeOf"; "propertyIsEnumerable";
          "toLocaleString"; "toString"; "valueOf"; "__defineGetter__";
          "__defineSetter__"; "__lookupGetter__"; "__lookupSetter__"; "__proto__"]%string.

(** [!obj[key]] for an object whose own properties are strings *)
Definition propertyFalsy (obj : gmap jsstring jsstring) (key : jsstring) : bool :=
  match obj !! key with
  | Some v => negb (truthy v)
  | None => negb (bool_decide (key ∈ objectPrototypeNames))
  end.

(** The provider's effect on [[characters]]: it runs after a render in which
    the [characters] array is a new one.

    [const newDescriptions = { ...characterDescriptions }]
    [characters.forEach((c) => { if (!newDescriptions[c]) newDescriptions[c] = '' })]
    [Object.keys(newDescriptions).forEach((c) =>
       { if (!characters.includes(c)) delete newDescriptions[c] })]
    [setCharacterDescriptions(newDescriptions)]
    [setStyleSettings((prev) => ({ ...prev, characterDescriptions: newDescriptions }))] *)
Definition syncDescriptions (chars : list jsstring) (descriptions : gmap jsstring jsstring)
  : gmap jsstring jsstring :=
  let withMissing :=
    foldl (fun m c => if propertyFalsy m c then <[c := []]> m else m)
          descriptions chars in
  filter (fun kv => kv.1 ∈ chars) withMissing.

Definition charactersEffect (s : ProviderState) : ProviderState :=
  let newDescriptions := syncDescriptions (characters s) (characterDescriptions s) in
  {| storyInput := storyInput s;
     storyboardData := storyboardData s;
     styleSettings :=
       {| visualStyle := visualStyle (styleSettings s);
          style_aspectRatio := style_aspectRatio (styleSettings s);
          quality := quality (styleSettings s);
          styleModifiers := styleModifiers (styleSettings s);
          artistReference := artistReference (styleSettings s);
          colorPalette := colorPalette (styleSettings s);
          style_characterDescriptions := Some newDescriptions |};
     characters := characters s;
     characterDescriptions := newDescriptions;
     projectSaved := projectSaved s;
     versionHistory := versionHistory s;
     currentVersionIndex := currentVersionIndex s;
     savedTemplateStyles := savedTemplateStyles s |}.

(** The provider state once React has rendered a [loadProject] call: when a
    project was read, [setCharacters] stored the array that [JSON.parse]
    built, a new one, so the effect above runs once. *)
Definition loadProjectRendered (id : jsstring) (localStorage : gmap jsstring StoredItem)
    (s : ProviderState) : ProviderState :=
  match localStorage !! projectKey id with
  | Some (ProjectJson _) => charactersEffect (loadProject id localStorage s)
  | _ => s
  end.

(** The character descriptions are in the form the effect leaves them in. *)
Definition charactersSynced (s : ProviderState) : Prop :=
  (forall c, c ∈ characters s <-> is_Some (characterDescriptions s !! c))
  /\ style_characterDescriptions (styleSettings s) = Some (characterDescriptions s).

(** Every shot names the scene that holds it: [shot.sceneId === scene.id]. *)
Definition sceneIdsConsistent (sb : StoryboardData) : Prop :=
  Forall (fun scene => Forall (fun shot => sceneId shot = scene_id scene) (shots scene))
         (scenes sb).

Definition stateConsistent (s : ProviderState) : Prop :=
  match storyboardData s with
  | None => True
  | Some sb => sceneIdsConsistent sb
  end.

(** *** Version history

    [setVersionHistory(history); setCurrentVersionIndex(index);
     setProjectSaved(false)] *)
Definition commitVersions (history : list StoryboardVersion) (index : nat) (s : ProviderState)
  : ProviderState :=
  {| storyInput := storyInput s;
     storyboardData := storyboardData s;
     styleSettings := styleSettings s;
     characters := characters s;
     characterDescriptions := characterDescriptions s;
     projectSaved := false;
     versionHistory := history;
     currentVersionIndex := index;
     savedTemplateStyles := savedTemplateStyles s |}.

(** [saveVersion(name, description)].  [now] is the text of
    [new Date().toISOString()]; the copies made by
    [JSON.parse(JSON.stringify(...))] are the data themselves. *)
Definition saveVersion (name : jsstring) (description : option jsstring) (now : jsstring)
    (s : ProviderState) (u : Uuids) : ProviderState * Uuids :=
  match storyboardData s with
  | None => (s, u)
  | Some sb =>
      let '(newId, u') := uuidv4 u in
      let newVersion :=
        {| version_id := newId;
           version_name := name;
           version_description := description;
           timestamp := now;
           version_storyboardData := sb;
           version_storyInput := storyInput s;
           version_styleSettings := styleSettings s |} in
      let updatedHistory := versionHistory s ++ [newVersion] in
      (commitVersions updatedHistory (length updatedHistory - 1) s, u')
  end.

(** [versionIndex < 0 || versionIndex >= versionHistory.length], for an
    integer index *)
Definition outsideHistory (versionIndex : Z) (s : ProviderState) : bool :=
  ((versionIndex <? 0) || (Z.of_nat (length (versionHistory s)) <=? versionIndex))%Z.

Definition loadVersion (versionIndex : Z) (s : ProviderState) : ProviderState :=
  if outsideHistory versionIndex s then s
  else
    match versionHistory s !! Z.to_nat versionIndex with
    | None => s
    | Some version =>
        {| storyInput := version_storyInput version;
           storyboardData := Some (ensureAnnotations (loose (version_storyboardData version)));
           styleSettings := version_styleSettings version;
           characters := characters s;
           characterDescriptions := characterDescriptions s;
           projectSaved := false;
           versionHistory := versionHistory s;
           currentVersionIndex := Z.to_nat versionIndex;
           savedTemplateStyles := savedTemplateStyles s |}
    end.

(** [versionHistory.filter((_, index) => index !== versionIndex)] drops the
    entry at the index; [Math.max(0, currentVersionIndex - 1)] is the
    subtraction of [nat]. *)
Definition deleteVersion (versionIndex : Z) (s : ProviderState) : ProviderState :=
  if outsideHistory versionIndex s then s
  else
    commitVersions
      (delete (Z.to_nat versionIndex) (versionHistory s))
      (if (versionIndex <=? Z.of_nat (currentVersionIndex s))%Z
       then currentVersionIndex s - 1
       else currentVersionIndex s)
      s.

(** The current index names a version of the history (or is 0 when there
    is none). *)
Definition versionIndexValid (s : ProviderState) : Prop :=
  currentVersionIndex s < 1 `max` length (versionHistory s).

(** *** Annotations and template styles

    An annotation and a template style are objects, kept as JSON data.
    [member key v] is the property read [v[key]]. *)
Definition member (key : string) (v : json) : option json :=
  match v with
  | JObj members => snd <$> List.find (fun kv => bool_decide (kv.1 = js key)) members
  | _ => None
  end.

(** [x === s] for a property [x] that may be missing and a string [s] *)
Definition isText (x : option json) (s : jsstring) : bool :=
  match x with
  | Some (JStr t) => bool_decide (t = s)
  | _ => false
  end.

(** [setStoryboardData({ ...storyboardData, annotations }); setProjectSaved(false)] *)
Definition commitAnnotations (sb : StoryboardData) (anns : list json) (s : ProviderState)
  : ProviderState :=
  setProjectSaved false (setStoryboardData (loose (withAnnotations sb anns)) s).

(** [addAnnotation]: in memory [annotations] is an array ([setStoryboardData]
    sees to it), so the branch for a missing one is not taken. *)
Definition addAnnotation (annotation : json) (s : ProviderState) : ProviderState :=
  match storyboardData s with
  | None => s
  | Some sb => commitAnnotations sb (annotations sb ++ [annotation]) s
  end.

Definition deleteAnnotation (annotationId : jsstring) (s : ProviderState) : ProviderState :=
  match storyboardData s with
  | None => s
  | Some sb =>
      commitAnnotations sb
        (filter (fun a => isText (member "id" a) annotationId = false) (annotations sb)) s
  end.

(** [clearAnnotations(sceneId?, shotId?)]: an argument that is missing or
    the empty string is falsy. *)
Definition clearAnnotations (sceneId shotId : option jsstring) (s : ProviderState)
  : ProviderState :=
  match storyboardData s with
  | None => s
  | Some sb =>
      if truthy (default [] shotId) then
        commitAnnotations sb
          (filter (fun a => isText (member "shotId" a) (default [] shotId) = false)
                  (annotations sb)) s
      else if truthy (default [] sceneId) then
        commitAnnotations sb
          (filter (fun a => isText (member "sceneId" a) (default [] sceneId) = false)
                  (annotations sb)) s
      else commitAnnotations sb [] s
  end.

(** [{ ...storyboardData, templateStyle }] *)
Definition withTemplateStyle (sb : StoryboardData) (t : json) : StoryboardData :=
  {| sb_id := sb_id sb; sb_title := sb_title sb; author := author sb;
     director := director sb; date := date sb; version := version sb;
     style := style sb; aspectRatio := aspectRatio sb; scenes := scenes sb;
     templateStyle := Some t; annotations := annotations sb |}.

Definition setSavedTemplateStyles (templates : list json) (s : ProviderState)
  : ProviderState :=
  {| storyInput := storyInput s;
     storyboardData := storyboardData s;
     styleSettings := styleSettings s;
     characters := characters s;
     characterDescriptions := characterDescriptions s;
     projectSaved := projectSaved s;
     versionHistory := versionHistory s;
     currentVersionIndex := currentVersionIndex s;
     savedTemplateStyles := templates |}.

Definition updateTemplateStyle (templateStyle : json) (s : ProviderState) : ProviderState :=
  match storyboardData s with
  | None => s
  | Some sb =>
      setProjectSaved false (setStoryboardData (loose (withTemplateStyle sb templateStyle)) s)
  end.

Definition saveTemplateStyle (templateStyle : json) (s : ProviderState) : ProviderState :=
  setProjectSaved false
    (setSavedTemplateStyles (savedTemplateStyles s ++ [templateStyle]) s).

(** [savedTemplateStyles.find((t) => t.id === templateId)] *)
Definition findTemplate (templateId : jsstring) (templates : list json) : option json :=
  List.find (fun t => isText (member "id" t) templateId) templates.

Definition loadTemplateStyle (templateId : jsstring) (s : ProviderState) : ProviderState :=
  match findTemplate templateId (savedTemplateStyles s), storyboardData s with
  | Some template, Some sb =>
      setProjectSaved false (setStoryboardData (loose (withTemplateStyle sb template)) s)
  | _, _ => s
  end.

Definition deleteTemplateStyle (templateId : jsstring) (s : ProviderState) : ProviderState :=
  setProjectSaved false
    (setSavedTemplateStyles
       (filter (fun t => isText (member "id" t) templateId = false) (savedTemplateStyles s))
       s).

(** The shots of all scenes, in document order. *)
Definition allShots (scs : list SceneInfo) : list ShotInfo := concat (map shots scs).

(** The scene and shot ids of a document are unique: no two scenes share an
    id and no two shots do, in the same scene or across scenes. *)
Definition idsUnique (sb : StoryboardData) : Prop :=
  NoDup (map scene_id (scenes sb)) /\ NoDup (map shot_id (allShots (scenes sb))).

(** The identifiers that [uuidv4()] has yet to give out are distinct from
    each other and from the ids in the document. *)
Definition freshSupply (u : Uuids) (sb : StoryboardData) : Prop :=
  (forall i j, issued u <= i -> issued u <= j -> uuidAt u i = uuidAt u j -> i = j)
  /\ (forall i, issued u <= i ->
        (uuidAt u i ∉ map scene_id (scenes sb))
        /\ (uuidAt u i ∉ map shot_id (allShots (scenes sb)))).

(** Two provider states that differ at most in the scenes of the storyboard
    and in the saved flag. *)
Definition sameBesidesScenes (s s' : ProviderState) : Prop :=
  storyInput s' = storyInput s
  /\ styleSettings s' = styleSettings s
  /\ characters s' = characters s
  /\ characterDescriptions s' = characterDescriptions s
  /\ versionHistory s' = versionHistory s
  /\ currentVersionIndex s' = currentVersionIndex s
  /\ savedTemplateStyles s' = savedTemplateStyles s
  /\ match storyboardData s, storyboardData s' with
     | Some sb, Some sb' => sb' = withScenes sb (scenes sb')
     | None, None => True
     | _, _ => False
     end.

End Doc.

(** ** From the analysis to the document ([generateStoryboard], step 2)

    [generateStoryboard] turns the story structure into [SceneInfo]s and
    [ShotInfo]s with the ids that the rest of the program relies on.  The
    later steps add [prompt] and [imageUrl] to each shot and leave the other
    properties, the ids among them, as step 2 made them. *)

Module GenerateStoryboard.
Import Generator Doc.

Definition cameraAngleName (a : CameraAngle) : jsstring :=
  js match a with
     | EYE_LEVEL => "EYE_LEVEL" | LOW_ANGLE => "LOW_ANGLE" | HIGH_ANGLE => "HIGH_ANGLE"
     | BIRD_EYE => "BIRD_EYE" | WORM_EYE => "WORM_EYE" | DUTCH_ANGLE => "DUTCH_ANGLE"
     end.

Definition sceneMoodName (m : SceneMood) : jsstring :=
  js match m with
     | HAPPY => "HAPPY" | SAD => "SAD" | TENSE => "TENSE" | MYSTERIOUS => "MYSTERIOUS"
     | ROMANTIC => "ROMANTIC" | SCARY => "SCARY" | SERENE => "SERENE"
     | CHAOTIC => "CHAOTIC"
     end.

(** [`${sceneIndex + 1}-${shotIndex + 1}`] *)
Definition shotIdFor (sceneIndex shotIndex : nat) : jsstring :=
  decimal (sceneIndex + 1) ++ js "-" ++ decimal (shotIndex + 1).

(** [`scene-${sceneIndex}`] *)
Definition sceneIdFor (sceneIndex : nat) : jsstring := js "scene-" ++ decimal sceneIndex.

(** The descriptive properties copied from the analysed shot; [weather] and
    [dialogueSnippet] are [undefined] in the basic analysis, and
    [characters] is when no name was found. *)
Definition shotProps (shotInfo : AnalyzedShot) : gmap jsstring json :=
  let named : gmap jsstring json :=
    {[ js "shotType" := JStr (shotTypeName (a_shotType shotInfo));
       js "cameraAngle" := JStr (cameraAngleName (a_cameraAngle shotInfo));
       js "cameraMovement" := JStr (cameraMovementName (a_cameraMovement shotInfo));
       js "location" := JStr (a_location shotInfo);
       js "timeOfDay" := JStr (a_timeOfDay shotInfo);
       js "lighting" := JStr (a_lighting shotInfo);
       js "mood" := JStr (sceneMoodName (a_mood shotInfo));
       js "audio" := JStr (a_audio shotInfo);
       js "notes" := JStr (a_notes shotInfo) ]} in
  match a_characters shotInfo with
  | Some names => <[js "characters" := JArr (map JStr names)]> named
  | None => named
  end.

(** The callback of [scene.shots.map] *)
Definition toShotInfo (scene : AnalyzedScene) (sceneIndex shotIndex : nat)
    (shotInfo : AnalyzedShot) : ShotInfo :=
  {| shot_id := shotIdFor sceneIndex shotIndex;
     sceneId := sceneIdFor sceneIndex;
     sceneContext := as_description scene;
     shotDescription := a_description shotInfo;
     shot_props := shotProps shotInfo |}.

(** The callback of [storyStructure.scenes.map] *)
Definition toSceneInfo (sceneIndex : nat) (scene : AnalyzedScene) : SceneInfo :=
  {| scene_id := sceneIdFor sceneIndex;
     scene_title := as_title scene;
     scene_description := as_description scene;
     shots := imap (toShotInfo scene sceneIndex) (as_shots scene);
     order := None;
     printPageBreakBefore := None |}.

Definition extractScenes (storyStructure : Analysis) : list SceneInfo :=
  imap toSceneInfo (an_scenes storyStructure).

(** [storyStructure.title || generateTitle(storyText)] *)
Definition storyboardTitle (storyText : jsstring) (storyStructure : Analysis) : jsstring :=
  if truthy (an_title storyStructure) then an_title storyStructure
  else generateTitle storyText.

End GenerateStoryboard.

(** ** The delete handlers of the two [StoryboardViewer] components

    The repository holds two versions of the component.  Both keep the
    request of a delete in [confirmDelete], shown as a confirmation dialog,
    and delete in [confirmDeleteItem]; they differ in [handleDeleteShot] and
    [handleDeleteScene]. *)

Module Viewer.
Import Doc.

Inductive DeleteType := shot | scene.

Record CurrentShot := mkCurrentShot { sceneIndex : nat; shotIndex : nat }.

Record ViewerState := mkViewer {
  confirmDelete : option (DeleteType * jsstring);
  currentShot : CurrentShot;
  activeScene : nat
}.

Definition setConfirmDelete (x : option (DeleteType * jsstring)) (v : ViewerState) : ViewerState :=
  {| confirmDelete := x; currentShot := currentShot v; activeScene := activeScene v |}.

Definition setCurrentShot (cs : CurrentShot) (v : ViewerState) : ViewerState :=
  {| confirmDelete := confirmDelete v; currentShot := cs; activeScene := activeScene v |}.

Definition setActiveScene (k : nat) (v : ViewerState) : ViewerState :=
  {| confirmDelete := confirmDelete v; currentShot := currentShot v; activeScene := k |}.

(** An optional string argument used as a condition *)
Definition given (x : option jsstring) : bool :=
  match x with Some v => truthy v | None => false end.

(** The provider state and the component state together.  [Raised] is a
    [TypeError] (a property read on [undefined]) leaving the handler; the
    state it carries has the updates made before. *)
Record App := mkApp { provider : ProviderState; viewer : ViewerState }.

Inductive Outcome :=
  | Returned (a : App)
  | Raised (a : App).

Definition stateOf (o : Outcome) : App :=
  match o with Returned a | Raised a => a end.

(** [confirmDeleteItem], the same in both components *)
Definition confirmDeleteItem (a : App) : Outcome :=
  match storyboardData (provider a), confirmDelete (viewer a) with
  | Some sb, Some (shot, id) =>
      match List.find (fun sc => existsb (fun sh => bool_decide (shot_id sh = id)) (shots sc))
                      (scenes sb) with
      | None => Returned a
      | Some sc =>
          let p' := removeShot (scene_id sc) id (provider a) in
          match scenes sb !! sceneIndex (currentShot (viewer a)) with
          | None => Raised (mkApp p' (viewer a))
          | Some cur =>
              let v1 :=
                if decide (scene_id sc = scene_id cur) then
                  if length (shots cur) <=? S (shotIndex (currentShot (viewer a))) then
                    setCurrentShot
                      (mkCurrentShot (sceneIndex (currentShot (viewer a)))
                                     (length (shots cur) - 2))
                      (viewer a)
                  else viewer a
                else viewer a in
              Returned (mkApp p' (setConfirmDelete None v1))
          end
      end
  | Some sb, Some (scene, id) =>
      let p' := removeScene id (provider a) in
      let v1 :=
        match list_find (fun sc => scene_id sc = id) (scenes sb) with
        | Some (deletedSceneIndex, _) =>
            if deletedSceneIndex <=? sceneIndex (currentShot (viewer a)) then
              let newSceneIndex := sceneIndex (currentShot (viewer a)) - 1 in
              setActiveScene newSceneIndex
                (setCurrentShot (mkCurrentShot newSceneIndex 0) (viewer a))
            else viewer a
        | None => viewer a
        end in
      Returned (mkApp p' (setConfirmDelete None v1))
  | _, _ => Returned a
  end.

(** The first component (the one that opens with [@jsxImportSource]). *)
Module First.

Definition handleDeleteShot (sceneId shotId : option jsstring) (a : App) : Outcome :=
  match storyboardData (provider a) with
  | None => Returned a
  | Some sb =>
      if given sceneId && given shotId then
        Returned (mkApp (provider a)
                    (setConfirmDelete (Some (shot, default [] shotId)) (viewer a)))
      else
        match scenes sb !! sceneIndex (currentShot (viewer a)) with
        | None => Raised a
        | Some cur =>
            if length (shots cur) <=? 1 then Returned a
            else
              match shots cur !! shotIndex (currentShot (viewer a)) with
              | None => Raised a
              | Some sh =>
                  Returned (mkApp (provider a)
                              (setConfirmDelete (Some (shot, shot_id sh)) (viewer a)))
              end
        end
  end.

Definition handleDeleteScene (a : App) : Outcome :=
  match storyboardData (provider a) with
  | None => Returned a
  | Some sb =>
      match scenes sb !! sceneIndex (currentShot (viewer a)) with
      | None => Raised a
      | Some cur =>
          Returned (mkApp (provider a)
                      (setConfirmDelete (Some (scene, scene_id cur)) (viewer a)))
      end
  end.

End First.

(** The second component. *)
Module Second.

Definition handleDeleteShot (sceneId shotId : option jsstring) (a : App) : Outcome :=
  match storyboardData (provider a) with
  | None => Returned a
  | Some sb =>
      if given sceneId && given shotId then
        match findScene (default [] sceneId) (scenes sb) with
        | None => Returned a
        | Some sc =>
            if length (shots sc) <=? 1 then Returned a
            else Returned (mkApp (provider a)
                             (setConfirmDelete (Some (shot, default [] shotId)) (viewer a)))
        end
      else
        match scenes sb !! sceneIndex (currentShot (viewer a)) with
        | None => Raised a
        | Some cur =>
            if length (shots cur) <=? 1 then Returned a
            else
              match shots cur !! shotIndex (currentShot (viewer a)) with
              | None => Raised a
              | Some sh =>
                  Returned (mkApp (provider a)
                              (setConfirmDelete (Some (shot, shot_id sh)) (viewer a)))
              end
        end
  end.

Definition handleDeleteScene (sceneId : option jsstring) (a : App) : Outcome :=
  match storyboardData (provider a) with
  | None => Returned a
  | Some sb =>
      if given sceneId then
        if length (scenes sb) <=? 1 then Returned a
        else Returned (mkApp (provider a)
                         (setConfirmDelete (Some (scene, default [] sceneId)) (viewer a)))
      else
        if length (scenes sb) <=? 1 then Returned a
        else
          match scenes sb !! sceneIndex (currentShot (viewer a)) with
          | None => Raised a
          | Some cur =>
              Returned (mkApp (provider a)
                          (setConfirmDelete (Some (scene, scene_id cur)) (viewer a)))
          end
  end.

End Second.

(** A delete as the user does it: the delete button, then the confirm
    button of the dialog that a pending [confirmDelete] opens. *)
Definition thenConfirm (o : Outcome) : Outcome :=
  match o with
  | Returned a => confirmDeleteItem a
  | Raised a => Raised a
  end.

(** The component renders [scenes[currentShot.sceneIndex].shots[currentShot.shotIndex]]:
    the cursor has to name a shot of the document. *)
Definition cursorValid (sb : StoryboardData) (v : ViewerState) : Prop :=
  exists cur, scenes sb !! sceneIndex (currentShot v) = Some cur
              /\ shotIndex (currentShot v) < length (shots cur).

(** A document that the viewer can show and delete from: unique ids, no
    scene without a shot, and the cursor on a shot. *)
Definition viewerSafe (a : App) : Prop :=
  exists sb, storyboardData (provider a) = Some sb
             /\ idsUnique sb
             /\ Forall (fun sc => shots sc <> []) (scenes sb)
             /\ cursorValid sb (viewer a).

End Viewer.

(** ** The character list of [StoryInput]

    The handlers call the provider's setters; [setCharacters] with a new
    array makes the provider's effect on [[characters]] run after the
    render. *)

Module StoryInput.
Import Doc.

Definition setCharacters (chars : list jsstring) (s : ProviderState) : ProviderState :=
  {| storyInput := storyInput s;
     storyboardData := storyboardData s;
     styleSettings := styleSettings s;
     characters := chars;
     characterDescriptions := characterDescriptions s;
     projectSaved := projectSaved s;
     versionHistory := versionHistory s;
     currentVersionIndex := currentVersionIndex s;
     savedTemplateStyles := savedTemplateStyles s |}.

Definition setCharacterDescriptions (descriptions : gmap jsstring jsstring) (s : ProviderState)
  : ProviderState :=
  {| storyInput := storyInput s;
     storyboardData := storyboardData s;
     styleSettings := styleSettings s;
     characters := characters s;
     characterDescriptions := descriptions;
     projectSaved := projectSaved s;
     versionHistory := versionHistory s;
     currentVersionIndex := currentVersionIndex s;
     savedTemplateStyles := savedTemplateStyles s |}.

(** [addCharacter], for the text [newCharacter] of the input field, and the
    render that follows: the effect runs when the array was replaced. *)
Definition addCharacter (newCharacter : jsstring) (s : ProviderState) : ProviderState :=
  if truthy newCharacter && negb (bool_decide (newCharacter ∈ characters s))
  then charactersEffect (setCharacters (characters s ++ [newCharacter]) s)
  else s.

(** [removeCharacter(character)] and the render that follows; [filter]
    always builds a new array. *)
Definition removeCharacter (character : jsstring) (s : ProviderState) : ProviderState :=
  charactersEffect (setCharacters (filter (fun c => c <> character) (characters s)) s).

(** [updateCharacterDescription(character, description)]: the characters
    stay the same array, so the effect does not run. *)
Definition updateCharacterDescription (character description : jsstring) (s : ProviderState)
  : ProviderState :=
  setCharacterDescriptions (<[character := description]> (characterDescriptions s)) s.

End StoryInput.

(** ** Drag and drop in [SortableSceneList] and [SortableShotList]

    [handleDragEnd(result)] reads [result.source.index] and
    [result.destination?.index], the positions that the drag library
    reports. *)

Module Sortable.
Import Doc.

(** [const [removed] = ids.splice(sourceIndex, 1); ids.splice(destinationIndex, 0, removed)].
    When [sourceIndex] is past the end nothing is removed and [undefined]
    is inserted: [None]. *)
Definition moveId (sourceIndex destinationIndex : nat) (ids : list jsstring)
  : option (list jsstring) :=
  removed ← ids !! sourceIndex;
  Some (spliceInsert (Z.of_nat destinationIndex) removed (delete sourceIndex ids)).

(** [SortableSceneList]'s handler; the component renders nothing without a
    storyboard.  An [undefined] in the id list makes [reorderScenes]
    throw at that id. *)
Definition handleSceneDragEnd (sourceIndex : nat) (destinationIndex : option nat)
    (s : ProviderState) : Result ProviderState :=
  match storyboardData s, destinationIndex with
  | Some sb, Some d =>
      if sourceIndex =? d then Ok s
      else
        match moveId sourceIndex d (map scene_id (scenes sb)) with
        | Some sceneIds => reorderScenes sceneIds s
        | None => Throw (js "Scene with ID undefined not found")
        end
  | _, _ => Ok s
  end.

(** [SortableShotList]'s handler, for the props [sceneId] and [shots]. *)
Definition handleShotDragEnd (sceneId : jsstring) (shots : list ShotInfo)
    (sourceIndex : nat) (destinationIndex : option nat) (s : ProviderState)
  : Result ProviderState :=
  match destinationIndex with
  | Some d =>
      if sourceIndex =? d then Ok s
      else
        match moveId sourceIndex d (map shot_id shots) with
        | Some shotIds => reorderShots sceneId shotIds s
        | None =>
            match storyboardData s with
            | None => Ok s
            | Some sb =>
                match findScene sceneId (scenes sb) with
                | None => Ok s
                | Some _ => Throw (js "Shot with ID undefined not found")
                end
            end
        end
  | None => Ok s
  end.

End Sortable.

(** ** The image services ([FalImageService], [ImageGenerationService]) *)

Module ImageQueue.

Local Open Scope N_scope.

(** *** [encodeURIComponent]

    The characters left as they are: letters, digits and [- _ . ! ~ * ' ( )]. *)
Definition isUnreserved (c : N) : bool :=
  ((65 <=? c) && (c <=? 90)) || ((97 <=? c) && (c <=? 122))
  || ((48 <=? c) && (c <=? 57))
  || (c =? 45) || (c =? 95) || (c =? 46) || (c =? 33) || (c =? 126)
  || (c =? 42) || (c =? 39) || (c =? 40) || (c =? 41).

Definition hexDigit (d : N) : N := if d <? 10 then 48 + d else 55 + d.

(** [%XX] for one octet *)
Definition percent (octet : N) : jsstring := [37; hexDigit (octet / 16); hexDigit (octet mod 16)].

(** The UTF-8 octets of a code point *)
Definition utf8 (cp : N) : list N :=
  if cp <? 128 then [cp]
  else if cp <? 2048 then [192 + cp / 64; 128 + cp mod 64]
  else if cp <? 65536 then [224 + cp / 4096; 128 + (cp / 64) mod 64; 128 + cp mod 64]
  else [240 + cp / 262144; 128 + (cp / 4096) mod 64; 128 + (cp / 64) mod 64; 128 + cp mod 64].

Definition isHighSurrogate (c : N) : bool := (55296 <=? c) && (c <=? 56319).
Definition isLowSurrogate (c : N) : bool := (56320 <=? c) && (c <=? 57343).

(** [None] is the [URIError] that a surrogate without its partner raises. *)
Fixpoint encodeURIComponent (s : jsstring) : option jsstring :=
  match s with
  | [] => Some []
  | c :: s' =>
      if isUnreserved c then cons c <$> encodeURIComponent s'
      else if isLowSurrogate c then None
      else if isHighSurrogate c then
        match s' with
        | k :: s'' =>
            if isLowSurrogate k then
              app (flat_map percent (utf8 ((c - 55296) * 1024 + (k - 56320) + 65536)))
                <$> encodeURIComponent s''
            else None
        | [] => None
        end
      else app (flat_map percent (utf8 c)) <$> encodeURIComponent s'
  end.

(** The characters of an encoded component: the unreserved ones and [%]. *)
Definition isUrlSafe (c : N) : bool := isUnreserved c || (c =? 37).

(** A UTF-16 code unit *)
Definition isCodeUnit (c : N) : bool := c <? 65536.

Definition isSurrogate (c : N) : bool := isHighSurrogate c || isLowSurrogate c.

Local Close Scope N_scope.

Definition placeholderPrefix : jsstring := js "/placeholder.svg?height=450&width=800&query=".

(** *** The queue

    An entry of [requestQueue] holds the options and the [resolve] callback
    of the promise that [generateImage] returned; the promise is named by a
    ticket.  Of the options only the prompt is read. *)
Record Entry := mkEntry { ticket : nat; prompt : jsstring }.

Record Service := mkService {
  apiKey : jsstring;
  requestQueue : list Entry;
  isProcessing : bool
}.

(** The service within the event loop:
    - [awaiting]: the activations of [processQueue] suspended at
      [await this.call...API(options)], each with its entry;
    - [timers]: the [setTimeout(() => this.processQueue(), 100)] callbacks
      not fired yet;
    - [resolved]: the promises resolved so far, oldest first, each with its
      URL. *)
Record Loop := mkLoop {
  service : Service;
  awaiting : list Entry;
  timers : nat;
  resolved : list (nat * jsstring)
}.

Definition start (key : jsstring) : Loop :=
  mkLoop (mkService key [] false) [] 0 [].

(** [resolve(url)] when the URL could be built; a [URIError] from
    [generatePlaceholderImage] reaches the outer [catch], which logs it,
    and the promise stays pending. *)
Definition resolveWith (t : nat) (url : option jsstring) (log : list (nat * jsstring))
  : list (nat * jsstring) :=
  match url with
  | Some u => log ++ [(t, u)]
  | None => log
  end.

(** The [finally] block: [this.isProcessing = false] and the timer. *)
Definition finish (l : Loop) (log : list (nat * jsstring)) : Loop :=
  mkLoop (mkService (apiKey (service l)) (requestQueue (service l)) false)
         (awaiting l) (S (timers l)) log.

(** [FalImageService] *)
Module Fal.

Definition generatePlaceholderImage (p : jsstring) : option jsstring :=
  query ← encodeURIComponent (substring0 100 p);
  Some (placeholderPrefix ++ query).

Definition processQueue (l : Loop) : Loop :=
  if isProcessing (service l) then l
  else
    match requestQueue (service l) with
    | [] => l
    | e :: rest =>
        let l1 := mkLoop (mkService (apiKey (service l)) rest true)
                         (awaiting l) (timers l) (resolved l) in
        finish l1 (resolveWith (ticket e) (generatePlaceholderImage (prompt e)) (resolved l))
    end.

End Fal.

(** [ImageGenerationService] *)
Module Generic.

Definition generatePlaceholderImage (p : jsstring) : option jsstring :=
  query ← encodeURIComponent p;
  Some (placeholderPrefix ++ query).

Definition processQueue (l : Loop) : Loop :=
  if isProcessing (service l) then l
  else
    match requestQueue (service l) with
    | [] => l
    | e :: rest =>
        let l1 := mkLoop (mkService (apiKey (service l)) rest true)
                         (awaiting l) (timers l) (resolved l) in
        if truthy (apiKey (service l)) then
          mkLoop (service l1) (awaiting l ++ [e]) (timers l) (resolved l)
        else
          finish l1 (resolveWith (ticket e) (generatePlaceholderImage (prompt e)) (resolved l))
    end.

(** The rest of [processQueue] once [call...API] has returned: the three
    calls wait and then return [generatePlaceholderImage(options.prompt)];
    when that throws, the inner [catch] calls it again. *)
Definition resume (e : Entry) (l : Loop) : Loop :=
  finish l (resolveWith (ticket e) (generatePlaceholderImage (prompt e)) (resolved l)).

End Generic.

Inductive Adapter := FalAdapter | GenericAdapter.

Definition processQueue (a : Adapter) : Loop -> Loop :=
  match a with
  | FalAdapter => Fal.processQueue
  | GenericAdapter => Generic.processQueue
  end.

(** [generateImage(options)]: the entry is pushed and [processQueue] is
    called. *)
Definition generateImage (a : Adapter) (t : nat) (p : jsstring) (l : Loop) : Loop :=
  processQueue a
    (mkLoop (mkService (apiKey (service l))
                       (requestQueue (service l) ++ [mkEntry t p])
                       (isProcessing (service l)))
            (awaiting l) (timers l) (resolved l)).

(** The tasks that the event loop runs, one at a time and each to its end. *)
Inductive Task :=
  | Call (t : nat) (p : jsstring)
  | TimerFires
  | ApiReturns (k : nat).

(** [None]: the task is not there to run (no timer pending, no suspended
    activation at position [k]). *)
Definition run (a : Adapter) (task : Task) (l : Loop) : option Loop :=
  match task with
  | Call t p => Some (generateImage a t p l)
  | TimerFires =>
      match timers l with
      | 0 => None
      | S n => Some (processQueue a (mkLoop (service l) (awaiting l) n (resolved l)))
      end
  | ApiReturns k =>
      match awaiting l !! k with
      | None => None
      | Some e =>
          Some (Generic.resume e
                  (mkLoop (service l) (delete k (awaiting l)) (timers l) (resolved l)))
      end
  end.

Fixpoint runAll (a : Adapter) (tasks : list Task) (l : Loop) : option Loop :=
  match tasks with
  | [] => Some l
  | task :: tasks' =>
      match run a task l with
      | None => None
      | Some l' => runAll a tasks' l'
      end
  end.

(** The entries submitted by a list of tasks, in order. *)
Definition submitted (tasks : list Task) : list Entry :=
  flat_map (fun task => match task with Call t p => [mkEntry t p] | _ => [] end) tasks.

Definition placeholderFor (a : Adapter) (p : jsstring) : option jsstring :=
  match a with
  | FalAdapter => Fal.generatePlaceholderImage p
  | GenericAdapter => Generic.generatePlaceholderImage p
  end.

(** What the promise of an entry is resolved with, when it is resolved. *)
Definition resolution (a : Adapter) (e : Entry) : option (nat * jsstring) :=
  pair (ticket e) <$> placeholderFor a (prompt e).

(** The state of the queue between two tasks, for the submissions [subs]:
    the worker is done with the first [k] of them, in order, and the others
    wait in order, the one being processed first; at most one is being
    processed, and [isProcessing] tells whether one is; a waiting entry has
    a worker or a timer to pick it up. *)
Record QueueInvariant (a : Adapter) (subs : list Entry) (l : Loop) : Prop := {
  inv_fifo :
    exists k, k <= length subs
              /\ resolved l = omap (resolution a) (take k subs)
              /\ awaiting l ++ requestQueue (service l) = drop k subs;
  inv_single : length (awaiting l) <= 1;
  inv_flag : isProcessing (service l) = bool_decide (awaiting l <> []);
  inv_timer : requestQueue (service l) <> [] -> awaiting l <> [] \/ 0 < timers l;
  inv_adapter : a = FalAdapter -> awaiting l = []
}.

(** A bound on the rounds the worker needs to finish. *)
Definition workLeft (l : Loop) : nat :=
  3 * length (requestQueue (service l)) + 2 * length (awaiting l) + timers l.

(** One round of the worker alone: a suspended call returns if there is one,
    else a pending timer fires. *)
Definition tick (a : Adapter) (l : Loop) : Loop :=
  match awaiting l with
  | _ :: _ => default l (run a (ApiReturns 0) l)
  | [] => default l (run a TimerFires l)
  end.

Fixpoint drain (a : Adapter) (fuel : nat) (l : Loop) : Loop :=
  match fuel with
  | 0 => l
  | S n => drain a n (tick a l)
  end.

End ImageQueue.

(** ** Print preview pagination (the page-generation effect of [PrintPreview]) *)

Module PrintPreview.
Import Doc.

Inductive Layout := grid | list_layout | detailed.

(** [PrintSettings], as far as the pagination reads it. *)
Record PrintSettings := mkPrintSettings {
  layout : Layout;
  shotsPerPage : nat
}.

Record PageShot := mkPageShot {
  shotId : jsstring;
  page_sceneId : jsstring;
  position : json;
  scale : json
}.

Record SceneHeader := mkSceneHeader {
  header_sceneId : jsstring;
  header_position : json
}.

Record PrintPreviewPage := mkPage {
  pageNumber : nat;
  page_shots : list PageShot;
  sceneHeader : option SceneHeader
}.

(** The four variables of the effect. *)
Record Cursor := mkCursor {
  pages : list PrintPreviewPage;
  currentPageShots : list PageShot;
  currentPageNumber : nat;
  currentSceneHeader : option SceneHeader
}.

(** [{ x: 0, y: 0 }] *)
Definition origin : json := JObj [(js "x", JNum 0 0); (js "y", JNum 0 0)].

(** [shot[key] || d] *)
Definition propOr (shot : ShotInfo) (key : string) (d : json) : json :=
  match shot_props shot !! js key with
  | Some v => if jsTruthy v then v else d
  | None => d
  end.

(** [const shotsPerPage = layout === "detailed" ? 1 : printSettings.shotsPerPage] *)
Definition perPage (settings : PrintSettings) : nat :=
  match layout settings with
  | detailed => 1
  | _ => shotsPerPage settings
  end.

(** [pages.push({...}); currentPageShots = []; currentPageNumber++;
     currentSceneHeader = undefined] *)
Definition pushPage (c : Cursor) : Cursor :=
  {| pages := pages c ++ [mkPage (currentPageNumber c) (currentPageShots c)
                                 (currentSceneHeader c)];
     currentPageShots := [];
     currentPageNumber := S (currentPageNumber c);
     currentSceneHeader := None |}.

(** The entry pushed for a shot *)
Definition pageShotOf (scene : SceneInfo) (shot : ShotInfo) : PageShot :=
  mkPageShot (shot_id shot) (scene_id scene)
             (propOr shot "printPosition" origin)
             (propOr shot "printScale" (JNum 1 0)).

(** The body of [scene.shots.forEach] *)
Definition placeShot (limit : nat) (scene : SceneInfo) (c : Cursor) (shot : ShotInfo) : Cursor :=
  let c1 :=
    {| pages := pages c;
       currentPageShots := currentPageShots c ++ [pageShotOf scene shot];
       currentPageNumber := currentPageNumber c;
       currentSceneHeader := currentSceneHeader c |} in
  if limit <=? length (currentPageShots c1) then pushPage c1 else c1.

(** [scene.printPageBreakBefore && currentPageShots.length > 0] *)
Definition breakBefore (scene : SceneInfo) (c : Cursor) : bool :=
  default false (printPageBreakBefore scene) && (0 <? length (currentPageShots c)).

(** The body of [storyboardData.scenes.forEach] *)
Definition placeScene (limit : nat) (c : Cursor) (scene : SceneInfo) : Cursor :=
  let c1 := if breakBefore scene c then pushPage c else c in
  let c2 :=
    {| pages := pages c1;
       currentPageShots := currentPageShots c1;
       currentPageNumber := currentPageNumber c1;
       currentSceneHeader := Some (mkSceneHeader (scene_id scene) origin) |} in
  foldl (placeShot limit scene) c2 (shots scene).

Definition startCursor : Cursor := mkCursor [] [] 1 None.

(** [if (currentPageShots.length > 0) pages.push({...})] *)
Definition lastPage (c : Cursor) : list PrintPreviewPage :=
  if 0 <? length (currentPageShots c) then pages (pushPage c) else pages c.

Definition previewPages (settings : PrintSettings) (sb : StoryboardData)
  : list PrintPreviewPage :=
  lastPage (foldl (placeScene (perPage settings)) startCursor (scenes sb)).

(** [S]: the shots of the storyboard *)
Definition totalShots (scs : list SceneInfo) : nat :=
  sum_list (map (fun sc => length (shots sc)) scs).

(** The scenes whose flag closes a page that is begun and not yet full. *)
Fixpoint forcedBreaks (limit : nat) (scs : list SceneInfo) (c : Cursor) : nat :=
  match scs with
  | [] => 0
  | sc :: rest =>
      (if breakBefore sc c then 1 else 0) + forcedBreaks limit rest (placeScene limit c sc)
  end.


(** The shots of the scenes as page entries, in document order. *)
Definition allPageShots (scs : list SceneInfo) : list PageShot :=
  flat_map (fun sc => map (pageShotOf sc) (shots sc)) scs.

(** The pages that are not full. *)
Definition shortPages (limit : nat) (pgs : list PrintPreviewPage) : nat :=
  length (filter (fun pg => length (page_shots pg) < limit) pgs).

(** The state of the loop after the entries [placed], with [breaks] pages
    closed by a flag. *)
Record PagesInvariant (limit : nat) (c : Cursor) (placed : list PageShot) (breaks : nat)
  : Prop := {
  inv_content : concat (map page_shots (pages c)) ++ currentPageShots c = placed;
  inv_pages : Forall (fun pg => 1 <= length (page_shots pg) <= limit) (pages c);
  inv_current : length (currentPageShots c) < limit;
  inv_short : shortPages limit (pages c) <= breaks;
  inv_numbers : map pageNumber (pages c) = seq 1 (length (pages c));
  inv_next : currentPageNumber c = S (length (pages c))
}.

(** *** Paging and zooming

    The state cells of the component that the toolbar reads and writes. *)
Record View := mkView {
  view_previewPages : list PrintPreviewPage;
  currentPage : nat;
  totalPages : nat;
  zoomLevel : nat
}.

(** The cells as [useState] initialises them. *)
Definition initialView : View := mkView [] 1 1 100.

(** The end of the page-generation effect:
    [setPreviewPages(pages); setTotalPages(pages.length); setCurrentPage(1)] *)
Definition pagesGenerated (settings : PrintSettings) (sb : StoryboardData) (v : View) : View :=
  let pgs := previewPages settings sb in
  mkView pgs 1 (length pgs) (zoomLevel v).

Definition goToNextPage (v : View) : View :=
  if currentPage v <? totalPages v
  then mkView (view_previewPages v) (currentPage v + 1) (totalPages v) (zoomLevel v)
  else v.

Definition goToPrevPage (v : View) : View :=
  if 1 <? currentPage v
  then mkView (view_previewPages v) (currentPage v - 1) (totalPages v) (zoomLevel v)
  else v.

(** [Math.min(zoomLevel + 10, 200)] *)
Definition zoomIn (v : View) : View :=
  mkView (view_previewPages v) (currentPage v) (totalPages v) ((zoomLevel v + 10) `min` 200).

(** [Math.max(zoomLevel - 10, 50)]; below 10 the difference is negative and
    the maximum is 50, as with the subtraction of [nat]. *)
Definition zoomOut (v : View) : View :=
  mkView (view_previewPages v) (currentPage v) (totalPages v) ((zoomLevel v - 10) `max` 50).

Definition resetZoom (v : View) : View :=
  mkView (view_previewPages v) (currentPage v) (totalPages v) 100.

(** What the user and the provider can do to the view: the toolbar
    buttons, and a change of the storyboard or of the layout settings, which
    makes the effect run again. *)
Inductive ViewEvent :=
  | NextPage | PrevPage | ZoomIn | ZoomOut | ResetZoom
  | Regenerated (settings : PrintSettings) (sb : StoryboardData).

Definition handle (v : View) (e : ViewEvent) : View :=
  match e with
  | NextPage => goToNextPage v
  | PrevPage => goToPrevPage v
  | ZoomIn => zoomIn v
  | ZoomOut => zoomOut v
  | ResetZoom => resetZoom v
  | Regenerated settings sb => pagesGenerated settings sb v
  end.

End PrintPreview.

(** ** File names for exports ([ExportUtils]) *)

Module ExportUtils.

(** [s.replace(/\s+/g, "_")]: every maximal run of white space becomes one
    underscore.  [inrun] tells that the previous character was white
    space. *)
Fixpoint replaceSpaceRuns (s : jsstring) (inrun : bool) : jsstring :=
  match s with
  | [] => []
  | c :: s' =>
      if isWhiteSpace c then
        if inrun then replaceSpaceRuns s' true else 95%N :: replaceSpaceRuns s' true
      else c :: replaceSpaceRuns s' false
  end.

(** The class [[\w\-.]] *)
Definition isFilenameChar (c : N) : bool := isWord c || (c =? 45)%N || (c =? 46)%N.

(** [s.replace(/_{2,}/g, "_")]: of a run of underscores the last one is
    kept. *)
Fixpoint collapseUnderscores (s : jsstring) : jsstring :=
  match s with
  | [] => []
  | c :: s' =>
      match s' with
      | d :: _ =>
          if (c =? 95)%N && (d =? 95)%N then collapseUnderscores s'
          else c :: collapseUnderscores s'
      | [] => [c]
      end
  end.

Definition sanitizeFilename (filename : jsstring) : jsstring :=
  collapseUnderscores
    (filter (fun c => isFilenameChar c = true) (replaceSpaceRuns filename false)).

(** No underscore is followed by another one. *)
Fixpoint noDoubleUnderscore (s : jsstring) : Prop :=
  match s with
  | [] => True
  | c :: s' =>
      match s' with
      | d :: _ => ~ (c = 95%N /\ d = 95%N) /\ noDoubleUnderscore s'
      | [] => True
      end
  end.

End ExportUtils.

(** ** Escaping for the HTML export ([HTMLExportService]) *)

Module HtmlExport.

(** [s.replace(/c/g, r)] for a pattern of one character *)
Definition replaceAll (c : N) (r : jsstring) (s : jsstring) : jsstring :=
  flat_map (fun x => if (x =? c)%N then r else [x]) s.

(** [escapeHtml]: the ampersand first, then [<], [>], the double quote
    (code unit 34) and the apostrophe. *)
Definition escapeHtml (text : jsstring) : jsstring :=
  if truthy text then
    replaceAll 39 (js "&#039;")
      (replaceAll 34 (js "&quot;")
         (replaceAll 62 (js "&gt;")
            (replaceAll 60 (js "&lt;")
               (replaceAll 38 (js "&amp;") text))))
  else [].

(** The entity that stands for a character, or the character itself. *)
Definition entityOf (c : N) : jsstring :=
  if (c =? 38)%N then js "&amp;"
  else if (c =? 60)%N then js "&lt;"
  else if (c =? 62)%N then js "&gt;"
  else if (c =? 34)%N then js "&quot;"
  else if (c =? 39)%N then js "&#039;"
  else [c].

End HtmlExport.

(** ** Sample documents *)

Module Sample.
Import Doc.

Definition shotX : ShotInfo := mkShot (js "x") (js "a") [] (js "X") ∅.
Definition shotY : ShotInfo := mkShot (js "y") (js "a") [] (js "Y") ∅.
Definition shotZ : ShotInfo := mkShot (js "z") (js "b") [] (js "Z") ∅.

Definition sceneA : SceneInfo := mkScene (js "a") (js "A") [] [shotX; shotY] None None.
Definition sceneB : SceneInfo := mkScene (js "b") (js "B") [] [shotZ] None None.

Definition boardOf (scs : list SceneInfo) : StoryboardData :=
  mkStoryboard (js "p1") (js "T") None None (js "2024-01-01") (js "1.0")
               (js "cinematic") (js "16:9") scs None [].

Definition board : StoryboardData := boardOf [sceneA; sceneB].

Definition style0 : StyleSettings :=
  mkStyle (js "cinematic") (js "16:9") (js "standard") (Some []) None None (Some ∅).

Definition stateOf (sb : StoryboardData) : ProviderState :=
  mkProvider [] (Some sb) style0 [] ∅ true [] 0 [].

Definition state0 : ProviderState := stateOf board.

(** A project in which the description of a character was typed in after
    the character was added: [characterDescriptions] has the text,
    [styleSettings.characterDescriptions] still the empty one. *)
Definition describedState : ProviderState :=
  mkProvider (js "Alice ran.") (Some board)
    (mkStyle (js "cinematic") (js "16:9") (js "standard") (Some []) None None
             (Some {[ js "Alice" := [] ]}))
    [js "Alice"] {[ js "Alice" := js "tall" ]} false [] 0 [].

(** A stored project whose storyboard has no [annotations] property. *)
Definition olderProject : SavedProject :=
  mkSaved (Some (withAnnotations board None)) [] style0 [] ∅ None None None.

(** A storyboard whose only scene has a single shot, open in the viewer. *)
Definition soleScene : SceneInfo := mkScene (js "a") (js "A") [] [shotX] None None.
Definition soleBoard : StoryboardData := boardOf [soleScene].
Definition soleApp : Viewer.App :=
  Viewer.mkApp (stateOf soleBoard)
               (Viewer.mkViewer None (Viewer.mkCurrentShot 0 0) 0).

(** A prompt of 99 letters followed by U+1F600, a surrogate pair that
    [substring(0, 100)] cuts in two; and a prompt of 101 letters. *)
Definition cutPairPrompt : jsstring := repeat 97%N 99 ++ [55357%N; 56832%N].
Definition longPrompt : jsstring := repeat 97%N 101.

(** Two scenes; the second has two shots and asks for a page break. *)
Definition shotW : ShotInfo := mkShot (js "w") (js "b") [] (js "W") ∅.
Definition flaggedScene : SceneInfo :=
  mkScene (js "b") (js "B") [] [shotZ; shotW] None (Some true).
Definition flaggedBoard : StoryboardData := boardOf [soleScene; flaggedScene].
Definition twoPerPage : PrintPreview.PrintSettings :=
  PrintPreview.mkPrintSettings PrintPreview.grid 2.

(** [{ sceneId: "b" }] *)
Definition retarget : PartialShot := mkPartialShot None (Some (js "b")) None None ∅.

Definition uuids0 : Uuids := mkUuids (fun n => js "uuid-" ++ repeat 49%N (S n)) 0.



(** A text note on shot [x], and a template style. *)
Definition noteOnX : json :=
  JObj [(js "id", JStr (js "n1")); (js "type", JStr (js "text"));
        (js "sceneId", JStr (js "a")); (js "shotId", JStr (js "x"))].
Definition noteOnSceneA : json :=
  JObj [(js "id", JStr (js "n2")); (js "type", JStr (js "sticky"));
        (js "sceneId", JStr (js "a"))].
Definition plainTemplate : json :=
  JObj [(js "id", JStr (js "t1")); (js "name", JStr (js "Plain"))].

(** The two-scene board open in the viewer, the cursor on shot [y]. *)
Definition viewerApp : Viewer.App :=
  Viewer.mkApp state0 (Viewer.mkViewer None (Viewer.mkCurrentShot 0 1) 0).

(** A project with two saved versions, the second one current. *)
Definition versionNamed (name : string) (sb : StoryboardData) : StoryboardVersion :=
  mkVersion (js name) (js name) None (js "2024-01-01T00:00:00.000Z") sb [] style0.

Definition versionedState : ProviderState :=
  mkProvider [] (Some board) style0 [] ∅ true
    [versionNamed "v1" soleBoard; versionNamed "v2" board] 1 [].

End Sample.
(** * Verified properties *)

(** A decidable closed proposition, by evaluation. *)
Ltac by_computation := apply (bool_decide_unpack _); vm_compute; exact I.

(** ** Story segmentation *)

Section GeneratorFacts.
Import Generator.

(** *** Facts about splitting and the loops *)

Lemma splitRuns_nonempty sep s b : splitRuns sep s b <> [].
Proof.
  revert b; induction s as [|c s IH]; intros b; simpl; [done|].
  destruct (sep c).
  - destruct b; [apply IH | done].
  - destruct (splitRuns sep s false); done.
Qed.

(** A paragraph is a piece of the text between newlines that has a
    character other than white space. *)
Lemma paragraphs_spec (storyText p : jsstring) :
  p ∈ paragraphs storyText <-> p ∈ splitOn isNewline storyText /\ nonBlank p = true.
Proof. unfold paragraphs. rewrite list_elem_of_filter. tauto. Qed.

(** No piece contains a separator. *)
Lemma splitRuns_no_sep sep s b p :
  p ∈ splitRuns sep s b -> forallb (fun c => negb (sep c)) p = true.
Proof.
  revert b p; induction s as [|c s IH]; intros b p; simpl.
  - intros ->%list_elem_of_singleton. done.
  - destruct (sep c) eqn:Hc.
    + destruct b; [apply IH|].
      intros [->|H]%elem_of_cons; [done | by eapply IH].
    + destruct (splitRuns sep s false) as [|q qs] eqn:Hq.
      * intros ->%list_elem_of_singleton. simpl. by rewrite Hc.
      * intros [->|H]%elem_of_cons.
        -- simpl. rewrite Hc. simpl. apply (IH false). rewrite Hq. left.
        -- apply (IH false). rewrite Hq. by right.
Qed.

(** The pieces, put end to end, are the text without its separators. *)
Lemma splitRuns_concat sep s b :
  concat (splitRuns sep s b) = List.filter (fun c => negb (sep c)) s.
Proof.
  revert b; induction s as [|c s IH]; intros b; simpl; [done|].
  destruct (sep c) eqn:Hc; simpl.
  - destruct b; simpl; apply IH.
  - specialize (IH false).
    destruct (splitRuns sep s false) as [|q qs]; simpl in *; by rewrite <- IH.
Qed.

Lemma forRange_length {A} (body : nat -> Rand A) count start r :
  length (forRange count start body r).1 = count.
Proof.
  revert start r; induction count as [|n IH]; intros start r; simpl; [done|].
  unfold mbind, rand_bind. destruct (body start r) as [x r1].
  specialize (IH (S start) r1).
  destruct (forRange n (S start) body r1) as [xs r2]. simpl in *. by rewrite IH.
Qed.

Lemma forRange_lookup {A} (body : nat -> Rand A) count start r i :
  i < count ->
  exists r', (forRange count start body r).1 !! i = Some (body (start + i) r').1.
Proof.
  revert start r i; induction count as [|n IH]; intros start r i Hi; [lia|].
  simpl. unfold mbind, rand_bind. destruct (body start r) as [x r1] eqn:Hx.
  destruct i as [|i].
  - exists r. destruct (forRange n (S start) body r1). simpl.
    by rewrite Nat.add_0_r, Hx.
  - destruct (IH (S start) r1 i ltac:(lia)) as [r' Hr'].
    exists r'. destruct (forRange n (S start) body r1). simpl in *.
    by rewrite Hr', Nat.add_succ_r.
Qed.

Lemma makeScene_description paragraph index r :
  as_description (makeScene paragraph index r).1 = paragraph.
Proof.
  unfold makeScene, mbind, rand_bind, randomBelow.
  destruct (forRange _ _ _ _). done.
Qed.

Lemma makeScene_shot_count paragraph index r :
  length (as_shots (makeScene paragraph index r).1) = drawnShotCount r.
Proof.
  unfold makeScene, drawnShotCount, mbind, rand_bind, randomBelow. simpl.
  pose proof (forRange_length (makeShot paragraph (draws r (consumed r) mod 3 + 2))
                (draws r (consumed r) mod 3 + 2) 0
                (mkRng (draws r) (S (consumed r)))) as H.
  destruct (forRange _ _ _ _). done.
Qed.

Lemma drawnShotCount_range r : 2 <= drawnShotCount r <= 4.
Proof.
  unfold drawnShotCount, randomBelow. simpl.
  pose proof (Nat.mod_upper_bound (draws r (consumed r)) 3). lia.
Qed.

Lemma mapIndexed_fst_spec {A B} (body : A -> nat -> Rand B) (P : A -> B -> Prop) :
  (forall x i r, P x (body x i r).1) ->
  forall l index r, Forall2 P l (mapIndexed body l index r).1.
Proof.
  intros HP l; induction l as [|x l IH]; intros index r; simpl; [constructor|].
  unfold mbind, rand_bind. pose proof (HP x index r) as Hx.
  destruct (body x index r) as [y r1].
  specialize (IH (S index) r1). destruct (mapIndexed body l (S index) r1).
  simpl in *. by constructor.
Qed.

Lemma analyzeStoryBasic_scenes (storyText : jsstring) (r : Rng) :
  an_scenes (analyzeStoryBasic storyText r).1
  = (mapIndexed makeScene (paragraphs storyText) 0 r).1.
Proof.
  unfold analyzeStoryBasic, mbind, rand_bind.
  by destruct (mapIndexed makeScene (paragraphs storyText) 0 r).
Qed.

(** One scene for each piece that [paragraphs] keeps, in order, and 2 to 4
    shots in each. *)
Lemma analyzeStoryBasic_scene_count (storyText : jsstring) (r : Rng) :
  length (an_scenes (analyzeStoryBasic storyText r).1) = length (paragraphs storyText)
  /\ map as_description (an_scenes (analyzeStoryBasic storyText r).1) = paragraphs storyText
  /\ Forall (fun sc => 2 <= length (as_shots sc) <= 4)
            (an_scenes (analyzeStoryBasic storyText r).1).
Proof.
  rewrite analyzeStoryBasic_scenes.
  pose proof (mapIndexed_fst_spec makeScene
    (fun p sc => as_description sc = p /\ 2 <= length (as_shots sc) <= 4)) as H.
  specialize (H ltac:(intros x i r0; split;
    [apply makeScene_description
    | rewrite makeScene_shot_count; apply drawnShotCount_range])
    (paragraphs storyText) 0 r).
  revert H. generalize (mapIndexed makeScene (paragraphs storyText) 0 r).1.
  generalize (paragraphs storyText). intros ps scs H.
  induction H as [|p sc ps scs [Hd Hs] _ (IH1 & IH2 & IH3)]; [by repeat split|].
  simpl. split; [by rewrite IH1|]. split; [by rewrite Hd, IH2|]. by constructor.
Qed.

(** *** The pieces that become scenes are the lines that are not blank

    [split(/\n+/)] cuts at every newline: a run of newlines leaves no empty
    piece between them, and an empty piece is blank anyway. *)
Lemma splitRuns_lines (s : jsstring) :
  (exists p ps qs,
     splitRuns isNewline s false = p :: ps /\ splitAt 10 s = p :: qs
     /\ filter (fun l => nonBlank l = true) ps = filter (fun l => nonBlank l = true) qs)
  /\ filter (fun l => nonBlank l = true) (splitRuns isNewline s true)
     = filter (fun l => nonBlank l = true) (splitAt 10 s).
Proof.
  induction s as [|c s [(p & ps & qs & Hruns & Hat & Htail) Hrun]]; simpl.
  - split; [by exists [], [], [] | done].
  - change (isNewline c) with (c =? 10)%N. destruct (N.eqb_spec c 10) as [->|Hc].
    + split; [by exists [], (splitRuns isNewline s true), (splitAt 10 s)|].
      by rewrite (filter_cons_False _ []) by done.
    + rewrite Hruns, Hat. split; [by exists (c :: p), ps, qs|].
      destruct (decide (nonBlank (c :: p) = true)).
      * rewrite !(filter_cons_True _ (c :: p)) by done. by rewrite Htail.
      * rewrite !(filter_cons_False _ (c :: p)) by done. exact Htail.
Qed.

Lemma paragraphs_lines (storyText : jsstring) :
  paragraphs storyText = filter (fun l => nonBlank l = true) (linesOf storyText).
Proof.
  unfold paragraphs, splitOn, linesOf.
  destruct (splitRuns_lines storyText) as [(p & ps & qs & -> & -> & Htail) _].
  destruct (decide (nonBlank p = true)).
  - rewrite !(filter_cons_True _ p) by done. by rewrite Htail.
  - rewrite !(filter_cons_False _ p) by done. exact Htail.
Qed.

(** *** The sentence windows of the shots *)

Lemma ceilDiv_mul_ge n d : 0 < d -> n <= d * ceilDiv n d.
Proof.
  intros Hd. unfold ceilDiv.
  pose proof (Nat.div_mod (n + d - 1) d ltac:(lia)) as H.
  pose proof (Nat.mod_upper_bound (n + d - 1) d ltac:(lia)). lia.
Qed.

Lemma startSentence_0 n c : startSentence n c 0 = 0.
Proof.
  unfold startSentence. rewrite Nat.mul_0_r. destruct c; [done|].
  by apply Nat.div_small; lia.
Qed.

Lemma startSentence_full n c : 0 < c -> startSentence n c c = n.
Proof. intros Hc. unfold startSentence. apply Nat.div_mul. lia. Qed.

Lemma startSentence_mono n c i : startSentence n c i <= startSentence n c (S i).
Proof.
  unfold startSentence. apply Nat.Div0.div_le_mono. lia.
Qed.

Lemma startSentence_le n c i : 0 < c -> i <= c -> startSentence n c i <= n.
Proof.
  intros Hc Hi. unfold startSentence.
  apply Nat.Div0.div_le_upper_bound. nia.
Qed.

(** The next window starts no later than the current one ends. *)
Lemma startSentence_next_le_end n c i :
  0 < c -> S i <= c -> startSentence n c (S i) <= endSentence n c i.
Proof.
  intros Hc Hi. unfold endSentence. apply Nat.min_glb.
  - unfold startSentence.
    pose proof (ceilDiv_mul_ge n c Hc) as Hceil.
    pose proof (Nat.div_mod (n * i) c ltac:(lia)) as Hq.
    pose proof (Nat.mod_upper_bound (n * i) c ltac:(lia)) as Hr.
    assert (n * S i < c * S (n * i / c + ceilDiv n c)) as Hlt by nia.
    apply Nat.Div0.div_lt_upper_bound in Hlt. lia.
  - by apply startSentence_le.
Qed.

(** Every index below the start of window [k] lies in an earlier window. *)
Lemma windows_cover_below n c k j :
  0 < c -> k <= c -> j < startSentence n c k ->
  exists i, i < k /\ startSentence n c i <= j < endSentence n c i.
Proof.
  intros Hc. induction k as [|k IH]; intros Hk Hj.
  - rewrite startSentence_0 in Hj. lia.
  - destruct (decide (j < startSentence n c k)) as [Hlt|Hge].
    + destruct (IH ltac:(lia) Hlt) as (i & Hi & Hr). exists i. split; [lia | done].
    + exists k. split; [lia|]. split; [lia|].
      pose proof (startSentence_next_le_end n c k Hc Hk). lia.
Qed.

Lemma windows_cover n c j :
  0 < c -> j < n ->
  exists i, i < c /\ startSentence n c i <= j < endSentence n c i.
Proof.
  intros Hc Hj. apply (windows_cover_below n c c j Hc); [lia|].
  by rewrite startSentence_full.
Qed.

Lemma slice_lookup {A} (l : list A) start end_ j x :
  start <= j < end_ -> l !! j = Some x -> x ∈ slice start end_ l.
Proof.
  intros [H1 H2] Hl. unfold slice. apply list_elem_of_lookup.
  exists (j - start). rewrite lookup_take_lt by lia.
  rewrite lookup_drop. by replace (start + (j - start)) with j by lia.
Qed.

Lemma sentences_length_le paragraph :
  length (sentences paragraph) <= sentenceCount paragraph.
Proof. unfold sentences, sentenceCount. apply length_filter. Qed.

Lemma makeShot_description paragraph shotCount i r :
  a_description (makeShot paragraph shotCount i r).1
  = shotDescription paragraph shotCount i.
Proof.
  unfold makeShot, mbind, rand_bind, pick, mbind, rand_bind, randomBelow, mret, rand_ret.
  by destruct (i =? 0), (i =? shotCount - 1).
Qed.

Lemma makeScene_shot_lookup paragraph index r i shot :
  as_shots (makeScene paragraph index r).1 !! i = Some shot ->
  a_description shot = shotDescription paragraph (drawnShotCount r) i.
Proof.
  intros H.
  assert (i < drawnShotCount r) as Hi.
  { rewrite <- (makeScene_shot_count paragraph index r). by eapply lookup_lt_Some. }
  revert H. unfold makeScene, drawnShotCount in *.
  unfold mbind at 1. unfold rand_bind at 1.
  destruct (randomBelow 3 r) as [k r1] eqn:Hk. simpl in Hi.
  unfold mbind, rand_bind at 1.
  destruct (forRange_lookup (makeShot paragraph (k + 2)) (k + 2) 0 r1 i Hi) as [r' Hr'].
  destruct (forRange (k + 2) 0 (makeShot paragraph (k + 2)) r1) as [shots r2].
  simpl in *. rewrite Hr'. intros [= <-]. apply makeShot_description.
Qed.

Lemma makeScene_covers paragraph index r :
  shotsCoverSentences (makeScene paragraph index r).1.
Proof.
  unfold shotsCoverSentences.
  rewrite makeScene_description, makeScene_shot_count.
  pose proof (drawnShotCount_range r) as Hc.
  split; [|split].
  - intros i shot H. by rewrite (makeScene_shot_lookup _ _ _ _ _ H).
  - intros j s Hs.
    assert (j < sentenceCount paragraph) as Hj.
    { apply lookup_lt_Some in Hs. pose proof (sentences_length_le paragraph). lia. }
    destruct (windows_cover _ (drawnShotCount r) j ltac:(lia) Hj) as (i & Hi & Hr).
    exists i. split; [done|]. split; [done|].
    unfold shotSentences. by eapply slice_lookup.
  - intros i Hi. split; [apply startSentence_mono|].
    apply startSentence_next_le_end; lia.
Qed.

(** C2 (amended): for every story text and every scene of the basic
    segmentation, each shot description is the join of one contiguous,
    order-preserving run of the paragraph's sentences; the runs cover every
    sentence at least once; consecutive runs start in order and leave no gap,
    but they may overlap. *)
Theorem analyzeStoryBasic_shots_cover_sentences (storyText : jsstring) (r : Rng) :
  Forall shotsCoverSentences (an_scenes (analyzeStoryBasic storyText r).1).
Proof.
  rewrite analyzeStoryBasic_scenes.
  pose proof (mapIndexed_fst_spec makeScene (fun _ sc => shotsCoverSentences sc)
                (fun x i r0 => makeScene_covers x i r0) (paragraphs storyText) 0 r) as H.
  revert H. generalize (mapIndexed makeScene (paragraphs storyText) 0 r).1.
  generalize (paragraphs storyText). intros ps scs H.
  induction H; by constructor.
Qed.


Example overlapStory_descriptions :
  map (fun sc => map a_description (as_shots sc))
      (an_scenes (analyzeStoryBasic overlapStory overlapRng).1)
  = [[js "Alice ran.  She fell."; js " She fell."]].
Proof. reflexivity. Qed.

(** C2 (counterexample): on ["Alice ran. She fell."] with two shots the
    sentence [" She fell"] is in both shots, so the shots do not partition
    the paragraph's sentences. *)
Lemma analyzeStoryBasic_shots_not_partition :
  ~ Forall shotsPartitionSentences (an_scenes (analyzeStoryBasic overlapStory overlapRng).1).
Proof.
  intros H. apply Forall_cons in H as [H _]. vm_compute in H. discriminate H.
Qed.

End GeneratorFacts.

(** ** The document operations *)

Section DocFacts.
Import Doc.

Lemma ensureAnnotations_loose (sb : StoryboardData) : ensureAnnotations (loose sb) = sb.
Proof. by destruct sb. Qed.

Lemma storyboardData_commitScenes sb scs s :
  storyboardData (commitScenes sb scs s) = Some (withScenes sb scs).
Proof. unfold commitScenes. simpl. by rewrite ensureAnnotations_loose. Qed.

(** *** [new Map(...)] and the lookups of the reorder operations *)

Section MapById.
Context {A : Type} (key : A -> jsstring).

Local Abbreviation put := (fun (m : gmap jsstring A) x => <[key x := x]> m).

Lemma foldl_put_lookup_Some items : forall (m : gmap jsstring A) k x,
  foldl put m items !! k = Some x ->
  (x ∈ items /\ key x = k) \/ m !! k = Some x.
Proof.
  induction items as [|y items IH]; intros m k x H; simpl in *; [by right|].
  destruct (IH _ _ _ H) as [[Hin Hk]|Hm].
  - left. split; [by right | done].
  - destruct (decide (key y = k)) as [Heq|Hne].
    + rewrite Heq, lookup_insert_eq in Hm. injection Hm as <-. left. split; [left | done].
    + rewrite lookup_insert_ne in Hm by done. by right.
Qed.

Lemma foldl_put_lookup_other items : forall (m : gmap jsstring A) k,
  k ∉ map key items -> foldl put m items !! k = m !! k.
Proof.
  induction items as [|y items IH]; intros m k H; simpl in *; [done|].
  rewrite not_elem_of_cons in H. destruct H as [Hne Hnin].
  rewrite IH by done. by rewrite lookup_insert_ne.
Qed.

Lemma foldl_put_lookup_present items : forall (m : gmap jsstring A) k,
  k ∈ map key items -> is_Some (foldl put m items !! k).
Proof.
  induction items as [|y items IH]; intros m k H; simpl in *.
  - by apply elem_of_nil in H.
  - destruct (decide (k ∈ map key items)) as [Hin|Hnin]; [by apply IH|].
    rewrite foldl_put_lookup_other by done.
    apply elem_of_cons in H as [->|H]; [|done].
    rewrite lookup_insert_eq. by eexists.
Qed.

Lemma foldl_put_lookup_NoDup items : forall (m : gmap jsstring A) x,
  NoDup (map key items) -> x ∈ items -> foldl put m items !! key x = Some x.
Proof.
  induction items as [|y items IH]; intros m x Hnd Hin; simpl in *.
  - by apply elem_of_nil in Hin.
  - apply NoDup_cons in Hnd as [Hy Hnd].
    apply elem_of_cons in Hin as [->|Hin]; [|by apply IH].
    rewrite foldl_put_lookup_other by done. by rewrite lookup_insert_eq.
Qed.

Lemma foldl_put_lookup_last items : forall (m : gmap jsstring A) k,
  foldl put m items !! k
  = match last (filter (fun x => key x = k) items) with
    | Some x => Some x
    | None => m !! k
    end.
Proof.
  induction items as [|y items IH]; intros m k; simpl; [done|].
  rewrite IH. destruct (decide (key y = k)) as [Heq|Hne].
  - rewrite filter_cons_True, last_cons by done.
    destruct (last (filter _ items)); [done|]. by rewrite Heq, lookup_insert_eq.
  - rewrite filter_cons_False by done. destruct (last (filter _ items)); [done|].
    by rewrite lookup_insert_ne.
Qed.

(** The map holds, for an id, the last element that carries it. *)
Lemma mapById_lookup_last items k :
  mapById key items !! k = last (filter (fun x => key x = k) items).
Proof.
  unfold mapById. rewrite foldl_put_lookup_last.
  by destruct (last (filter _ items)).
Qed.

Lemma mapById_lookup_Some items k x :
  mapById key items !! k = Some x -> x ∈ items /\ key x = k.
Proof.
  intros H. destruct (foldl_put_lookup_Some items ∅ k x H) as [?|Hm]; [done|].
  by rewrite lookup_empty in Hm.
Qed.


Lemma mapById_lookup_present items k :
  k ∈ map key items -> is_Some (mapById key items !! k).
Proof. apply foldl_put_lookup_present. Qed.

Lemma mapById_lookup_NoDup items x :
  NoDup (map key items) -> x ∈ items -> mapById key items !! key x = Some x.
Proof. apply foldl_put_lookup_NoDup. Qed.

Lemma lookupAll_Ok (kind : jsstring) (m : gmap jsstring A) ids xs :
  lookupAll kind m ids = Ok xs <-> Forall2 (fun id x => m !! id = Some x) ids xs.
Proof.
  revert xs; induction ids as [|id ids IH]; intros xs; simpl.
  - split; [intros [= <-]; constructor | by intros ->%Forall2_nil_inv_l].
  - destruct (m !! id) as [x|] eqn:Hid.
    + destruct (lookupAll kind m ids) as [ys|msg] eqn:Hall.
      * split.
        -- intros [= <-]. constructor; [done | by apply IH].
        -- intros (x' & ys' & Hx & Hys & ->)%Forall2_cons_inv_l.
           apply IH in Hys. by simplify_eq.
      * split; [done|].
        intros (x' & ys' & Hx & Hys & ->)%Forall2_cons_inv_l.
        apply IH in Hys. done.
    + split; [done|].
      intros (x' & ys' & Hx & Hys & ->)%Forall2_cons_inv_l. by rewrite Hid in Hx.
Qed.


Lemma lookupAll_total (kind : jsstring) (m : gmap jsstring A) ids :
  (forall id, id ∈ ids -> is_Some (m !! id)) -> exists xs, lookupAll kind m ids = Ok xs.
Proof.
  induction ids as [|id ids IH]; intros H; simpl; [by eexists|].
  destruct (H id ltac:(left)) as [x ->].
  destruct IH as [xs ->]; [intros k Hk; apply H; by right|]. by eexists.
Qed.

(** Looking up a list of ids gives elements with exactly those ids. *)
Lemma lookupAll_keys (kind : jsstring) items ids xs :
  lookupAll kind (mapById key items) ids = Ok xs -> map key xs = ids.
Proof.
  rewrite lookupAll_Ok. induction 1 as [|id x ids xs Hx _ IH]; simpl; [done|].
  apply mapById_lookup_Some in Hx as [_ ->]. by rewrite IH.
Qed.

Lemma lookupAll_elements (kind : jsstring) items ids xs x :
  lookupAll kind (mapById key items) ids = Ok xs -> x ∈ xs -> x ∈ items.
Proof.
  rewrite lookupAll_Ok. induction 1 as [|id y ids xs Hy _ IH]; intros Hin.
  - by apply elem_of_nil in Hin.
  - apply elem_of_cons in Hin as [->|Hin]; [|by apply IH].
    by apply mapById_lookup_Some in Hy as [? _].
Qed.

Lemma lookupAll_last (kind : jsstring) items ids xs :
  lookupAll kind (mapById key items) ids = Ok xs ->
  Forall2 (fun id x => last (filter (fun y => key y = id) items) = Some x) ids xs.
Proof.
  rewrite lookupAll_Ok. intros H. eapply Forall2_impl; [exact H|].
  intros id x Hx. by rewrite <- mapById_lookup_last.
Qed.

(** With distinct ids, looking up a permutation of the ids gives a
    permutation of the elements. *)
Lemma lookupAll_permutation (kind : jsstring) items ids xs :
  lookupAll kind (mapById key items) ids = Ok xs ->
  ids ≡ₚ map key items -> NoDup ids -> xs ≡ₚ items.
Proof.
  intros Hall Hperm Hnd.
  assert (NoDup (map key items)) as Hnd' by by rewrite <- Hperm.
  pose proof (lookupAll_keys _ _ _ _ Hall) as Hkeys.
  apply NoDup_Permutation.
  - apply (NoDup_fmap_1 key). change (NoDup (map key xs)). by rewrite Hkeys.
  - by apply (NoDup_fmap_1 key).
  - intros x. split; [by eapply lookupAll_elements|].
    intros Hin.
    assert (key x ∈ ids) as Hk.
    { rewrite Hperm. apply list_elem_of_In, in_map, list_elem_of_In, Hin. }
    apply lookupAll_Ok in Hall.
    apply list_elem_of_lookup in Hk as [i Hi].
    destruct (Forall2_lookup_l _ _ _ _ _ Hall Hi) as (y & Hy & Hlook).
    rewrite (mapById_lookup_NoDup items x Hnd' Hin) in Hlook.
    injection Hlook as ->. by eapply list_elem_of_lookup_2.
Qed.

End MapById.

Lemma findScene_Some sceneId scs sc :
  findScene sceneId scs = Some sc -> sc ∈ scs /\ scene_id sc = sceneId.
Proof.
  unfold findScene. intros H. apply find_some in H as [Hin Heq].
  split; [by apply list_elem_of_In | by apply bool_decide_eq_true in Heq].
Qed.

(** The first scene with the id is rewritten by a map that rewrites every
    scene with the id. *)
Lemma findScene_map sceneId (f : SceneInfo -> SceneInfo) scs sc :
  (forall x, scene_id (f x) = scene_id x) ->
  findScene sceneId scs = Some sc ->
  findScene sceneId
    (map (fun x => if decide (scene_id x = sceneId) then f x else x) scs) = Some (f sc).
Proof.
  intros Hf. unfold findScene. induction scs as [|x scs IH]; simpl; [done|].
  destruct (decide (scene_id x = sceneId)) as [Heq|Hne].
  - rewrite (bool_decide_eq_true_2 _ Heq).
    assert (scene_id (f x) = sceneId) as Hfx by by rewrite Hf.
    rewrite (bool_decide_eq_true_2 _ Hfx). by intros [= ->].
  - rewrite (bool_decide_eq_false_2 _ Hne). exact IH.
Qed.




(** C10 (amended): a [reorderShots] call whose ids are all ids of shots of
    the scene goes through.  In the stored document every scene with
    another id is as it was and every top-level field of the storyboard
    other than [scenes] is as it was.  A scene with the id keeps all its
    fields but [shots]; its shots become the list that holds, for each of
    the given ids in turn, the shot with that id (the last one, if several
    have it) of the scene that [find] returns for the id: they carry the
    given ids, and they are the old shots in another order when the given
    ids are a permutation of the ids of the shots and these are
    distinct. *)
Theorem reorderShots_frame (s : ProviderState) (sb : StoryboardData)
    (sceneId : jsstring) (sc : SceneInfo) (shotIds : list jsstring) :
  storyboardData s = Some sb ->
  findScene sceneId (scenes sb) = Some sc ->
  (forall id, id ∈ shotIds -> id ∈ map shot_id (shots sc)) ->
  exists s' sb',
    reorderShots sceneId shotIds s = Ok s'
    /\ storyboardData s' = Some sb'
    /\ sb_id sb' = sb_id sb /\ sb_title sb' = sb_title sb
    /\ author sb' = author sb /\ director sb' = director sb
    /\ date sb' = date sb /\ version sb' = version sb
    /\ style sb' = style sb /\ aspectRatio sb' = aspectRatio sb
    /\ templateStyle sb' = templateStyle sb /\ annotations sb' = annotations sb
    /\ Forall2 (fun old new =>
                  (scene_id old <> sceneId -> new = old)
                  /\ (scene_id old = sceneId ->
                      map shot_id (shots new) = shotIds
                      /\ Forall2 (fun id shot =>
                                    last (filter (fun x => shot_id x = id) (shots sc))
                                    = Some shot)
                                 shotIds (shots new)
                      /\ (shotIds ≡ₚ map shot_id (shots sc) -> NoDup shotIds ->
                          shots new ≡ₚ shots sc))
                  /\ scene_id new = scene_id old
                  /\ scene_title new = scene_title old
                  /\ scene_description new = scene_description old
                  /\ order new = order old
                  /\ printPageBreakBefore new = printPageBreakBefore old)
               (scenes sb) (scenes sb').
Proof.
  intros Hsb Hfind Hvalid. unfold reorderShots. rewrite Hsb, Hfind.
  destruct (lookupAll_total (js "Shot") (mapById shot_id (shots sc)) shotIds) as [xs Hxs].
  { intros id Hid. by apply mapById_lookup_present, Hvalid. }
  rewrite Hxs.
  pose proof (lookupAll_keys _ _ _ _ _ Hxs) as Hkeys.
  pose proof (lookupAll_last _ _ _ _ _ Hxs) as Hlast.
  pose proof (lookupAll_permutation _ _ _ _ _ Hxs) as Hperm.
  eexists _, _. split; [done|]. rewrite storyboardData_commitScenes.
  split; [done|]. simpl. repeat (split; [done|]).
  clear Hsb Hfind Hvalid Hxs. induction (scenes sb) as [|x scs IH]; simpl; constructor; [|done].
  destruct (decide (scene_id x = sceneId)); simpl; by repeat split.
Qed.

Lemma reorderShots_frame_witness :
  exists s' sb',
    reorderShots (js "a") [js "y"; js "x"] Sample.state0 = Ok s'
    /\ storyboardData s' = Some sb'
    /\ annotations sb' = annotations Sample.board
    /\ scenes sb' !! 1 = Some Sample.sceneB
    /\ (map shot_id <$> (shots <$> scenes sb' !! 0)) = Some [js "y"; js "x"].
Proof.
  destruct (reorderShots_frame Sample.state0 Sample.board (js "a") Sample.sceneA
              [js "y"; js "x"] eq_refl eq_refl) as (s' & sb' & H1 & H2 & H).
  - intros id Hid. simpl. apply elem_of_cons in Hid as [->|Hid]; [by_computation|].
    apply list_elem_of_singleton in Hid as ->. by_computation.
  - exists s', sb'. split; [exact H1|]. split; [exact H2|].
    destruct H as (_ & _ & _ & _ & _ & _ & _ & _ & _ & Hann & Hscenes).
    split; [exact Hann|].
    simpl in Hscenes. apply Forall2_cons_inv_l in Hscenes as (y & ys & Hy & Hrest & Heq).
    apply Forall2_cons_inv_l in Hrest as (z & zs & (Hz & _) & _ & Heq').
    rewrite Heq, Heq'. simpl. split.
    + f_equal. apply Hz. by_computation.
    + f_equal. apply Hy. reflexivity.
Defined.

(** C10 (counterexample): the empty list has no invalid id, and
    [reorderShots] with it leaves scene [a] without its two shots; with an
    id given twice it stores the shot twice. *)
Lemma reorderShots_empty_list_empties_scene :
  (forall id : jsstring, id ∈ [] -> id ∈ map shot_id (shots Sample.sceneA))
  /\ findScene (js "a") (scenes Sample.board) = Some Sample.sceneA
  /\ shots Sample.sceneA = [Sample.shotX; Sample.shotY]
  /\ (exists s',
        reorderShots (js "a") [] Sample.state0 = Ok s'
        /\ storyboardData s'
           = Some (Sample.boardOf [withShots Sample.sceneA []; Sample.sceneB]))
  /\ (exists s',
        reorderShots (js "a") [js "x"; js "x"] Sample.state0 = Ok s'
        /\ storyboardData s'
           = Some (Sample.boardOf
                     [withShots Sample.sceneA [Sample.shotX; Sample.shotX]; Sample.sceneB])).
Proof.
  split; [intros id Hid; by apply elem_of_nil in Hid|].
  split; [reflexivity|]. split; [reflexivity|]. split.
  - eexists. split; [reflexivity|]. reflexivity.
  - eexists. split; [vm_compute; reflexivity|]. vm_compute. reflexivity.
Qed.

End DocFacts.

(** ** The scene of a shot *)

Section SceneIdFacts.
Import Doc.

Local Abbreviation shotsNameScene sc := (Forall (fun sh => sceneId sh = scene_id sc) (shots sc)).

Lemma commitScenes_consistent sb scs s :
  Forall (fun sc => shotsNameScene sc) scs -> stateConsistent (commitScenes sb scs s).
Proof.
  intros H. unfold stateConsistent. by rewrite storyboardData_commitScenes.
Qed.

Lemma findShot_Some shotId shs sh :
  findShot shotId shs = Some sh -> sh ∈ shs /\ shot_id sh = shotId.
Proof.
  unfold findShot. intros H. apply find_some in H as [Hin Heq].
  split; [by apply list_elem_of_In | by apply bool_decide_eq_true in Heq].
Qed.

Lemma Forall_map_same {A} (P : A -> Prop) (f : A -> A) l :
  Forall P l -> (forall x, P x -> P (f x)) -> Forall P (map f l).
Proof. induction 1; simpl; constructor; auto. Qed.

Lemma Forall_filter_keep {A} (P Q : A -> Prop) `{!forall x, Decision (Q x)} l :
  Forall P l -> Forall P (filter Q l).
Proof.
  rewrite !Forall_forall. intros HP x Hx. apply list_elem_of_filter in Hx as [_ Hx]. auto.
Qed.

Lemma Forall_spliceInsert {A} (P : A -> Prop) k x l :
  P x -> Forall P l -> Forall P (spliceInsert k x l).
Proof.
  intros Hx Hl. unfold spliceInsert. apply Forall_app. split.
  - by apply Forall_take.
  - constructor; [done | by apply Forall_drop].
Qed.

Lemma duplicateShots_sceneId newSceneId shs u :
  Forall (fun sh => sceneId sh = newSceneId) (duplicateShots newSceneId shs u).1.
Proof.
  revert u; induction shs as [|sh shs IH]; intros u; [constructor|].
  cbn [duplicateShots]. destruct (uuidv4 u) as [newId u1].
  specialize (IH u1). destruct (duplicateShots newSceneId shs u1) as [rest u2].
  simpl in *. by constructor.
Qed.

(** C8 (amended): [moveShot], [duplicateShot] and [duplicateScene] keep
    every shot's [sceneId] equal to the id of the scene that holds it;
    [updateShot] and [addShot] keep it when the partial shot they are given
    carries no [sceneId] or the id of the scene addressed; [addScene] keeps
    it when the shots it is given, if any, carry the id of the new scene. *)
Theorem shot_operations_keep_sceneId (s : ProviderState) (u : Uuids) :
  stateConsistent s ->
  (forall sceneId shotId updates,
     (forall v, partial_sceneId updates = Some v -> v = sceneId) ->
     stateConsistent (updateShot sceneId shotId updates s))
  /\ (forall sceneId shot,
        (forall v, partial_sceneId shot = Some v -> v = sceneId) ->
        stateConsistent (addShot sceneId shot s u).1)
  /\ (forall sourceSceneId shotId targetSceneId targetIndex,
        stateConsistent (moveShot sourceSceneId shotId targetSceneId targetIndex s))
  /\ (forall sceneId shotId, stateConsistent (duplicateShot sceneId shotId s u).1)
  /\ (forall scene,
        Forall (fun sh => sceneId sh = (orUuid (partial_scene_id scene) u).1)
               (default [] (partial_shots scene)) ->
        stateConsistent (addScene scene s u).1)
  /\ (forall sceneId, stateConsistent (duplicateScene sceneId s u).1).
Proof.
  intros Hs. unfold stateConsistent in Hs.
  destruct (storyboardData s) as [sb|] eqn:Hsb.
  2:{ unfold updateShot, addShot, moveShot, duplicateShot, addScene, duplicateScene,
        stateConsistent. rewrite !Hsb. simpl. by rewrite !Hsb. }
  unfold sceneIdsConsistent in Hs.
  repeat split.
  - intros sceneId shotId updates Hupd. unfold updateShot. rewrite Hsb.
    apply commitScenes_consistent, Forall_map_same; [done|].
    intros sc Hsc. destruct (decide (scene_id sc = sceneId)) as [Heq|]; [|done].
    simpl. apply Forall_map_same; [done|].
    intros sh Hsh. destruct (decide (shot_id sh = shotId)); [|done]. simpl.
    destruct (partial_sceneId updates) as [v|] eqn:Hv; simpl; [|done].
    by rewrite (Hupd v eq_refl).
  - intros sceneId shot Hshot. unfold addShot. rewrite Hsb.
    destruct (orUuid (partial_id shot) u) as [idOrFresh u']. simpl.
    apply commitScenes_consistent, Forall_map_same; [done|].
    intros sc Hsc. destruct (decide (scene_id sc = sceneId)) as [Heq|]; [|done].
    simpl. apply Forall_app. split; [done|]. constructor; [|constructor]. simpl.
    destruct (partial_sceneId shot) as [v|] eqn:Hv; simpl; [|done].
    by rewrite (Hshot v eq_refl).
  - intros src shotId tgt k. unfold moveShot. rewrite Hsb.
    destruct (findScene src (scenes sb)) as [sourceScene|] eqn:Hsrc;
      [|by unfold stateConsistent; rewrite Hsb].
    destruct (findScene tgt (scenes sb)) as [targetScene|] eqn:Htgt;
      [|by unfold stateConsistent; rewrite Hsb].
    destruct (findShot shotId (shots sourceScene)) as [shotToMove|] eqn:Hshot;
      [|by unfold stateConsistent; rewrite Hsb].
    apply findScene_Some in Hsrc as [Hsrc_in Hsrc_id].
    apply findScene_Some in Htgt as [Htgt_in Htgt_id].
    rewrite Forall_forall in Hs.
    pose proof (Hs _ Hsrc_in) as Hsource. pose proof (Hs _ Htgt_in) as Htarget.
    apply commitScenes_consistent. rewrite Forall_forall. intros sc' Hin.
    apply list_elem_of_In, in_map_iff in Hin as (sc & <- & Hin%list_elem_of_In).
    destruct (decide (scene_id sc = src)).
    + simpl. by apply Forall_filter_keep.
    + destruct (decide (scene_id sc = tgt)); [|by apply Hs]. simpl.
      destruct k as [k|].
      * by apply Forall_spliceInsert.
      * apply Forall_app. split; [done|]. by repeat constructor.
  - intros sceneId shotId. unfold duplicateShot. rewrite Hsb.
    destruct (findScene sceneId (scenes sb)) as [sc0|] eqn:Hfind;
      [|by unfold stateConsistent; simpl; rewrite Hsb].
    destruct (findShot shotId (shots sc0)) as [shotToDuplicate|] eqn:Hshot;
      [|by unfold stateConsistent; simpl; rewrite Hsb].
    simpl.
    apply findScene_Some in Hfind as [Hin Hid].
    apply findShot_Some in Hshot as [Hshot_in _].
    rewrite Forall_forall in Hs. pose proof (Hs _ Hin) as Hsc0.
    rewrite Forall_forall in Hsc0. pose proof (Hsc0 _ Hshot_in) as Hdup.
    apply commitScenes_consistent, Forall_map_same; [by rewrite Forall_forall|].
    intros sc Hsc. destruct (decide (scene_id sc = sceneId)) as [Heq|]; [|done].
    simpl. apply Forall_app. split; [done|]. constructor; [|constructor]. simpl.
    by rewrite Hdup, Hid, Heq.
  - intros scene Hshots. unfold addScene. rewrite Hsb.
    destruct (orUuid (partial_scene_id scene) u) as [newId u']. simpl in *.
    apply commitScenes_consistent, Forall_app. split; [done|]. by repeat constructor.
  - intros sceneId. unfold duplicateScene. rewrite Hsb.
    destruct (findScene sceneId (scenes sb)) as [sc0|] eqn:Hfind;
      [|by unfold stateConsistent; simpl; rewrite Hsb].
    destruct (uuidv4 u) as [newSceneId u1].
    pose proof (duplicateShots_sceneId newSceneId (shots sc0) u1) as Hdup.
    destruct (duplicateShots newSceneId (shots sc0) u1) as [duplicatedShots u2].
    simpl in *.
    apply commitScenes_consistent, Forall_app. split; [done|]. by repeat constructor.
Qed.

Lemma state0_consistent : stateConsistent Sample.state0.
Proof. unfold stateConsistent, sceneIdsConsistent. simpl. repeat constructor. Qed.

Lemma shot_operations_keep_sceneId_witness :
  stateConsistent Sample.state0
  /\ stateConsistent
       (updateShot (js "a") (js "x")
          (mkPartialShot None None None (Some (js "new text")) ∅) Sample.state0)
  /\ stateConsistent
       (addShot (js "a") (mkPartialShot None (Some (js "a")) None None ∅)
          Sample.state0 Sample.uuids0).1
  /\ stateConsistent (moveShot (js "a") (js "x") (js "b") (Some 0%Z) Sample.state0)
  /\ stateConsistent (addScene (mkPartialScene None None None None)
                        Sample.state0 Sample.uuids0).1.
Proof.
  assert (stateConsistent Sample.state0) as Hstate
    by (unfold stateConsistent, sceneIdsConsistent; simpl; repeat constructor).
  destruct (shot_operations_keep_sceneId Sample.state0 Sample.uuids0 Hstate)
    as (Hupdate & Hadd & Hmove & _ & HaddScene & _).
  split; [exact Hstate|].
  split; [apply Hupdate; simpl; intros v Hv; discriminate Hv|].
  split; [apply Hadd; simpl; intros v Hv; injection Hv as <-; reflexivity|].
  split; [apply Hmove|].
  apply HaddScene. simpl. constructor.
Defined.

(** C8 (counterexample): [updateShot] with the update [{ sceneId: "b" }] on
    shot ["x"] of scene ["a"] leaves that shot, still in scene ["a"], with
    [sceneId] ["b"]. *)
Lemma updateShot_breaks_sceneId :
  stateConsistent Sample.state0
  /\ ~ stateConsistent (updateShot (js "a") (js "x") Sample.retarget Sample.state0).
Proof.
  split; [exact state0_consistent|].
  unfold stateConsistent, sceneIdsConsistent.
  replace (storyboardData (updateShot (js "a") (js "x") Sample.retarget Sample.state0))
    with (Some (Sample.boardOf
                  [withShots Sample.sceneA [mkShot (js "x") (js "b") [] (js "X") ∅; Sample.shotY];
                   Sample.sceneB]))
    by (vm_compute; reflexivity).
  simpl. intros H. apply Forall_cons in H as [H _]. apply Forall_cons in H as [H _].
  simpl in H. discriminate H.
Qed.

End SceneIdFacts.

(** ** Saving and loading a project *)

Section PersistenceFacts.
Import Doc.

Lemma loadProject_saveProject (s : ProviderState) (sb : StoryboardData)
    (localStorage : gmap jsstring StoredItem) (s2 : ProviderState) :
  storyboardData s = Some sb ->
  loadProject (sb_id sb) (saveProject s localStorage).2 s2 = setProjectSaved true s.
Proof.
  intros Hsb. unfold saveProject, loadProject. rewrite Hsb. simpl.
  rewrite lookup_insert_eq. simpl. rewrite ensureAnnotations_loose.
  destruct s; simpl in *. by rewrite Hsb.
Qed.

Lemma syncDescriptions_missing_id (chars : list jsstring) : forall (m : gmap jsstring jsstring),
  (forall c, c ∈ chars -> is_Some (m !! c)) ->
  foldl (fun m c => if propertyFalsy m c then <[c := []]> m else m) m chars = m.
Proof.
  induction chars as [|c chars IH]; intros m H; simpl; [done|].
  destruct (H c ltac:(left)) as [v Hv]. unfold propertyFalsy at 2. rewrite Hv.
  assert ((if negb (truthy v) then <[c := []]> m else m) = m) as ->.
  { destruct v; simpl; [by apply insert_id | done]. }
  apply IH. intros c' Hc'. apply H. by right.
Qed.

(** Descriptions whose keys are the characters are left as they are. *)
Lemma syncDescriptions_synced (chars : list jsstring) (m : gmap jsstring jsstring) :
  (forall c, c ∈ chars <-> is_Some (m !! c)) -> syncDescriptions chars m = m.
Proof.
  intros H. unfold syncDescriptions.
  rewrite syncDescriptions_missing_id by (intros c; apply H).
  apply map_filter_id. intros c v Hv. simpl. apply H. by eexists.
Qed.

Lemma charactersEffect_synced (s : ProviderState) : charactersSynced s -> charactersEffect s = s.
Proof.
  intros [Hkeys Hstyle]. unfold charactersEffect.
  rewrite syncDescriptions_synced by done. rewrite <- Hstyle.
  destruct s as [? ? st ? ? ? ? ? ?]. simpl. by destruct st.
Qed.

(** C7 (amended): [saveProject] followed by [loadProject] with the id of
    the saved storyboard hands to the state setters the saved storyboard
    data, story input, style settings, characters, character descriptions,
    version history, version index and templates, all as they were, and
    marks the project saved.  Once the provider has rendered the load, the
    storyboard data, story input, characters, version history and templates
    are still those; the character descriptions and the style settings are
    those too when the descriptions were in sync with the characters and
    with the style settings.  A stored storyboard without [annotations] is
    loaded with the empty array. *)
Theorem saveProject_loadProject_roundtrip
    (s : ProviderState) (sb : StoryboardData)
    (localStorage : gmap jsstring StoredItem) (s2 : ProviderState) :
  storyboardData s = Some sb ->
  let stored := (saveProject s localStorage).2 in
  loadProject (sb_id sb) stored s2 = setProjectSaved true s
  /\ (let r := loadProjectRendered (sb_id sb) stored s2 in
      storyboardData r = Some sb
      /\ storyInput r = storyInput s
      /\ characters r = characters s
      /\ versionHistory r = versionHistory s
      /\ currentVersionIndex r = currentVersionIndex s
      /\ savedTemplateStyles r = savedTemplateStyles s
      /\ projectSaved r = true
      /\ (charactersSynced s -> r = setProjectSaved true s))
  /\ (forall (other : gmap jsstring StoredItem) id p d,
        other !! projectKey id = Some (ProjectJson p) ->
        saved_storyboardData p = Some d ->
        annotations d = None ->
        exists sb',
          storyboardData (loadProjectRendered id other s2) = Some sb'
          /\ annotations sb' = []
          /\ withAnnotations sb' None = d).
Proof.
  intros Hsb stored. split; [by apply loadProject_saveProject|]. split.
  - unfold loadProjectRendered.
    assert (exists p, stored !! projectKey (sb_id sb) = Some (ProjectJson p)) as [p ->].
    { unfold stored, saveProject. rewrite Hsb. simpl. rewrite lookup_insert_eq. by eexists. }
    unfold stored. rewrite loadProject_saveProject by done. simpl.
    repeat (split; [done|]).
    intros Hsync. apply (charactersEffect_synced (setProjectSaved true s)).
    by destruct s.
  - intros other id p d Hlook Hd Hann. unfold loadProjectRendered, loadProject.
    rewrite Hlook. simpl. rewrite Hd. simpl. eexists. split; [done|].
    unfold ensureAnnotations. rewrite Hann. simpl. split; [done|].
    destruct d; simpl in *. by rewrite Hann.
Qed.

Lemma saveProject_loadProject_roundtrip_witness :
  storyboardData Sample.state0 = Some Sample.board
  /\ loadProject (js "p1") (saveProject Sample.state0 ∅).2 Sample.describedState
     = setProjectSaved true Sample.state0
  /\ loadProjectRendered (js "p1") (saveProject Sample.state0 ∅).2 Sample.describedState
     = setProjectSaved true Sample.state0
  /\ exists sb',
       storyboardData
         (loadProjectRendered (js "old") {[ projectKey (js "old") := ProjectJson Sample.olderProject ]}
            Sample.describedState) = Some sb'
       /\ annotations sb' = [].
Proof.
  destruct (saveProject_loadProject_roundtrip Sample.state0 Sample.board ∅
              Sample.describedState eq_refl) as (Hload & Hrender & Hold).
  split; [reflexivity|]. split; [exact Hload|].
  split.
  { apply Hrender. split; [|reflexivity]. intros c. simpl. split.
    - intros Hc. by apply elem_of_nil in Hc.
    - rewrite lookup_empty. intros [v Hv]. discriminate Hv. }
  destruct (Hold {[ projectKey (js "old") := ProjectJson Sample.olderProject ]} (js "old")
              Sample.olderProject (withAnnotations Sample.board None)) as (sb' & H1 & H2 & _).
  - apply lookup_singleton_eq.
  - reflexivity.
  - reflexivity.
  - exists sb'. split; [exact H1 | exact H2].
Defined.

(** C7 (counterexample): a project saved while the typed-in description of
    a character is in [characterDescriptions] only; after the load has been
    rendered, [styleSettings.characterDescriptions] is no longer what was
    saved. *)
Lemma roundtrip_rewrites_styleSettings :
  let s := Sample.describedState in
  let saved := saveProject s ∅ in
  styleSettings (loadProjectRendered (js "p1") saved.2 saved.1) <> styleSettings s.
Proof.
  simpl. intros H.
  apply (f_equal (fun st => default ∅ (style_characterDescriptions st) !! js "Alice")) in H.
  vm_compute in H. discriminate H.
Qed.

End PersistenceFacts.

(** ** Deleting the last shot or the last scene *)

Section ViewerFacts.
Import Doc Viewer.

(** With nothing pending, the confirm step does nothing. *)
Lemma confirmDeleteItem_idle (a : App) :
  confirmDelete (viewer a) = None -> confirmDeleteItem a = Returned a.
Proof.
  intros H. unfold confirmDeleteItem. rewrite H. by destruct (storyboardData (provider a)).
Qed.

(** The second component refuses the delete of the only shot of a scene and
    of the only scene: no dialog opens and the document stays as it is. *)
Lemma second_viewer_rejects_sole_delete (a : App) (sb : StoryboardData) :
  storyboardData (provider a) = Some sb ->
  confirmDelete (viewer a) = None ->
  (forall sceneId shotId sc,
     given (Some sceneId) && given (Some shotId) = true ->
     findScene sceneId (scenes sb) = Some sc ->
     length (shots sc) <= 1 ->
     thenConfirm (Second.handleDeleteShot (Some sceneId) (Some shotId) a) = Returned a)
  /\ (forall sceneId shotId cur,
        given sceneId && given shotId = false ->
        scenes sb !! sceneIndex (currentShot (viewer a)) = Some cur ->
        length (shots cur) <= 1 ->
        thenConfirm (Second.handleDeleteShot sceneId shotId a) = Returned a)
  /\ (forall sceneId,
        length (scenes sb) <= 1 ->
        thenConfirm (Second.handleDeleteScene sceneId a) = Returned a).
Proof.
  intros Hsb Hidle. repeat split.
  - intros sceneId shotId sc Hgiven Hfind Hlen.
    unfold Second.handleDeleteShot. rewrite Hsb, Hgiven. simpl. rewrite Hfind.
    rewrite (proj2 (Nat.leb_le _ _) Hlen). simpl. by apply confirmDeleteItem_idle.
  - intros sceneId shotId cur Hgiven Hcur Hlen.
    unfold Second.handleDeleteShot. rewrite Hsb, Hgiven, Hcur.
    rewrite (proj2 (Nat.leb_le _ _) Hlen). simpl. by apply confirmDeleteItem_idle.
  - intros sceneId Hlen. unfold Second.handleDeleteScene. rewrite Hsb.
    rewrite (proj2 (Nat.leb_le _ _) Hlen).
    destruct (given sceneId); simpl; by apply confirmDeleteItem_idle.
Qed.


(** On the same input the second component leaves the document alone. *)
Example second_viewer_keeps_sole_shot_and_scene :
  thenConfirm (Second.handleDeleteShot (Some (js "a")) (Some (js "x")) Sample.soleApp)
  = Returned Sample.soleApp
  /\ thenConfirm (Second.handleDeleteScene (Some (js "a")) Sample.soleApp)
     = Returned Sample.soleApp.
Proof. split; vm_compute; reflexivity. Qed.

End ViewerFacts.

(** ** The image-request queue *)

Section QueueFacts.
Import ImageQueue.

Lemma drop_head_step {A} (l : list A) k e rest :
  drop k l = e :: rest ->
  S k <= length l /\ take (S k) l = take k l ++ [e] /\ drop (S k) l = rest.
Proof.
  intros H.
  assert (l !! k = Some e) as Hk.
  { rewrite <- (Nat.add_0_r k), <- lookup_drop, H. done. }
  split; [by apply lookup_lt_Some in Hk|].
  split; [by apply take_S_r|].
  replace (S k) with (k + 1) by lia. by rewrite <- drop_drop, H.
Qed.

Lemma resolveWith_resolution a (e : Entry) log :
  resolveWith (ticket e) (placeholderFor a (prompt e)) log
  = log ++ omap (resolution a) [e].
Proof.
  unfold resolveWith, resolution. simpl.
  destruct (placeholderFor a (prompt e)); simpl; [done | by rewrite app_nil_r].
Qed.

(** The worker taking the next entry: the FIFO clause moves by one. *)
Lemma fifo_step a (subs : list Entry) k e rest log :
  k <= length subs ->
  log = omap (resolution a) (take k subs) ->
  e :: rest = drop k subs ->
  exists k', k' <= length subs
             /\ log ++ omap (resolution a) [e] = omap (resolution a) (take k' subs)
             /\ rest = drop k' subs.
Proof.
  intros Hk Hlog Hdrop. symmetry in Hdrop.
  destruct (drop_head_step _ _ _ _ Hdrop) as (Hlen & Htake & Hrest).
  exists (S k). split; [done|]. split; [|done].
  by rewrite Htake, omap_app, Hlog.
Qed.

(** [processQueue] sets up the invariant, timer clause included, from a
    state that has the other clauses. *)
Lemma processQueue_invariant a (subs : list Entry) (l : Loop) :
  (exists k, k <= length subs
             /\ resolved l = omap (resolution a) (take k subs)
             /\ awaiting l ++ requestQueue (service l) = drop k subs) ->
  length (awaiting l) <= 1 ->
  isProcessing (service l) = bool_decide (awaiting l <> []) ->
  (a = FalAdapter -> awaiting l = []) ->
  QueueInvariant a subs (processQueue a l).
Proof.
  intros (k & Hk & Hres & Hq) Hone Hflag Hfal.
  destruct l as [[key queue busy] waiting n log]. simpl in *.
  destruct busy.
  { assert (waiting <> []) as Hw.
    { symmetry in Hflag. by apply bool_decide_eq_true in Hflag. }
    destruct a; simpl; (split; simpl; [by exists k | done | done | by left | done]). }
  assert (waiting = []) as ->.
  { symmetry in Hflag. apply bool_decide_eq_false in Hflag.
    destruct waiting; [done | by destruct Hflag]. }
  simpl in Hq.
  destruct queue as [|e rest].
  { destruct a; simpl; (split; simpl; [by exists k | done | done | done | done]). }
  destruct (fifo_step a subs k e rest log Hk Hres Hq) as (k' & Hk' & Hres' & Hq').
  destruct a; cbn -[Fal.generatePlaceholderImage Generic.generatePlaceholderImage].
  - change (Fal.generatePlaceholderImage (prompt e))
      with (placeholderFor FalAdapter (prompt e)).
    rewrite (resolveWith_resolution FalAdapter e log).
    split; simpl; [by exists k' | lia | done | right; lia | done].
  - destruct (truthy key).
    + split; simpl; [by exists k | done | done | by left | done].
    + change (Generic.generatePlaceholderImage (prompt e))
        with (placeholderFor GenericAdapter (prompt e)).
      rewrite (resolveWith_resolution GenericAdapter e log).
      split; simpl; [by exists k' | lia | done | right; lia | done].
Qed.

Lemma run_invariant a (subs : list Entry) (task : Task) (l l' : Loop) :
  QueueInvariant a subs l ->
  run a task l = Some l' ->
  QueueInvariant a (subs ++ submitted [task]) l'.
Proof.
  intros [(k & Hk & Hres & Hq) Hone Hflag Htimer Hfal] Hrun.
  destruct task as [t p| |i]; simpl in Hrun.
  - injection Hrun as <-. unfold generateImage. simpl.
    apply processQueue_invariant; simpl; [|done..].
    exists k. rewrite length_app. split; [lia|].
    rewrite take_app_le, drop_app_le by done.
    split; [done|]. by rewrite app_assoc, Hq.
  - rewrite app_nil_r. destruct (timers l) as [|n] eqn:Hn; [done|].
    injection Hrun as <-. apply processQueue_invariant; simpl; [|done..].
    by exists k.
  - rewrite app_nil_r. destruct (awaiting l !! i) as [e|] eqn:He; [|done].
    injection Hrun as <-.
    destruct (awaiting l) as [|e' [|? ?]] eqn:Hw; [done| |simpl in Hone; lia].
    destruct i; [|done]. injection He as ->.
    assert (a = GenericAdapter) as -> by (destruct a; [by specialize (Hfal eq_refl) | done]).
    unfold Generic.resume, finish.
    cbn -[Fal.generatePlaceholderImage Generic.generatePlaceholderImage].
    change (Generic.generatePlaceholderImage (prompt e))
      with (placeholderFor GenericAdapter (prompt e)).
    rewrite resolveWith_resolution.
    destruct (fifo_step GenericAdapter subs k e (requestQueue (service l)) (resolved l)
                Hk Hres Hq) as (k' & Hk' & Hres' & Hq').
    split; simpl; [by exists k' | lia | done | right; lia | done].
Qed.

Lemma submitted_cons (task : Task) (tasks : list Task) :
  submitted (task :: tasks) = submitted [task] ++ submitted tasks.
Proof. unfold submitted. simpl. by rewrite app_nil_r. Qed.

Lemma start_invariant a key : QueueInvariant a [] (start key).
Proof. split; simpl; [by exists 0 | lia | done | done | done]. Qed.

Lemma runAll_invariant a (tasks : list Task) : forall (subs : list Entry) (l l' : Loop),
  QueueInvariant a subs l ->
  runAll a tasks l = Some l' ->
  QueueInvariant a (subs ++ submitted tasks) l'.
Proof.
  induction tasks as [|task tasks IH]; intros subs l l' Hinv Hrun; simpl in Hrun.
  - injection Hrun as <-. simpl. by rewrite app_nil_r.
  - destruct (run a task l) as [l1|] eqn:Hstep; [|done].
    pose proof (run_invariant a subs task l l1 Hinv Hstep) as Hinv1.
    specialize (IH _ _ _ Hinv1 Hrun).
    by rewrite submitted_cons, app_assoc.
Qed.

(** Whatever tasks the event loop has run, the queue is in order and at most
    one request is being processed. *)
Lemma queue_invariant_reachable a key (tasks : list Task) (l : Loop) :
  runAll a tasks (start key) = Some l -> QueueInvariant a (submitted tasks) l.
Proof. intros H. by apply (runAll_invariant a tasks [] _ _ (start_invariant a key)). Qed.

(** *** The worker finishes *)

Lemma tick_progress a (subs : list Entry) (l : Loop) :
  QueueInvariant a subs l -> 0 < workLeft l ->
  QueueInvariant a subs (tick a l) /\ workLeft (tick a l) < workLeft l.
Proof.
  intros Hinv Hwork. pose proof Hinv as [_ Hone Hflag Htimer Hfal].
  unfold tick. destruct (awaiting l) as [|e w] eqn:Hw.
  - destruct (timers l) as [|n] eqn:Hn.
    { unfold workLeft in Hwork. rewrite Hw, Hn in Hwork. simpl in Hwork.
      destruct (requestQueue (service l)) eqn:Hq; [simpl in Hwork; lia|].
      destruct Htimer as [?|?]; [done | done | lia]. }
    pose proof (run_invariant a subs TimerFires l) as Hrun.
    simpl in Hrun. rewrite Hn in Hrun. simpl. rewrite Hn. simpl.
    split; [specialize (Hrun _ Hinv eq_refl); by rewrite app_nil_r in Hrun|].
    unfold workLeft. rewrite Hw, Hn.
    destruct l as [[key queue busy] waiting m log]. simpl in *. subst.
    destruct queue as [|e rest]; destruct a;
      unfold processQueue, Fal.processQueue, Generic.processQueue; simpl; try lia.
    destruct (truthy key); simpl; lia.
  - destruct w; [|simpl in Hone; lia].
    pose proof (run_invariant a subs (ApiReturns 0) l) as Hrun.
    simpl in Hrun. rewrite Hw in Hrun. simpl in Hrun. simpl. rewrite Hw. simpl.
    split; [specialize (Hrun _ Hinv eq_refl); by rewrite app_nil_r in Hrun|].
    unfold workLeft. rewrite Hw. simpl. lia.
Qed.

Lemma tick_idle a (l : Loop) : workLeft l = 0 -> tick a l = l.
Proof.
  unfold workLeft, tick. intros H.
  destruct (awaiting l); [|simpl in H; lia].
  simpl. destruct (timers l); [done | lia].
Qed.

Lemma drain_finishes a (subs : list Entry) : forall (fuel : nat) (l : Loop),
  QueueInvariant a subs l -> workLeft l <= fuel ->
  QueueInvariant a subs (drain a fuel l) /\ workLeft (drain a fuel l) = 0.
Proof.
  induction fuel as [|n IH]; intros l Hinv Hfuel; simpl.
  - split; [done | lia].
  - destruct (decide (workLeft l = 0)) as [Hz|Hnz].
    + rewrite tick_idle by done. apply IH; [done | lia].
    + destruct (tick_progress a subs l Hinv ltac:(lia)) as [Hinv' Hlt].
      apply IH; [done | lia].
Qed.

(** Given the rounds it needs, the worker ends with an empty queue and
    nothing in progress, and the resolved promises are those of the
    submissions whose placeholder URL can be built, in submission order. *)
Lemma drain_resolved a (subs : list Entry) (fuel : nat) (l : Loop) :
  QueueInvariant a subs l -> workLeft l <= fuel ->
  resolved (drain a fuel l) = omap (resolution a) subs
  /\ requestQueue (service (drain a fuel l)) = []
  /\ awaiting (drain a fuel l) = [].
Proof.
  intros Hinv Hfuel.
  destruct (drain_finishes a subs fuel l Hinv Hfuel) as [[(k & Hk & Hres & Hq) _ _ _ _] Hz].
  unfold workLeft in Hz.
  destruct (requestQueue (service (drain a fuel l))); [|simpl in Hz; lia].
  destruct (awaiting (drain a fuel l)); [|simpl in Hz; lia].
  split; [|done]. rewrite Hres. f_equal.
  symmetry in Hq. apply drop_nil_inv in Hq. apply take_ge. lia.
Qed.

(** All requests are resolved, in submission order, when every prompt has a
    placeholder URL; and at no time are two requests in progress. *)
Lemma requests_resolve_in_order a key (tasks : list Task) (l : Loop) (fuel : nat) :
  runAll a tasks (start key) = Some l ->
  workLeft l <= fuel ->
  length (awaiting l) <= 1
  /\ (Forall (fun e => is_Some (placeholderFor a (prompt e))) (submitted tasks) ->
      map fst (resolved (drain a fuel l)) = map ticket (submitted tasks)).
Proof.
  intros Hrun Hfuel. pose proof (queue_invariant_reachable a key tasks l Hrun) as Hinv.
  split; [by destruct Hinv|].
  destruct (drain_resolved a _ fuel l Hinv Hfuel) as (-> & _ & _).
  clear. induction 1 as [|e es [u Hu] _ IH]; simpl; [done|].
  unfold resolution at 1. rewrite Hu. simpl. f_equal. exact IH.
Qed.

(** Once nothing is queued or in progress, the resolved promises stay as
    they are, however long the worker runs. *)
Lemma drain_quiet a : forall (fuel : nat) (l : Loop),
  requestQueue (service l) = [] -> awaiting l = [] ->
  isProcessing (service l) = false ->
  resolved (drain a fuel l) = resolved l.
Proof.
  induction fuel as [|n IH]; intros l Hq Hw Hp; simpl; [done|].
  unfold tick. rewrite Hw. simpl.
  destruct (timers l) as [|m] eqn:Hm; simpl; [by apply IH|].
  destruct l as [[key queue busy] waiting k log]. simpl in *. subst.
  destruct a; simpl; by rewrite IH.
Qed.

(** C5 (the code at the failing input): three requests to a
    [FalImageService]; the prompt of the second has a surrogate pair across
    position 100.  The first and the third are resolved, in that order; the
    second is taken from the queue and its promise is left pending, however
    long the worker goes on. *)
Theorem fal_cut_pair_request_never_resolves (fuel : nat) :
  exists l,
    runAll FalAdapter
      [Call 0 (js "a"); Call 1 Sample.cutPairPrompt; Call 2 (js "b")] (start [])
    = Some l
    /\ requestQueue (service l) = []
    /\ resolved (drain FalAdapter fuel l)
       = [(0, placeholderPrefix ++ js "a"); (2, placeholderPrefix ++ js "b")].
Proof.
  eexists. split; [reflexivity|]. split; [reflexivity|].
  rewrite drain_quiet by reflexivity. vm_compute. reflexivity.
Qed.

(** The query that an adapter encodes: [FalImageService] cuts the prompt at
    100 code units, [ImageGenerationService] takes all of it. *)
Lemma placeholderFor_spec a (p : jsstring) :
  placeholderFor a p
  = app placeholderPrefix
      <$> encodeURIComponent (match a with
                              | FalAdapter => substring0 100 p
                              | GenericAdapter => p
                              end).
Proof.
  destruct a; simpl; unfold Fal.generatePlaceholderImage, Generic.generatePlaceholderImage;
    by destruct (encodeURIComponent _).
Qed.

(** C9 (amended): for each adapter, whatever was submitted, once the worker
    has finished the resolved promises are, in submission order, those of
    the requests whose query [encodeURIComponent] accepts, each resolved to
    ["/placeholder.svg?height=450&width=800&query="] followed by the encoded
    query; the query is the first 100 code units of the prompt for
    [FalImageService] and the whole prompt for [ImageGenerationService].
    The URL depends on the adapter and the prompt only. *)
Theorem placeholder_resolution (a : Adapter) (key : jsstring) (tasks : list Task)
    (l : Loop) (fuel : nat) :
  runAll a tasks (start key) = Some l ->
  workLeft l <= fuel ->
  resolved (drain a fuel l)
  = omap (fun e =>
            pair (ticket e)
              <$> (app placeholderPrefix
                     <$> encodeURIComponent (match a with
                                             | FalAdapter => substring0 100 (prompt e)
                                             | GenericAdapter => prompt e
                                             end)))
         (submitted tasks).
Proof.
  intros Hrun Hfuel. pose proof (queue_invariant_reachable a key tasks l Hrun) as Hinv.
  destruct (drain_resolved a _ fuel l Hinv Hfuel) as (-> & _ & _).
  clear. induction (submitted tasks) as [|e es IH]; simpl; [done|].
  unfold resolution at 1. rewrite placeholderFor_spec.
  destruct (encodeURIComponent _); simpl; [f_equal|]; exact IH.
Qed.

Lemma placeholder_resolution_witness :
  exists l,
    runAll FalAdapter [Call 7 Sample.longPrompt] (start []) = Some l
    /\ workLeft l <= 2
    /\ resolved (drain FalAdapter 2 l) = [(7, placeholderPrefix ++ repeat 97%N 100)].
Proof.
  eexists. split; [reflexivity|].
  assert (workLeft (generateImage FalAdapter 7 Sample.longPrompt (start [])) <= 2) as Hwork
    by (vm_compute; lia).
  split; [exact Hwork|].
  rewrite (placeholder_resolution FalAdapter [] [Call 7 Sample.longPrompt] _ 2 eq_refl Hwork).
  vm_compute. reflexivity.
Defined.

(** C9 (counterexample): an [ImageGenerationService] without API key and a
    prompt of 101 letters; the promise is resolved with all 101 letters in
    the query, not the first 100. *)
Lemma generic_adapter_keeps_whole_prompt :
  ~ (exists query,
       encodeURIComponent (substring0 100 Sample.longPrompt) = Some query
       /\ resolved (generateImage GenericAdapter 0 Sample.longPrompt (start []))
          = [(0, placeholderPrefix ++ query)]).
Proof.
  intros (query & Hquery & Hresolved).
  vm_compute in Hquery. injection Hquery as <-.
  vm_compute in Hresolved. discriminate Hresolved.
Qed.

End QueueFacts.

(** ** Print preview pagination *)

Section PrintFacts.
Import Doc PrintPreview.

Context (limit : nat) (Hlimit : 1 <= limit).

Lemma shortPages_app (pgs : list PrintPreviewPage) (pg : PrintPreviewPage) :
  shortPages limit (pgs ++ [pg])
  = shortPages limit pgs + (if decide (length (page_shots pg) < limit) then 1 else 0).
Proof.
  unfold shortPages. rewrite filter_app, length_app. f_equal.
  rewrite filter_cons, filter_nil. by destruct (decide _).
Qed.

(** Closing the current page, which has at least one entry and at most
    [limit]; [short] tells whether it is not full. *)
Lemma pushPage_invariant (c : Cursor) (placed : list PageShot) (breaks : nat) :
  concat (map page_shots (pages c)) ++ currentPageShots c = placed ->
  Forall (fun pg => 1 <= length (page_shots pg) <= limit) (pages c) ->
  1 <= length (currentPageShots c) <= limit ->
  shortPages limit (pages c)
  + (if decide (length (currentPageShots c) < limit) then 1 else 0) <= breaks ->
  map pageNumber (pages c) = seq 1 (length (pages c)) ->
  currentPageNumber c = S (length (pages c)) ->
  PagesInvariant limit (pushPage c) placed breaks.
Proof.
  intros Hcontent Hpages Hcur Hshort Hnum Hnext. split; simpl.
  - rewrite map_app, concat_app. simpl. by rewrite !app_nil_r.
  - apply Forall_app. split; [done|]. constructor; [simpl; lia | constructor].
  - lia.
  - by rewrite shortPages_app.
  - rewrite map_app, length_app, Hnum. simpl. rewrite Hnext.
    replace (length (pages c) + 1) with (S (length (pages c))) by lia.
    by rewrite seq_S.
  - rewrite length_app. simpl. lia.
Qed.

Lemma placeShot_invariant (scene : SceneInfo) (c : Cursor) (shot : ShotInfo)
    (placed : list PageShot) (breaks : nat) :
  PagesInvariant limit c placed breaks ->
  PagesInvariant limit (placeShot limit scene c shot)
                 (placed ++ [pageShotOf scene shot]) breaks.
Proof.
  intros [Hcontent Hpages Hcur Hshort Hnum Hnext]. unfold placeShot. simpl.
  rewrite length_app. simpl.
  destruct (limit <=? length (currentPageShots c) + 1) eqn:Hfull.
  - apply Nat.leb_le in Hfull. apply pushPage_invariant; simpl; try done.
    all: rewrite ?length_app; simpl.
    all: try (by rewrite app_assoc, Hcontent).
    all: try lia.
    all: try (destruct (decide _); lia).
  - apply Nat.leb_gt in Hfull. split; simpl; try done.
    all: rewrite ?length_app; simpl.
    all: try (by rewrite app_assoc, Hcontent).
    all: lia.
Qed.

Lemma placeShots_invariant (scene : SceneInfo) (shs : list ShotInfo) :
  forall (c : Cursor) (placed : list PageShot) (breaks : nat),
  PagesInvariant limit c placed breaks ->
  PagesInvariant limit (foldl (placeShot limit scene) c shs)
                 (placed ++ map (pageShotOf scene) shs) breaks.
Proof.
  induction shs as [|shot shs IH]; intros c placed breaks Hinv; simpl.
  - by rewrite app_nil_r.
  - rewrite (cons_middle _ placed), app_assoc. by apply IH, placeShot_invariant.
Qed.

Lemma placeScene_invariant (c : Cursor) (scene : SceneInfo)
    (placed : list PageShot) (breaks : nat) :
  PagesInvariant limit c placed breaks ->
  PagesInvariant limit (placeScene limit c scene)
                 (placed ++ map (pageShotOf scene) (shots scene))
                 (breaks + (if breakBefore scene c then 1 else 0)).
Proof.
  intros Hinv. unfold placeScene. apply placeShots_invariant.
  destruct (breakBefore scene c) eqn:Hbreak.
  - destruct Hinv as [Hcontent Hpages Hcur Hshort Hnum Hnext].
    unfold breakBefore in Hbreak. apply andb_true_iff in Hbreak as [_ Hnonempty].
    apply Nat.ltb_lt in Hnonempty.
    destruct (pushPage_invariant c placed (breaks + 1)) as [? ? ? ? ? ?]; try done.
    all: try lia.
    all: try (destruct (decide _); lia).
    all: try by split.
  - destruct Hinv as [? ? ? ? ? ?]. split; simpl; try done. lia.
Qed.

Lemma placeScenes_invariant (scs : list SceneInfo) :
  forall (c : Cursor) (placed : list PageShot) (breaks : nat),
  PagesInvariant limit c placed breaks ->
  PagesInvariant limit (foldl (placeScene limit) c scs)
                 (placed ++ allPageShots scs)
                 (breaks + forcedBreaks limit scs c).
Proof.
  induction scs as [|sc scs IH]; intros c placed breaks Hinv; simpl.
  - rewrite app_nil_r, Nat.add_0_r. done.
  - rewrite app_assoc, Nat.add_assoc. by apply IH, placeScene_invariant.
Qed.

Lemma lastPage_invariant (c : Cursor) (placed : list PageShot) (breaks : nat) :
  PagesInvariant limit c placed breaks ->
  let pgs := lastPage c in
  concat (map page_shots pgs) = placed
  /\ Forall (fun pg => 1 <= length (page_shots pg) <= limit) pgs
  /\ map pageNumber pgs = seq 1 (length pgs)
  /\ shortPages limit pgs <= breaks + 1.
Proof.
  intros [Hcontent Hpages Hcur Hshort Hnum Hnext]. unfold lastPage.
  destruct (0 <? length (currentPageShots c)) eqn:Hnonempty.
  - apply Nat.ltb_lt in Hnonempty.
    destruct (pushPage_invariant c placed (breaks + 1)) as [H1 H2 _ H4 H5 _]; try done.
    all: try lia.
    all: try (destruct (decide _); lia).
    simpl in *. rewrite app_nil_r in H1. by repeat split.
  - apply Nat.ltb_ge in Hnonempty.
    destruct (currentPageShots c); [|simpl in Hnonempty; lia].
    rewrite app_nil_r in Hcontent. repeat split; try done. lia.
Qed.

(** Pages of 1 to [limit] entries: the entries are at most [limit] per page,
    and at least [limit] per full page and one per short page. *)
Lemma pages_shot_count (pgs : list PrintPreviewPage) :
  Forall (fun pg => 1 <= length (page_shots pg) <= limit) pgs ->
  length (concat (map page_shots pgs)) <= limit * length pgs
  /\ limit * (length pgs - shortPages limit pgs) + shortPages limit pgs
     <= length (concat (map page_shots pgs))
  /\ shortPages limit pgs <= length pgs.
Proof.
  induction 1 as [|pg pgs Hpg _ IH]; simpl; [unfold shortPages; simpl; lia|].
  rewrite length_app. unfold shortPages in *. rewrite filter_cons.
  destruct (decide (length (page_shots pg) < limit)); simpl; nia.
Qed.

Lemma ceilDiv_bounds (n k : nat) :
  (n <= limit * k -> ceilDiv n limit <= k)
  /\ (limit * k <= n -> k <= ceilDiv n limit)
  /\ (limit * k + 1 <= n -> k + 1 <= ceilDiv n limit).
Proof.
  unfold ceilDiv. repeat split; intros H.
  - assert (n + limit - 1 < limit * S k) as Hlt by nia.
    apply Nat.Div0.div_lt_upper_bound in Hlt. lia.
  - apply Nat.div_le_lower_bound; lia.
  - apply Nat.div_le_lower_bound; nia.
Qed.


Lemma allPageShots_length (scs : list SceneInfo) :
  length (allPageShots scs) = totalShots scs.
Proof.
  unfold allPageShots, totalShots. induction scs as [|sc scs IH]; simpl; [done|].
  by rewrite length_app, length_map, IH.
Qed.

Lemma startCursor_invariant : PagesInvariant limit startCursor [] 0.
Proof. split; simpl; try done; unfold shortPages; simpl; lia. Qed.

(** The pages of a document, for a limit of at least one shot per page. *)
Lemma pages_of_scenes (scs : list SceneInfo) :
  let pgs := lastPage (foldl (placeScene limit) startCursor scs) in
  Forall (fun pg => 1 <= length (page_shots pg) <= limit) pgs
  /\ concat (map page_shots pgs) = allPageShots scs
  /\ map pageNumber pgs = seq 1 (length pgs)
  /\ ceilDiv (totalShots scs) limit <= length pgs
     <= ceilDiv (totalShots scs) limit + forcedBreaks limit scs startCursor.
Proof.
  pose proof (placeScenes_invariant scs startCursor [] 0 startCursor_invariant) as Hinv.
  simpl in Hinv.
  destruct (lastPage_invariant _ _ _ Hinv) as (Hcontent & Hpages & Hnum & Hshort).
  simpl. repeat split; try done.
  - destruct (pages_shot_count _ Hpages) as (Hup & _ & _).
    rewrite Hcontent, allPageShots_length in Hup.
    by apply (ceilDiv_bounds (totalShots scs) _).
  - destruct (pages_shot_count _ Hpages) as (_ & Hlow & Hle).
    rewrite Hcontent, allPageShots_length in Hlow.
    set (pgs := lastPage (foldl (placeScene limit) startCursor scs)) in *.
    destruct (decide (shortPages limit pgs = 0)) as [Hz|Hnz].
    + rewrite Hz in Hlow.
      pose proof (proj1 (proj2 (ceilDiv_bounds (totalShots scs) (length pgs)))) as Hb.
      specialize (Hb ltac:(lia)). lia.
    + pose proof (proj2 (proj2 (ceilDiv_bounds (totalShots scs)
                                  (length pgs - shortPages limit pgs)))) as Hb.
      specialize (Hb ltac:(lia)). lia.
Qed.

End PrintFacts.

Section PrintClaims.
Import Doc PrintPreview.



Example flaggedBoard_pages :
  map (fun pg => map shotId (page_shots pg))
      (previewPages Sample.twoPerPage Sample.flaggedBoard)
  = [[js "x"]; [js "z"; js "w"]].
Proof. reflexivity. Qed.


End PrintClaims.

(** ** The version history *)

Section VersionFacts.
Import Doc.

Lemma outsideHistory_inside (k : nat) (s : ProviderState) :
  k < length (versionHistory s) -> outsideHistory (Z.of_nat k) s = false.
Proof.
  intros H. unfold outsideHistory.
  apply orb_false_iff. split; [apply Z.ltb_ge | apply Z.leb_gt]; lia.
Qed.

Lemma outsideHistory_false (z : Z) (s : ProviderState) :
  outsideHistory z s = false ->
  exists k, z = Z.of_nat k /\ k < length (versionHistory s).
Proof.
  unfold outsideHistory. intros [H1 H2]%orb_false_iff.
  apply Z.ltb_ge in H1. apply Z.leb_gt in H2.
  exists (Z.to_nat z). split; lia.
Qed.

(** X1: a version saved with [saveVersion] becomes the current one, and
    [loadVersion] at its index brings back the storyboard, the story text and
    the style settings that were saved, whatever was edited in between, as
    long as the history is the one [saveVersion] left. *)
Theorem saveVersion_loadVersion_roundtrip
    (name now : jsstring) (description : option jsstring)
    (s s2 : ProviderState) (sb : StoryboardData) (u : Uuids) :
  storyboardData s = Some sb ->
  versionHistory s2 = versionHistory (saveVersion name description now s u).1 ->
  currentVersionIndex (saveVersion name description now s u).1 = length (versionHistory s)
  /\ storyboardData (loadVersion (Z.of_nat (length (versionHistory s))) s2) = Some sb
  /\ storyInput (loadVersion (Z.of_nat (length (versionHistory s))) s2) = storyInput s
  /\ styleSettings (loadVersion (Z.of_nat (length (versionHistory s))) s2) = styleSettings s
  /\ currentVersionIndex (loadVersion (Z.of_nat (length (versionHistory s))) s2)
     = length (versionHistory s)
  /\ versionHistory (loadVersion (Z.of_nat (length (versionHistory s))) s2)
     = versionHistory s2.
Proof.
  intros Hsb Hhist. unfold saveVersion in *. rewrite Hsb in *. simpl in *.
  split; [rewrite length_app; simpl; lia|].
  unfold loadVersion.
  rewrite outsideHistory_inside by (rewrite Hhist, length_app; simpl; lia).
  rewrite Nat2Z.id, Hhist.
  rewrite lookup_app_r by lia. rewrite Nat.sub_diag. simpl.
  by rewrite ensureAnnotations_loose.
Qed.

Lemma saveVersion_loadVersion_roundtrip_witness :
  storyboardData
    (loadVersion 0
       (removeScene (js "a")
          (saveVersion (js "first") None (js "2024-01-01T00:00:00.000Z")
             Sample.state0 Sample.uuids0).1))
  = Some Sample.board.
Proof.
  apply (saveVersion_loadVersion_roundtrip
           (js "first") (js "2024-01-01T00:00:00.000Z") None Sample.state0
           (removeScene (js "a")
              (saveVersion (js "first") None (js "2024-01-01T00:00:00.000Z")
                 Sample.state0 Sample.uuids0).1)
           Sample.board Sample.uuids0); reflexivity.
Defined.

(** X2: [deleteVersion] at a position of the history removes that one
    version; the current index keeps naming the version it named unless
    that version is the one deleted, in which case it steps back by one
    (staying 0 at the front); and it stays within the history. *)
Theorem deleteVersion_keeps_current (k : nat) (s : ProviderState) :
  k < length (versionHistory s) ->
  currentVersionIndex s < length (versionHistory s) ->
  length (versionHistory (deleteVersion (Z.of_nat k) s)) = length (versionHistory s) - 1
  /\ (forall i, versionHistory (deleteVersion (Z.of_nat k) s) !! i
                = versionHistory s !! (if decide (i < k) then i else S i))
  /\ (k <> currentVersionIndex s ->
      versionHistory (deleteVersion (Z.of_nat k) s)
        !! currentVersionIndex (deleteVersion (Z.of_nat k) s)
      = versionHistory s !! currentVersionIndex s)
  /\ (k = currentVersionIndex s ->
      currentVersionIndex (deleteVersion (Z.of_nat k) s) = currentVersionIndex s - 1)
  /\ versionIndexValid (deleteVersion (Z.of_nat k) s).
Proof.
  intros Hk Hcur. unfold deleteVersion, versionIndexValid.
  rewrite outsideHistory_inside by done. simpl. rewrite Nat2Z.id.
  assert (length (delete k (versionHistory s)) = length (versionHistory s) - 1) as Hlen.
  { apply length_delete, lookup_lt_is_Some_2, Hk. }
  split; [done|]. split; [intros i; apply list_lookup_delete|].
  rewrite Hlen.
  destruct (Z.leb_spec (Z.of_nat k) (Z.of_nat (currentVersionIndex s))) as [Hle|Hgt].
  - split; [|split; [done | lia]].
    intros Hne. rewrite list_lookup_delete_ge by lia. f_equal. lia.
  - split; [|split; lia].
    intros _. apply list_lookup_delete_lt. lia.
Qed.

Lemma deleteVersion_keeps_current_witness :
  0 < length (versionHistory Sample.versionedState)
  /\ currentVersionIndex Sample.versionedState < length (versionHistory Sample.versionedState)
  /\ versionIndexValid (deleteVersion 0 Sample.versionedState).
Proof.
  assert (0 < length (versionHistory Sample.versionedState)) as Hk by (simpl; lia).
  assert (currentVersionIndex Sample.versionedState
          < length (versionHistory Sample.versionedState)) as Hcur by (simpl; lia).
  split; [exact Hk|]. split; [exact Hcur|].
  apply (deleteVersion_keeps_current 0 Sample.versionedState Hk Hcur).
Defined.

(** X3: saving, loading and deleting versions keep the current version
    index within the history, for every argument: an index outside the
    history makes [loadVersion] and [deleteVersion] do nothing. *)
Theorem version_operations_keep_index_valid (s : ProviderState) :
  versionIndexValid s ->
  (forall name description now u,
     versionIndexValid (saveVersion name description now s u).1)
  /\ (forall z, versionIndexValid (loadVersion z s)
                /\ (outsideHistory z s = true -> loadVersion z s = s))
  /\ (forall z, versionIndexValid (deleteVersion z s)
                /\ (outsideHistory z s = true -> deleteVersion z s = s)).
Proof.
  intros Hvalid. unfold versionIndexValid in *. repeat split.
  - intros name description now u.
    unfold saveVersion. destruct (storyboardData s); simpl; [|done].
    rewrite length_app. simpl. lia.
  - unfold loadVersion. destruct (outsideHistory z s) eqn:Hout; [done|].
    apply outsideHistory_false in Hout as (k & -> & Hk). rewrite Nat2Z.id.
    destruct (versionHistory s !! k); simpl; [lia | done].
  - intros Hout. unfold loadVersion. by rewrite Hout.
  - unfold deleteVersion. destruct (outsideHistory z s) eqn:Hout; [done|].
    apply outsideHistory_false in Hout as (k & -> & Hk). simpl. rewrite Nat2Z.id.
    rewrite length_delete by (apply lookup_lt_is_Some_2, Hk).
    destruct (Z.leb_spec (Z.of_nat k) (Z.of_nat (currentVersionIndex s))); lia.
  - intros Hout. unfold deleteVersion. by rewrite Hout.
Qed.

Lemma version_operations_keep_index_valid_witness :
  versionIndexValid Sample.versionedState
  /\ versionIndexValid (deleteVersion 1 Sample.versionedState)
  /\ deleteVersion 2 Sample.versionedState = Sample.versionedState.
Proof.
  assert (versionIndexValid Sample.versionedState) as Hvalid
    by (unfold versionIndexValid; simpl; lia).
  split; [exact Hvalid|].
  destruct (version_operations_keep_index_valid Sample.versionedState Hvalid) as (_ & _ & H).
  split; [apply (H 1%Z) | apply (H 2%Z); reflexivity].
Defined.

End VersionFacts.

(** ** Adding and removing scenes and shots *)

Section EditFacts.
Import Doc.

Lemma withScenes_scenes (sb : StoryboardData) : withScenes sb (scenes sb) = sb.
Proof. by destruct sb. Qed.

Lemma withScenes_twice (sb : StoryboardData) scs scs' :
  withScenes (withScenes sb scs) scs' = withScenes sb scs'.
Proof. done. Qed.

Lemma withShots_shots (sc : SceneInfo) : withShots sc (shots sc) = sc.
Proof. by destruct sc. Qed.

Lemma elem_of_map {A B} (f : A -> B) (x : A) (l : list A) : x ∈ l -> f x ∈ map f l.
Proof. intros H. apply list_elem_of_In, in_map, list_elem_of_In, H. Qed.

Lemma filter_all {A} (P : A -> Prop) `{!forall x, Decision (P x)} (l : list A) :
  Forall P l -> filter P l = l.
Proof.
  induction 1 as [|x l Hx _ IH]; [done|].
  rewrite filter_cons_True by done. by rewrite IH.
Qed.

(** X4: a scene added by [addScene] under an id that no scene has yet is
    put last, and [removeScene] with that id gives back the document as it
    was before. *)
Theorem addScene_removeScene_roundtrip
    (scene : PartialScene) (s : ProviderState) (sb : StoryboardData) (u : Uuids) :
  storyboardData s = Some sb ->
  (orUuid (partial_scene_id scene) u).1 ∉ map scene_id (scenes sb) ->
  (exists sb1 added,
     storyboardData (addScene scene s u).1 = Some sb1
     /\ scenes sb1 = scenes sb ++ [added]
     /\ scene_id added = (orUuid (partial_scene_id scene) u).1
     /\ shots added = default [] (partial_shots scene))
  /\ storyboardData
       (removeScene (orUuid (partial_scene_id scene) u).1 (addScene scene s u).1)
     = Some sb.
Proof.
  intros Hsb Hfresh. unfold addScene. rewrite Hsb.
  destruct (orUuid (partial_scene_id scene) u) as [newId u'] eqn:Hid. cbn [fst snd] in *.
  split.
  - eexists _, _. rewrite storyboardData_commitScenes. by repeat split.
  - unfold removeScene. rewrite !storyboardData_commitScenes. simpl.
    rewrite withScenes_twice, filter_app, filter_cons_False, filter_nil, app_nil_r
      by (simpl; tauto).
    rewrite filter_all; [by rewrite withScenes_scenes|].
    apply Forall_forall. intros sc Hsc Heq. apply Hfresh. rewrite <- Heq.
    apply list_elem_of_In, in_map, list_elem_of_In, Hsc.
Qed.

Lemma addScene_removeScene_roundtrip_witness :
  ((orUuid None Sample.uuids0).1 ∉ map scene_id (scenes Sample.board))
  /\ storyboardData
       (removeScene (orUuid None Sample.uuids0).1
          (addScene (mkPartialScene None None None None) Sample.state0 Sample.uuids0).1)
     = Some Sample.board.
Proof.
  assert ((orUuid None Sample.uuids0).1 ∉ map scene_id (scenes Sample.board)) as Hfresh.
  { apply (bool_decide_unpack _). vm_compute. exact I. }
  split; [exact Hfresh|].
  apply (addScene_removeScene_roundtrip (mkPartialScene None None None None)
           Sample.state0 Sample.board Sample.uuids0 eq_refl Hfresh).
Defined.

(** X5: the shot that [addShot] appends to a scene carries the id given
    in the partial shot, even an empty one, and a new uuid only when the
    partial shot has no id property; when no shot of the scene has that id
    yet, [removeShot] with it gives back the document as it was. *)
Theorem addShot_removeShot_roundtrip
    (sceneId : jsstring) (shot : PartialShot) (s : ProviderState) (sb : StoryboardData)
    (u : Uuids) :
  storyboardData s = Some sb ->
  (forall sc sh, sc ∈ scenes sb -> scene_id sc = sceneId -> sh ∈ shots sc ->
                 shot_id sh <> default (uuidv4 u).1 (partial_id shot)) ->
  (forall sc, findScene sceneId (scenes sb) = Some sc ->
              exists sb1 added,
                storyboardData (addShot sceneId shot s u).1 = Some sb1
                /\ findScene sceneId (scenes sb1) = Some (withShots sc (shots sc ++ [added]))
                /\ shot_id added = default (uuidv4 u).1 (partial_id shot))
  /\ storyboardData
       (removeShot sceneId (default (uuidv4 u).1 (partial_id shot))
          (addShot sceneId shot s u).1)
     = Some sb.
Proof.
  intros Hsb Hfresh. unfold addShot. rewrite Hsb.
  assert (default (orUuid (partial_id shot) u).1 (partial_id shot)
          = default (uuidv4 u).1 (partial_id shot)) as Hid.
  { destruct (partial_id shot); simpl; done. }
  destruct (orUuid (partial_id shot) u) as [idOrFresh u'] eqn:Hor. cbn [fst snd] in *.
  set (newShot := spreadShot _ shot).
  assert (shot_id newShot = default (uuidv4 u).1 (partial_id shot)) as HnewId
    by (rewrite <- Hid; reflexivity).
  split.
  - intros sc Hfind. exists (withScenes sb
      (map (fun scene => if decide (scene_id scene = sceneId)
                         then withShots scene (shots scene ++ [newShot]) else scene)
           (scenes sb))), newShot.
    rewrite storyboardData_commitScenes. split; [done|]. split; [|done]. simpl.
    by rewrite (findScene_map sceneId (fun x => withShots x (shots x ++ [newShot])) _ sc).
  - unfold removeShot. rewrite !storyboardData_commitScenes. simpl.
    rewrite withScenes_twice, map_map.
    transitivity (Some (withScenes sb (scenes sb))); [|by rewrite withScenes_scenes].
    do 2 f_equal. etrans; [|apply map_id].
    apply map_ext_in. intros sc Hsc. apply list_elem_of_In in Hsc.
    destruct (decide (scene_id sc = sceneId)) as [Heq|Hne]; simpl.
    + rewrite decide_True by done. simpl.
      rewrite filter_app, filter_cons_False, filter_nil, app_nil_r
        by (rewrite HnewId; tauto).
      rewrite filter_all; [by destruct sc|].
      apply Forall_forall. intros sh Hsh. by apply (Hfresh sc).
    + by rewrite decide_False.
Qed.

Lemma addShot_removeShot_roundtrip_witness :
  storyboardData
    (removeShot (js "a") (js "n")
       (addShot (js "a") (mkPartialShot (Some (js "n")) None None None ∅)
          Sample.state0 Sample.uuids0).1)
  = Some Sample.board.
Proof.
  apply (addShot_removeShot_roundtrip (js "a")
           (mkPartialShot (Some (js "n")) None None None ∅)
           Sample.state0 Sample.board Sample.uuids0 eq_refl).
  intros sc sh Hsc _ Hsh.
  assert (Forall (fun sc => Forall (fun sh => shot_id sh <> js "n") (shots sc))
                 (scenes Sample.board)) as Hall.
  { apply (bool_decide_unpack _). vm_compute. exact I. }
  rewrite Forall_forall in Hall. specialize (Hall sc Hsc).
  rewrite Forall_forall in Hall. exact (Hall sh Hsh).
Defined.

End EditFacts.

(** ** Moving a shot *)

Section MoveFacts.
Import Doc.

Lemma findScene_unique (a : jsstring) (scs : list SceneInfo) (sc x : SceneInfo) :
  NoDup (map scene_id scs) -> findScene a scs = Some sc ->
  x ∈ scs -> scene_id x = a -> x = sc.
Proof.
  unfold findScene. induction scs as [|y scs IH]; intros Hnd Hfind Hx Ha; simpl in *.
  - by apply elem_of_nil in Hx.
  - apply NoDup_cons in Hnd as [Hy Hnd].
    destruct (decide (scene_id y = a)) as [Heq|Hne].
    + rewrite (bool_decide_eq_true_2 _ Heq) in Hfind. injection Hfind as <-.
      apply elem_of_cons in Hx as [->|Hx]; [done|].
      exfalso. apply Hy. rewrite Heq, <- Ha. by apply elem_of_map.
    + rewrite (bool_decide_eq_false_2 _ Hne) in Hfind.
      apply elem_of_cons in Hx as [->|Hx]; [done | by apply IH].
Qed.

(** A map that keeps the ids commutes with the search for an id. *)
Lemma findScene_fmap (a : jsstring) (F : SceneInfo -> SceneInfo) (scs : list SceneInfo) :
  (forall x, scene_id (F x) = scene_id x) ->
  findScene a (map F scs) = F <$> findScene a scs.
Proof.
  intros HF. unfold findScene. induction scs as [|y scs IH]; simpl; [done|].
  rewrite HF. by destruct (bool_decide (scene_id y = a)).
Qed.

Lemma allShots_length_Permutation (l l' : list SceneInfo) :
  l ≡ₚ l' -> length (allShots l) = length (allShots l').
Proof.
  unfold allShots. induction 1; simpl; rewrite ?length_app; lia.
Qed.

Lemma filter_one_out (x : jsstring) (l : list ShotInfo) (sh : ShotInfo) :
  NoDup (map shot_id l) -> sh ∈ l -> shot_id sh = x ->
  S (length (filter (fun y => shot_id y <> x) l)) = length l.
Proof.
  induction l as [|y l IH]; intros Hnd Hin Hx; simpl in *.
  - by apply elem_of_nil in Hin.
  - apply NoDup_cons in Hnd as [Hy Hnd].
    destruct (decide (shot_id y = x)) as [Heq|Hne].
    + rewrite filter_cons_False by tauto. f_equal.
      f_equal. apply filter_all, Forall_forall. intros z Hz Hzx.
      apply Hy. rewrite Heq, <- Hzx. by apply elem_of_map.
    + rewrite filter_cons_True by done. simpl. f_equal.
      apply elem_of_cons in Hin as [->|Hin]; [done | by apply IH].
Qed.

(** X6: [moveShot] with the source scene as target does not reorder the
    scene: the shot is taken out and not put back, as [removeShot] does. *)
Theorem moveShot_within_scene_removes_shot
    (sceneId shotId : jsstring) (targetIndex : option Z)
    (s : ProviderState) (sb : StoryboardData) (sc : SceneInfo) (sh : ShotInfo) :
  storyboardData s = Some sb ->
  NoDup (map scene_id (scenes sb)) ->
  findScene sceneId (scenes sb) = Some sc ->
  findShot shotId (shots sc) = Some sh ->
  moveShot sceneId shotId sceneId targetIndex s = removeShot sceneId shotId s.
Proof.
  intros Hsb Hnd Hfind Hshot. unfold moveShot, removeShot.
  rewrite Hsb, Hfind, Hshot. f_equal.
  apply map_ext_in. intros x Hx. apply list_elem_of_In in Hx.
  destruct (decide (scene_id x = sceneId)) as [Heq|Hne]; [|done].
  by rewrite (findScene_unique sceneId (scenes sb) sc x Hnd Hfind Hx Heq).
Qed.

Lemma moveShot_within_scene_removes_shot_witness :
  storyboardData (moveShot (js "a") (js "x") (js "a") (Some 1%Z) Sample.state0)
  = Some (Sample.boardOf [withShots Sample.sceneA [Sample.shotY]; Sample.sceneB]).
Proof.
  assert (NoDup (map scene_id (scenes Sample.board))) as Hnd.
  { apply (bool_decide_unpack _). vm_compute. exact I. }
  rewrite (moveShot_within_scene_removes_shot (js "a") (js "x") (Some 1%Z)
             Sample.state0 Sample.board Sample.sceneA Sample.shotX
             eq_refl Hnd eq_refl eq_refl).
  reflexivity.
Defined.

(** X7: [moveShot] between two different scenes of a document with
    distinct scene ids takes the shot out of the source scene and puts it,
    with the target's id and description as [sceneId] and [sceneContext],
    into the target scene: at the end when no position is given; before
    the shot at position [i], or at the end when the scene has no more
    than [i] shots, for a position [i >= 0]; and [-i] places before the
    end, or at the start when the scene has fewer shots, for a negative
    position [i].  The other scenes, the order of the scenes and, the shot
    ids of the source being distinct, the number of shots stay as they
    were. *)
Theorem moveShot_between_scenes
    (src x tgt : jsstring) (targetIndex : option Z)
    (s : ProviderState) (sb : StoryboardData) (source target : SceneInfo) (sh : ShotInfo) :
  storyboardData s = Some sb ->
  NoDup (map scene_id (scenes sb)) ->
  src <> tgt ->
  findScene src (scenes sb) = Some source ->
  findScene tgt (scenes sb) = Some target ->
  findShot x (shots source) = Some sh ->
  NoDup (map shot_id (shots source)) ->
  let len := length (shots target) in
  let k := match targetIndex with
           | None => len
           | Some i => if (i <? 0)%Z then len - Z.to_nat (- i) else Z.to_nat i `min` len
           end in
  exists sb',
    storyboardData (moveShot src x tgt targetIndex s) = Some sb'
    /\ map scene_id (scenes sb') = map scene_id (scenes sb)
    /\ findScene src (scenes sb')
       = Some (withShots source (filter (fun y => shot_id y <> x) (shots source)))
    /\ findScene tgt (scenes sb')
       = Some (withShots target
                 (take k (shots target)
                  ++ mkShot (shot_id sh) tgt (scene_description target)
                            (shotDescription sh) (shot_props sh)
                  :: drop k (shots target)))
    /\ (forall id, id <> src -> id <> tgt ->
          findScene id (scenes sb') = findScene id (scenes sb))
    /\ length (allShots (scenes sb')) = length (allShots (scenes sb)).
Proof.
  intros Hsb Hnd Hne Hsrc Htgt Hshot Hshots len k. unfold moveShot.
  rewrite Hsb, Hsrc, Htgt, Hshot. rewrite storyboardData_commitScenes.
  set (moved := {| shot_id := shot_id sh; sceneId := tgt |}).
  assert (k <= length (shots target)) as Hk.
  { unfold k, len. destruct targetIndex as [i|]; [|done].
    destruct (Z.ltb_spec i 0); lia. }
  assert (match targetIndex with
          | Some i => spliceInsert i moved (shots target)
          | None => shots target ++ [moved]
          end = take k (shots target) ++ moved :: drop k (shots target)) as Hins.
  { unfold k, len. destruct targetIndex as [i|].
    - unfold spliceInsert.
      assert (Z.to_nat (if (i <? 0)%Z
                        then Z.max (Z.of_nat (length (shots target)) + i) 0
                        else Z.min i (Z.of_nat (length (shots target))))
              = if (i <? 0)%Z then length (shots target) - Z.to_nat (- i)
                else Z.to_nat i `min` length (shots target)) as ->; [|done].
      destruct (Z.ltb_spec i 0); lia.
    - by rewrite firstn_all, drop_all. }
  rewrite Hins. clear Hins.
  set (F := fun scene : SceneInfo =>
              if decide (scene_id scene = src)
              then withShots source (filter (fun y => shot_id y <> x) (shots source))
              else if decide (scene_id scene = tgt)
                   then withShots target (take k (shots target) ++ moved :: drop k (shots target))
                   else scene).
  pose proof (findScene_Some _ _ _ Hsrc) as [Hsource Hsid].
  pose proof (findScene_Some _ _ _ Htgt) as [Htarget Htid].
  assert (forall y, scene_id (F y) = scene_id y) as HF.
  { intros y. unfold F. destruct (decide (scene_id y = src)); [simpl; congruence|].
    destruct (decide (scene_id y = tgt)); [simpl; congruence | done]. }
  assert (F source = withShots source (filter (fun y => shot_id y <> x) (shots source)))
    as HFs.
  { unfold F. by rewrite decide_True. }
  assert (F target
          = withShots target (take k (shots target) ++ moved :: drop k (shots target)))
    as HFt.
  { unfold F. rewrite decide_False by (rewrite Htid; done). by rewrite decide_True. }
  exists (withScenes sb (map F (scenes sb))). simpl.
  split; [done|]. split.
  { rewrite map_map. apply map_ext. exact HF. }
  rewrite !findScene_fmap by done. rewrite Hsrc, Htgt. simpl. rewrite HFs, HFt.
  split; [done|]. split; [done|]. split.
  { intros id Hid1 Hid2. rewrite findScene_fmap by done.
    destruct (findScene id (scenes sb)) as [y|] eqn:Hy; [|done].
    simpl. f_equal. apply findScene_Some in Hy as [_ Hy]. unfold F.
    rewrite !decide_False by (rewrite Hy; done). done. }
  apply elem_of_Permutation in Hsource as [rest1 Hperm1].
  assert (target ∈ rest1) as Hin.
  { assert (target ∈ source :: rest1) as Hin by by rewrite <- Hperm1.
    apply elem_of_cons in Hin as [->|Hin]; [|done]. congruence. }
  apply elem_of_Permutation in Hin as [rest Hperm2].
  assert (scenes sb ≡ₚ source :: target :: rest) as Hperm by by rewrite Hperm1, Hperm2.
  assert (NoDup (map scene_id (source :: target :: rest))) as Hnd'.
  { rewrite <- Hperm. exact Hnd. }
  simpl in Hnd'. apply NoDup_cons in Hnd' as [Hs1 Hnd'].
  apply NoDup_cons in Hnd' as [Ht1 _].
  assert (map F rest = rest) as Hrest.
  { etrans; [|apply map_id]. apply map_ext_in. intros y Hy.
    unfold F. rewrite !decide_False; [done| |].
    all: intros Heq; apply list_elem_of_In in Hy.
    all: first [ apply Hs1; rewrite Hsid, <- Heq; right; by apply elem_of_map
               | apply Ht1; rewrite Htid, <- Heq; by apply elem_of_map ]. }
  rewrite (allShots_length_Permutation _ _ (Permutation_map F Hperm)).
  rewrite (allShots_length_Permutation _ _ Hperm).
  simpl. rewrite Hrest, HFs, HFt. unfold allShots. simpl.
  rewrite !length_app. simpl.
  rewrite length_take, length_drop.
  apply findShot_Some in Hshot as [Hshin Hshid].
  pose proof (filter_one_out x (shots source) sh Hshots Hshin Hshid). lia.
Qed.

Lemma moveShot_between_scenes_witness :
  exists sb',
    storyboardData (moveShot (js "a") (js "x") (js "b") (Some 0%Z) Sample.state0) = Some sb'
    /\ findScene (js "b") (scenes sb')
       = Some (withShots Sample.sceneB
                 [mkShot (js "x") (js "b") [] (js "X") ∅; Sample.shotZ])
    /\ length (allShots (scenes sb')) = length (allShots (scenes Sample.board)).
Proof.
  assert (NoDup (map scene_id (scenes Sample.board))) as Hnd by by_computation.
  assert (js "a" <> js "b") as Hne by discriminate.
  assert (NoDup (map shot_id (shots Sample.sceneA))) as Hshots by by_computation.
  destruct (moveShot_between_scenes (js "a") (js "x") (js "b") (Some 0%Z)
              Sample.state0 Sample.board Sample.sceneA Sample.sceneB Sample.shotX
              eq_refl Hnd Hne eq_refl eq_refl eq_refl Hshots)
    as (sb' & H1 & _ & _ & H4 & _ & H6).
  exists sb'. split; [exact H1|]. split; [exact H4 | exact H6].
Defined.

Example moveShot_positions :
  let descriptions targetIndex :=
    map shotDescription
      <$> (shots
             <$> (storyboardData (moveShot (js "b") (js "z") (js "a") targetIndex Sample.state0)
                  ≫= fun sb => findScene (js "a") (scenes sb))) in
  descriptions None = Some [js "X"; js "Y"; js "Z"]
  /\ descriptions (Some 1%Z) = Some [js "X"; js "Z"; js "Y"]
  /\ descriptions (Some 5%Z) = Some [js "X"; js "Y"; js "Z"]
  /\ descriptions (Some (-1)%Z) = Some [js "X"; js "Z"; js "Y"]
  /\ descriptions (Some (-5)%Z) = Some [js "Z"; js "X"; js "Y"].
Proof. repeat split; vm_compute; reflexivity. Qed.

End MoveFacts.

(** ** What the edit operations leave alone, and the ids of copies *)

Section FrameFacts.
Import Doc.

Lemma sameBesidesScenes_refl (s : ProviderState) : sameBesidesScenes s s.
Proof.
  unfold sameBesidesScenes. repeat split.
  destruct (storyboardData s) as [sb|]; [by destruct sb | done].
Qed.

Lemma sameBesidesScenes_commit (s : ProviderState) (sb : StoryboardData) scs :
  storyboardData s = Some sb -> sameBesidesScenes s (commitScenes sb scs s).
Proof.
  intros Hsb. unfold sameBesidesScenes. rewrite storyboardData_commitScenes, Hsb.
  by repeat split.
Qed.

(** X8: the scene and shot edit operations of the provider change nothing
    but the scenes of the storyboard (and the saved flag): the title and the
    other fields of the document, its annotations and template style, the
    story text, the style settings, the characters, the version history and
    the saved templates stay as they were; so annotations of a removed shot
    or scene stay in the document. *)
Theorem edit_operations_change_only_scenes (s : ProviderState) (u : Uuids) :
  (forall sceneId shotId updates, sameBesidesScenes s (updateShot sceneId shotId updates s))
  /\ (forall sceneId shot, sameBesidesScenes s (addShot sceneId shot s u).1)
  /\ (forall sceneId shotId, sameBesidesScenes s (removeShot sceneId shotId s))
  /\ (forall scene, sameBesidesScenes s (addScene scene s u).1)
  /\ (forall sceneId, sameBesidesScenes s (removeScene sceneId s))
  /\ (forall sceneId shotIds, sameBesidesScenes s (stateAfter s (reorderShots sceneId shotIds s)))
  /\ (forall sceneIds, sameBesidesScenes s (stateAfter s (reorderScenes sceneIds s)))
  /\ (forall sceneId shotId, sameBesidesScenes s (duplicateShot sceneId shotId s u).1)
  /\ (forall sceneId, sameBesidesScenes s (duplicateScene sceneId s u).1)
  /\ (forall source shotId target index,
        sameBesidesScenes s (moveShot source shotId target index s)).
Proof.
  destruct (storyboardData s) as [sb|] eqn:Hsb.
  2:{ unfold updateShot, addShot, removeShot, addScene, removeScene, reorderShots,
        reorderScenes, duplicateShot, duplicateScene, moveShot. rewrite !Hsb. simpl.
      repeat split; intros; apply sameBesidesScenes_refl. }
  repeat apply conj.
  - intros. unfold updateShot. rewrite Hsb. by apply sameBesidesScenes_commit.
  - intros. unfold addShot. rewrite Hsb. destruct (orUuid _ u). simpl.
    by apply sameBesidesScenes_commit.
  - intros. unfold removeShot. rewrite Hsb. by apply sameBesidesScenes_commit.
  - intros. unfold addScene. rewrite Hsb. destruct (orUuid _ u). simpl.
    by apply sameBesidesScenes_commit.
  - intros. unfold removeScene. rewrite Hsb. by apply sameBesidesScenes_commit.
  - intros. unfold reorderShots. rewrite Hsb.
    destruct (findScene _ _); [|apply sameBesidesScenes_refl].
    destruct (lookupAll _ _ _); simpl;
      [by apply sameBesidesScenes_commit | apply sameBesidesScenes_refl].
  - intros. unfold reorderScenes. rewrite Hsb.
    destruct (lookupAll _ _ _); simpl;
      [by apply sameBesidesScenes_commit | apply sameBesidesScenes_refl].
  - intros. unfold duplicateShot. rewrite Hsb.
    destruct (findScene _ _); [|apply sameBesidesScenes_refl].
    destruct (findShot _ _); [|apply sameBesidesScenes_refl].
    simpl. by apply sameBesidesScenes_commit.
  - intros. unfold duplicateScene. rewrite Hsb.
    destruct (findScene _ _); [|apply sameBesidesScenes_refl].
    simpl. destruct (duplicateShots _ _ _). simpl. by apply sameBesidesScenes_commit.
  - intros. unfold moveShot. rewrite Hsb.
    destruct (findScene source _); [|apply sameBesidesScenes_refl].
    destruct (findScene target _); [|apply sameBesidesScenes_refl].
    destruct (findShot _ _); [|apply sameBesidesScenes_refl].
    by apply sameBesidesScenes_commit.
Qed.

End FrameFacts.

(** ** The ids of copies *)

Section CopyFacts.
Import Doc.

Lemma duplicateShots_ids newSceneId shs : forall u,
  map shot_id (duplicateShots newSceneId shs u).1
  = map (uuidAt u) (seq (issued u) (length shs))
  /\ (duplicateShots newSceneId shs u).2 = mkUuids (uuidAt u) (issued u + length shs).
Proof.
  induction shs as [|sh shs IH]; intros u.
  - simpl. split; [done|]. destruct u. simpl. f_equal. lia.
  - cbn [duplicateShots]. unfold uuidv4.
    specialize (IH (mkUuids (uuidAt u) (S (issued u)))).
    destruct (duplicateShots newSceneId shs (mkUuids (uuidAt u) (S (issued u))))
      as [rest u2].
    simpl in *. destruct IH as [-> ->]. split; [done|]. f_equal. lia.
Qed.

Lemma allShots_app (l l' : list SceneInfo) : allShots (l ++ l') = allShots l ++ allShots l'.
Proof. unfold allShots. by rewrite map_app, concat_app. Qed.

(** Appending a shot to the scene with a given id adds it to the shots of
    the document. *)
Lemma allShots_append (a : jsstring) (new : ShotInfo) (scs : list SceneInfo) (sc : SceneInfo) :
  NoDup (map scene_id scs) -> findScene a scs = Some sc ->
  allShots (map (fun x => if decide (scene_id x = a)
                          then withShots x (shots x ++ [new]) else x) scs)
  ≡ₚ new :: allShots scs.
Proof.
  unfold findScene, allShots.
  induction scs as [|y scs IH]; intros Hnd Hfind; simpl in *; [done|].
  apply NoDup_cons in Hnd as [Hy Hnd].
  destruct (decide (scene_id y = a)) as [Heq|Hne]; simpl.
  - assert (map (fun x => if decide (scene_id x = a)
                          then withShots x (shots x ++ [new]) else x) scs = scs) as ->.
    { etrans; [|apply map_id]. apply map_ext_in. intros z Hz.
      rewrite decide_False; [done|]. intros Hza. apply Hy. rewrite Heq, <- Hza.
      by apply elem_of_map, list_elem_of_In. }
    rewrite <- app_assoc. simpl. symmetry. apply Permutation_middle.
  - rewrite (bool_decide_eq_false_2 _ Hne) in Hfind.
    rewrite (IH Hnd Hfind). symmetry. apply Permutation_middle.
Qed.

Lemma NoDup_uuids (u : Uuids) (start n : nat) :
  (forall i j, issued u <= i -> issued u <= j -> uuidAt u i = uuidAt u j -> i = j) ->
  issued u <= start ->
  NoDup (map (uuidAt u) (seq start n)).
Proof.
  intros Hinj Hstart. apply (NoDup_fmap_2_strong (uuidAt u)); [|apply NoDup_seq].
  intros i j Hi Hj. apply elem_of_seq in Hi, Hj. apply Hinj; lia.
Qed.

(** X9: in a document whose scene ids and shot ids are unique,
    [duplicateScene] and [duplicateShot], drawing their identifiers from
    a supply of ids that are new to the document, leave the ids unique,
    and the supply stays new to the changed document. *)
Theorem duplicates_keep_ids_unique (s : ProviderState) (sb : StoryboardData) (u : Uuids) :
  storyboardData s = Some sb ->
  idsUnique sb ->
  freshSupply u sb ->
  (forall sceneId sb',
     storyboardData (duplicateScene sceneId s u).1 = Some sb' ->
     idsUnique sb' /\ freshSupply (duplicateScene sceneId s u).2 sb')
  /\ (forall sceneId shotId sb',
        storyboardData (duplicateShot sceneId shotId s u).1 = Some sb' ->
        idsUnique sb' /\ freshSupply (duplicateShot sceneId shotId s u).2 sb').
Proof.
  intros Hsb [Hscenes Hshots] [Hinj Hnew].
  assert (forall i, issued u <= i -> uuidAt u i ∉ map scene_id (scenes sb)) as Hnew1
    by (intros i Hi; exact (proj1 (Hnew i Hi))).
  assert (forall i, issued u <= i -> uuidAt u i ∉ map shot_id (allShots (scenes sb)))
    as Hnew2 by (intros i Hi; exact (proj2 (Hnew i Hi))).
  assert (idsUnique sb /\ freshSupply u sb) as Hsame by (split; by split).
  clear Hnew. split.
  - intros a sb'. unfold duplicateScene. rewrite Hsb.
    destruct (findScene a (scenes sb)) as [sc|] eqn:Hfind.
    2:{ simpl. rewrite Hsb. intros [= <-]. exact Hsame. }
    unfold uuidv4.
    pose proof (duplicateShots_ids (uuidAt u (issued u)) (shots sc)
                  (mkUuids (uuidAt u) (S (issued u)))) as [Hids Hu2].
    destruct (duplicateShots (uuidAt u (issued u)) (shots sc)
                (mkUuids (uuidAt u) (S (issued u)))) as [dups u2].
    cbn [fst snd] in *. rewrite storyboardData_commitScenes. intros [= <-].
    subst u2. unfold idsUnique, freshSupply. cbn [scenes withScenes issued uuidAt].
    rewrite allShots_app, !map_app. unfold allShots at 2 4. simpl.
    rewrite app_nil_r, Hids. simpl.
    repeat apply conj.
    + apply NoDup_app. split; [done|]. split; [|apply NoDup_singleton].
      intros x Hx ->%list_elem_of_singleton. by apply (Hnew1 (issued u)).
    + apply NoDup_app. split; [done|]. split; [|apply NoDup_uuids; [done | lia]].
      intros x Hx Hin. apply list_elem_of_In, in_map_iff in Hin as (i & <- & Hi).
      apply in_seq in Hi. apply (Hnew2 i); [lia | done].
    + intros i j Hi Hj. apply Hinj; lia.
    + intros i Hi. split.
      * rewrite elem_of_app, list_elem_of_singleton. intros [Hin|Heq].
        -- apply (Hnew1 i); [lia | done].
        -- apply Hinj in Heq; lia.
      * rewrite elem_of_app. intros [Hin|Hin].
        -- apply (Hnew2 i); [lia | done].
        -- apply list_elem_of_In, in_map_iff in Hin as (j & Heq & Hj).
           apply in_seq in Hj. apply Hinj in Heq; lia.
  - intros a x sb'. unfold duplicateShot. rewrite Hsb.
    destruct (findScene a (scenes sb)) as [sc|] eqn:Hfind.
    2:{ simpl. rewrite Hsb. intros [= <-]. exact Hsame. }
    destruct (findShot x (shots sc)) as [sh|] eqn:Hshot.
    2:{ simpl. rewrite Hsb. intros [= <-]. exact Hsame. }
    unfold uuidv4. cbn [fst snd]. rewrite storyboardData_commitScenes. intros [= <-].
    unfold idsUnique, freshSupply. cbn [scenes withScenes issued uuidAt].
    set (new := {| shot_id := uuidAt u (issued u) |}).
    pose proof (allShots_append a new (scenes sb) sc Hscenes Hfind) as Hperm.
    assert (map scene_id
              (map (fun scene => if decide (scene_id scene = a)
                                 then withShots scene (shots scene ++ [new]) else scene)
                   (scenes sb)) = map scene_id (scenes sb)) as Hids.
    { rewrite map_map. apply map_ext. intros y. by destruct (decide (scene_id y = a)). }
    rewrite Hids.
    assert (map shot_id
              (allShots
                 (map (fun scene => if decide (scene_id scene = a)
                                    then withShots scene (shots scene ++ [new]) else scene)
                      (scenes sb)))
            ≡ₚ uuidAt u (issued u) :: map shot_id (allShots (scenes sb))) as Hperm'.
    { change (map shot_id ?l) with (shot_id <$> l). by rewrite Hperm. }
    rewrite Hperm'.
    repeat apply conj.
    + done.
    + apply NoDup_cons. split; [by apply (Hnew2 (issued u)) | done].
    + intros i j Hi Hj. apply Hinj; lia.
    + intros i Hi. split; [apply (Hnew1 i); lia|].
      rewrite Hperm', elem_of_cons. intros [Heq|Hin].
      * apply Hinj in Heq; lia.
      * apply (Hnew2 i); [lia | done].
Qed.

Lemma duplicates_keep_ids_unique_witness :
  exists sb',
    storyboardData (duplicateScene (js "a") Sample.state0 Sample.uuids0).1 = Some sb'
    /\ idsUnique sb'.
Proof.
  assert (idsUnique Sample.board) as Hu by (split; by_computation).
  assert (freshSupply Sample.uuids0 Sample.board) as Hf.
  { split.
    - intros i j _ _ Heq. simpl in Heq. injection Heq as Heq.
      apply (f_equal length) in Heq. rewrite !repeat_length in Heq. exact Heq.
    - intros i _. split; intros Hin; simpl in Hin;
        repeat (apply elem_of_cons in Hin as [Heq|Hin]; [discriminate Heq|]);
        by apply elem_of_nil in Hin. }
  destruct (duplicates_keep_ids_unique Sample.state0 Sample.board Sample.uuids0
              eq_refl Hu Hf) as [H _].
  eexists. split; [reflexivity|]. apply (H (js "a") _ eq_refl).
Defined.

End CopyFacts.

(** ** Drag and drop *)

Section DragFacts.
Import Doc Sortable.

Lemma map_delete {A B} (f : A -> B) (i : nat) (l : list A) :
  map f (delete i l) = delete i (map f l).
Proof. revert i; induction l as [|x l IH]; intros [|i]; simpl; [done..|]. by rewrite IH. Qed.

Lemma map_spliceInsert {A B} (f : A -> B) (k : Z) (x : A) (l : list A) :
  map f (spliceInsert k x l) = spliceInsert k (f x) (map f l).
Proof.
  unfold spliceInsert. rewrite length_map, map_app. simpl.
  change (map f ?l) with (f <$> l). by rewrite fmap_take, fmap_drop.
Qed.

Lemma elem_of_delete {A} (i : nat) (l : list A) (x : A) : x ∈ delete i l -> x ∈ l.
Proof.
  revert i; induction l as [|y l IH]; intros [|i] H; simpl in *; [done..| |].
  - by right.
  - apply elem_of_cons in H as [->|H]; [left | right; by eapply IH].
Qed.

Lemma elem_of_spliceInsert {A} (k : Z) (x y : A) (l : list A) :
  y ∈ spliceInsert k x l -> y = x \/ y ∈ l.
Proof.
  unfold spliceInsert. rewrite elem_of_app, elem_of_cons.
  set (n := Z.to_nat _).
  intros [H|[H|H]]; [right | by left | right];
    rewrite <- (take_drop n l); apply elem_of_app; [by left | by right].
Qed.

(** With distinct ids, looking up the ids of elements gives the elements. *)
Lemma lookupAll_self {A} (key : A -> jsstring) (kind : jsstring) (items moved : list A) :
  NoDup (map key items) -> (forall x, x ∈ moved -> x ∈ items) ->
  lookupAll kind (mapById key items) (map key moved) = Ok moved.
Proof.
  intros Hnd. induction moved as [|x l IH]; intros Hin; simpl; [done|].
  rewrite (mapById_lookup_NoDup key items x Hnd) by (apply Hin; left).
  rewrite IH; [done|]. intros y Hy. apply Hin. by right.
Qed.

(** X10: the id list that [handleDragEnd] of the scene list builds from a
    position within the list is the old list with the dragged id moved, so
    [reorderScenes] never throws on it; it stores scenes whose ids are that
    list, and, the ids being distinct, the old scenes with the dragged one
    moved to the destination clamped to the list. *)
Theorem scene_drag_reorders (sourceIndex destinationIndex : nat)
    (s : ProviderState) (sb : StoryboardData) :
  storyboardData s = Some sb ->
  sourceIndex < length (scenes sb) ->
  sourceIndex <> destinationIndex ->
  exists s' sb' dragged,
    handleSceneDragEnd sourceIndex (Some destinationIndex) s = Ok s'
    /\ storyboardData s' = Some sb'
    /\ scenes sb !! sourceIndex = Some dragged
    /\ map scene_id (scenes sb')
       = spliceInsert (Z.of_nat destinationIndex) (scene_id dragged)
           (delete sourceIndex (map scene_id (scenes sb)))
    /\ (NoDup (map scene_id (scenes sb)) ->
        scenes sb'
        = spliceInsert (Z.of_nat destinationIndex) dragged (delete sourceIndex (scenes sb))).
Proof.
  intros Hsb Hsrc Hne. unfold handleSceneDragEnd, moveId. rewrite Hsb.
  rewrite (proj2 (Nat.eqb_neq _ _) Hne).
  destruct (lookup_lt_is_Some_2 _ _ Hsrc) as [dragged Hdragged].
  assert (map scene_id (scenes sb) !! sourceIndex = Some (scene_id dragged)) as ->.
  { change (map scene_id (scenes sb)) with (scene_id <$> scenes sb).
    by rewrite list_lookup_fmap, Hdragged. }
  cbn [mbind option_bind].
  set (moved := spliceInsert (Z.of_nat destinationIndex) dragged
                  (delete sourceIndex (scenes sb))).
  assert (spliceInsert (Z.of_nat destinationIndex) (scene_id dragged)
            (delete sourceIndex (map scene_id (scenes sb)))
          = map scene_id moved) as Hids.
  { unfold moved. by rewrite map_spliceInsert, map_delete. }
  rewrite Hids.
  assert (forall x, x ∈ moved -> x ∈ scenes sb) as Hmoved.
  { intros x Hx. apply elem_of_spliceInsert in Hx as [->|Hx].
    - by eapply list_elem_of_lookup_2.
    - by eapply elem_of_delete. }
  unfold reorderScenes. rewrite Hsb.
  destruct (lookupAll_total (js "Scene") (mapById scene_id (scenes sb))
              (map scene_id moved)) as [xs Hxs].
  { intros id Hid. apply mapById_lookup_present.
    apply list_elem_of_In, in_map_iff in Hid as (x & <- & Hx).
    apply elem_of_map, Hmoved, list_elem_of_In, Hx. }
  rewrite Hxs. eexists _, _, dragged. split; [done|].
  rewrite storyboardData_commitScenes. split; [done|]. split; [done|]. simpl.
  split; [rewrite Hids; by eapply lookupAll_keys|].
  fold moved. intros Hnd.
  rewrite (lookupAll_self scene_id (js "Scene") (scenes sb) moved Hnd Hmoved) in Hxs.
  by injection Hxs as <-.
Qed.

Lemma scene_drag_reorders_witness :
  exists s' sb',
    handleSceneDragEnd 0 (Some 1) Sample.state0 = Ok s'
    /\ storyboardData s' = Some sb'
    /\ scenes sb' = [Sample.sceneB; Sample.sceneA].
Proof.
  assert (0 < length (scenes Sample.board)) as Hsrc by (simpl; lia).
  assert (0 <> 1) as Hne by lia.
  assert (NoDup (map scene_id (scenes Sample.board))) as Hnd by by_computation.
  destruct (scene_drag_reorders 0 1 Sample.state0 Sample.board eq_refl Hsrc Hne)
    as (s' & sb' & dragged & Hrun & Hdata & Hdragged & _ & Hscenes).
  exists s', sb'. split; [exact Hrun|]. split; [exact Hdata|].
  change (Some Sample.sceneA = Some dragged) in Hdragged. injection Hdragged as <-.
  exact (Hscenes Hnd).
Defined.

(** X11: the same for the shot list of a scene: with the shots of the
    scene as they are in the provider, the id list that [handleDragEnd]
    builds from a position within the list is accepted by [reorderShots],
    which stores for the scene shots with those ids, and, the shot ids of
    the scene being distinct, the old shots with the dragged one moved. *)
Theorem shot_drag_reorders (sceneId : jsstring) (sourceIndex destinationIndex : nat)
    (s : ProviderState) (sb : StoryboardData) (sc : SceneInfo) :
  storyboardData s = Some sb ->
  findScene sceneId (scenes sb) = Some sc ->
  sourceIndex < length (shots sc) ->
  sourceIndex <> destinationIndex ->
  exists s' sb' sc' dragged,
    handleShotDragEnd sceneId (shots sc) sourceIndex (Some destinationIndex) s = Ok s'
    /\ storyboardData s' = Some sb'
    /\ findScene sceneId (scenes sb') = Some sc'
    /\ shots sc !! sourceIndex = Some dragged
    /\ map shot_id (shots sc')
       = spliceInsert (Z.of_nat destinationIndex) (shot_id dragged)
           (delete sourceIndex (map shot_id (shots sc)))
    /\ (NoDup (map shot_id (shots sc)) ->
        shots sc'
        = spliceInsert (Z.of_nat destinationIndex) dragged (delete sourceIndex (shots sc))).
Proof.
  intros Hsb Hfind Hsrc Hne. unfold handleShotDragEnd, moveId.
  rewrite (proj2 (Nat.eqb_neq _ _) Hne).
  destruct (lookup_lt_is_Some_2 _ _ Hsrc) as [dragged Hdragged].
  assert (map shot_id (shots sc) !! sourceIndex = Some (shot_id dragged)) as ->.
  { change (map shot_id (shots sc)) with (shot_id <$> shots sc).
    by rewrite list_lookup_fmap, Hdragged. }
  cbn [mbind option_bind].
  set (moved := spliceInsert (Z.of_nat destinationIndex) dragged
                  (delete sourceIndex (shots sc))).
  assert (spliceInsert (Z.of_nat destinationIndex) (shot_id dragged)
            (delete sourceIndex (map shot_id (shots sc)))
          = map shot_id moved) as Hids.
  { unfold moved. by rewrite map_spliceInsert, map_delete. }
  rewrite Hids.
  assert (forall x, x ∈ moved -> x ∈ shots sc) as Hmoved.
  { intros x Hx. apply elem_of_spliceInsert in Hx as [->|Hx].
    - by eapply list_elem_of_lookup_2.
    - by eapply elem_of_delete. }
  unfold reorderShots. rewrite Hsb, Hfind.
  destruct (lookupAll_total (js "Shot") (mapById shot_id (shots sc))
              (map shot_id moved)) as [xs Hxs].
  { intros id Hid. apply mapById_lookup_present.
    apply list_elem_of_In, in_map_iff in Hid as (x & <- & Hx).
    apply elem_of_map, Hmoved, list_elem_of_In, Hx. }
  rewrite Hxs. eexists _, _, (withShots sc xs), dragged. split; [done|].
  rewrite storyboardData_commitScenes. split; [done|]. simpl.
  split; [by rewrite (findScene_map sceneId (fun x => withShots x xs) _ sc)|].
  split; [done|]. simpl.
  split; [rewrite Hids; by eapply lookupAll_keys|].
  fold moved. intros Hnd.
  rewrite (lookupAll_self shot_id (js "Shot") (shots sc) moved Hnd Hmoved) in Hxs.
  by injection Hxs as <-.
Qed.

Lemma shot_drag_reorders_witness :
  exists s' sb' sc',
    handleShotDragEnd (js "a") (shots Sample.sceneA) 1 (Some 0) Sample.state0 = Ok s'
    /\ storyboardData s' = Some sb'
    /\ findScene (js "a") (scenes sb') = Some sc'
    /\ shots sc' = [Sample.shotY; Sample.shotX].
Proof.
  assert (1 < length (shots Sample.sceneA)) as Hsrc by (simpl; lia).
  assert (1 <> 0) as Hne by lia.
  assert (NoDup (map shot_id (shots Sample.sceneA))) as Hnd by by_computation.
  destruct (shot_drag_reorders (js "a") 1 0 Sample.state0 Sample.board Sample.sceneA
              eq_refl eq_refl Hsrc Hne)
    as (s' & sb' & sc' & dragged & Hrun & Hdata & Hfind & Hdragged & _ & Hshots).
  exists s', sb', sc'. split; [exact Hrun|]. split; [exact Hdata|]. split; [exact Hfind|].
  change (Some Sample.shotY = Some dragged) in Hdragged. injection Hdragged as <-.
  exact (Hshots Hnd).
Defined.

End DragFacts.

(** ** Characters and their descriptions *)

Section CharacterFacts.
Import Doc StoryInput.

Local Abbreviation addMissing :=
  (fun (m : gmap jsstring jsstring) c => if propertyFalsy m c then <[c := []]> m else m).

(** What the effect leaves for a character: the description it has, else
    the empty one, unless the name reads as a member of the prototype. *)
Local Abbreviation kept m c :=
  (match m !! c with
   | Some description => Some description
   | None => if bool_decide (c ∈ objectPrototypeNames) then None else Some []
   end).

Lemma addMissing_lookup (m : gmap jsstring jsstring) (a c : jsstring) :
  addMissing m a !! c = if decide (c = a) then kept m c else m !! c.
Proof.
  unfold propertyFalsy. destruct (decide (c = a)) as [->|Hne].
  - destruct (m !! a) as [v|] eqn:Hv.
    + destruct v; cbn [truthy negb]; [by rewrite lookup_insert_eq | done].
    + destruct (bool_decide (a ∈ objectPrototypeNames)); cbn [negb];
        [done | by rewrite lookup_insert_eq].
  - destruct (m !! a) as [v|]; [destruct (truthy v) | destruct (bool_decide _)];
      cbn [negb]; by rewrite ?lookup_insert_ne.
Qed.

Lemma kept_addMissing (m : gmap jsstring jsstring) (a c : jsstring) :
  kept (addMissing m a) c = kept m c.
Proof.
  pose proof (addMissing_lookup m a c) as H. cbv beta in *. rewrite H.
  destruct (decide (c = a)) as [->|Hne]; [|done].
  destruct (m !! a); [done|]. by destruct (bool_decide _).
Qed.

Lemma foldl_addMissing_lookup (chars : list jsstring) : forall (m : gmap jsstring jsstring) c,
  foldl addMissing m chars !! c = if decide (c ∈ chars) then kept m c else m !! c.
Proof.
  induction chars as [|a chars IH]; intros m c; simpl.
  - destruct (decide (c ∈ [])) as [H|_]; [by apply elem_of_nil in H | done].
  - pose proof (kept_addMissing m a c) as Hkept.
    pose proof (addMissing_lookup m a c) as Hlook. cbv beta in *.
    rewrite IH, Hkept, Hlook.
    destruct (decide (c = a)) as [Heq|Hne]; destruct (decide (c ∈ chars)) as [Hin|Hnin];
      destruct (decide (_ ∈ _ :: _)) as [Hin'|Hnin']; try done.
    all: exfalso;
      first [ apply Hnin', elem_of_cons; tauto | apply elem_of_cons in Hin'; tauto ].
Qed.

Lemma syncDescriptions_lookup (chars : list jsstring) (m : gmap jsstring jsstring)
    (c : jsstring) :
  syncDescriptions chars m !! c = if decide (c ∈ chars) then kept m c else None.
Proof.
  unfold syncDescriptions. rewrite map_lookup_filter, foldl_addMissing_lookup.
  destruct (decide (c ∈ chars)) as [Hin|Hnin]; simpl.
  - destruct (m !! c); simpl; [by rewrite option_guard_True|].
    destruct (bool_decide _); simpl; [done | by rewrite option_guard_True].
  - destruct (m !! c); simpl; [by rewrite option_guard_False | done].
Qed.

Lemma syncDescriptions_twice (chars : list jsstring) (m : gmap jsstring jsstring) :
  syncDescriptions chars (syncDescriptions chars m) = syncDescriptions chars m.
Proof.
  apply map_eq. intros c. rewrite !syncDescriptions_lookup.
  destruct (decide (c ∈ chars)); [|done].
  destruct (m !! c); [done|]. by destruct (bool_decide _).
Qed.

(** X12: the provider's effect on the characters leaves, for each
    character, the description it had; a character without one gets the
    empty text, except that a character named like a member of
    [Object.prototype] ([constructor], [toString], ...) gets none, the
    test [!newDescriptions[character]] reading the inherited member; no
    other name keeps a description.  The effect copies the result into the
    style settings, leaves the descriptions with exactly the characters as
    keys when no character is named like a member of the prototype, and
    changes nothing when run again. *)
Theorem charactersEffect_descriptions (s : ProviderState) :
  (forall c, characterDescriptions (charactersEffect s) !! c
             = if decide (c ∈ characters s)
               then match characterDescriptions s !! c with
                    | Some description => Some description
                    | None =>
                        if bool_decide (c ∈ objectPrototypeNames) then None else Some []
                    end
               else None)
  /\ characters (charactersEffect s) = characters s
  /\ style_characterDescriptions (styleSettings (charactersEffect s))
     = Some (characterDescriptions (charactersEffect s))
  /\ (Forall (fun c => c ∉ objectPrototypeNames) (characters s) ->
      charactersSynced (charactersEffect s))
  /\ charactersEffect (charactersEffect s) = charactersEffect s.
Proof.
  assert (forall c, characterDescriptions (charactersEffect s) !! c
                    = if decide (c ∈ characters s)
                      then kept (characterDescriptions s) c else None) as Hlookup
    by (intros c; apply syncDescriptions_lookup).
  split; [done|]. split; [done|]. split; [done|]. split.
  - intros Hnames. split; [|done]. intros c. rewrite Hlookup. simpl.
    destruct (decide (c ∈ characters s)) as [Hin|Hnin].
    + split; [|done]. intros _. destruct (characterDescriptions s !! c); [by eexists|].
      rewrite Forall_forall in Hnames.
      rewrite (bool_decide_eq_false_2 _ (Hnames c Hin)). by eexists.
    + split; [done | by intros [? ?]].
  - unfold charactersEffect. simpl. by rewrite syncDescriptions_twice.
Qed.

Example charactersEffect_constructor :
  let s := charactersEffect (setCharacters [js "Alice"; js "constructor"] Sample.state0) in
  characterDescriptions s !! js "Alice" = Some []
  /\ characterDescriptions s !! js "constructor" = None.
Proof. split; vm_compute; reflexivity. Qed.

(** X13: a character with a non-empty name that is removed in
    [StoryInput] and then added again has the empty description, whatever
    it was, or none at all when it is named like a member of
    [Object.prototype]; the other characters stay, with the description
    that the effect leaves them. *)
Theorem readded_character_loses_description (c : jsstring) (s : ProviderState) :
  truthy c = true ->
  c ∈ characters (addCharacter c (removeCharacter c s))
  /\ characterDescriptions (addCharacter c (removeCharacter c s)) !! c
     = (if bool_decide (c ∈ objectPrototypeNames) then None else Some [])
  /\ (forall c', c' <> c ->
        c' ∈ characters s ->
        c' ∈ characters (addCharacter c (removeCharacter c s))
        /\ characterDescriptions (addCharacter c (removeCharacter c s)) !! c'
           = match characterDescriptions s !! c' with
             | Some description => Some description
             | None =>
                 if bool_decide (c' ∈ objectPrototypeNames) then None else Some []
             end).
Proof.
  intros Hc.
  set (s1 := removeCharacter c s).
  assert (characters s1 = filter (fun x => x <> c) (characters s)) as Hchars1 by done.
  assert (c ∉ characters s1) as Hnot.
  { rewrite Hchars1. intros [H _]%list_elem_of_filter. done. }
  assert (forall x, characterDescriptions s1 !! x
                    = if decide (x ∈ characters s1)
                      then kept (characterDescriptions s) x else None)
    as Hdesc1.
  { intros x.
    exact (syncDescriptions_lookup (filter (fun y => y <> c) (characters s))
             (characterDescriptions s) x). }
  unfold addCharacter. rewrite Hc, (bool_decide_eq_false_2 _ Hnot). simpl negb.
  cbn [andb].
  assert (forall x,
            characterDescriptions
              (charactersEffect (setCharacters (characters s1 ++ [c]) s1)) !! x
            = if decide (x ∈ characters s1 ++ [c])
              then kept (characterDescriptions s1) x else None) as Hlookup
    by (intros x;
        exact (syncDescriptions_lookup (characters s1 ++ [c]) (characterDescriptions s1) x)).
  simpl characters. split; [apply elem_of_app; right; left|].
  split.
  - rewrite Hlookup, decide_True by (apply elem_of_app; right; left).
    by rewrite Hdesc1, decide_False.
  - intros c' Hne Hin.
    assert (c' ∈ characters s1) as Hin1 by (rewrite Hchars1; by apply list_elem_of_filter).
    split; [apply elem_of_app; by left|].
    rewrite Hlookup, decide_True by (apply elem_of_app; by left).
    rewrite Hdesc1, decide_True by done.
    destruct (characterDescriptions s !! c'); [done|]. by destruct (bool_decide _).
Qed.

Lemma readded_character_loses_description_witness :
  characterDescriptions Sample.describedState !! js "Alice" = Some (js "tall")
  /\ characterDescriptions
       (addCharacter (js "Alice") (removeCharacter (js "Alice") Sample.describedState))
       !! js "Alice" = Some []
  /\ characterDescriptions
       (addCharacter (js "toString") (removeCharacter (js "toString") Sample.describedState))
       !! js "toString" = None.
Proof.
  split; [vm_compute; reflexivity|]. split.
  - exact (proj1 (proj2 (readded_character_loses_description
                           (js "Alice") Sample.describedState eq_refl))).
  - exact (proj1 (proj2 (readded_character_loses_description
                           (js "toString") Sample.describedState eq_refl))).
Defined.

End CharacterFacts.

(** ** Stored projects *)

Section StorageFacts.
Import Doc.

Lemma projectKey_inj (id id' : jsstring) : projectKey id = projectKey id' -> id = id'.
Proof. unfold projectKey. apply app_inv_head. Qed.

(** X14: [saveProject] writes the one entry of [localStorage] that is
    keyed by the id of the storyboard: the entry of a project with another
    id is kept, so that project loads as before; and saving again without
    a change stores the same. *)
Theorem saveProject_keeps_other_projects
    (s s2 : ProviderState) (sb : StoryboardData)
    (localStorage : gmap jsstring StoredItem) (id : jsstring) :
  storyboardData s = Some sb ->
  id <> sb_id sb ->
  (saveProject s localStorage).2 !! projectKey id = localStorage !! projectKey id
  /\ loadProject id (saveProject s localStorage).2 s2 = loadProject id localStorage s2
  /\ (saveProject (saveProject s localStorage).1 (saveProject s localStorage).2).2
     = (saveProject s localStorage).2.
Proof.
  intros Hsb Hne. unfold saveProject. rewrite Hsb. simpl.
  assert (forall v, <[projectKey (sb_id sb) := v]> localStorage !! projectKey id
                    = localStorage !! projectKey id) as Hother.
  { intros v. apply lookup_insert_ne. intros Heq%projectKey_inj. by apply Hne. }
  split; [apply Hother|]. split.
  - unfold loadProject. by rewrite Hother.
  - rewrite Hsb. simpl. by rewrite insert_insert_eq.
Qed.

Lemma saveProject_keeps_other_projects_witness :
  js "p2" <> sb_id Sample.board
  /\ loadProject (js "p2")
       (saveProject Sample.state0
          {[ projectKey (js "p2") := ProjectJson Sample.olderProject ]}).2
       Sample.describedState
     = loadProject (js "p2") {[ projectKey (js "p2") := ProjectJson Sample.olderProject ]}
         Sample.describedState.
Proof.
  assert (js "p2" <> sb_id Sample.board) as Hne by discriminate.
  split; [exact Hne|].
  apply (saveProject_keeps_other_projects Sample.state0 Sample.describedState Sample.board
           {[ projectKey (js "p2") := ProjectJson Sample.olderProject ]} (js "p2")
           eq_refl Hne).
Defined.

End StorageFacts.

(** ** Deleting in the second viewer *)

Section ViewerCursorFacts.
Import Doc Viewer.

Lemma allShots_sublist (F : SceneInfo -> SceneInfo) (scs : list SceneInfo) :
  (forall x, shots (F x) `sublist_of` shots x) ->
  allShots (map F scs) `sublist_of` allShots scs.
Proof.
  intros HF. unfold allShots. induction scs as [|y scs IH]; simpl; [done|].
  by apply sublist_app.
Qed.

Lemma allShots_sublist_scenes (scs scs' : list SceneInfo) :
  scs' `sublist_of` scs -> allShots scs' `sublist_of` allShots scs.
Proof.
  unfold allShots. induction 1; simpl; [done | by apply sublist_app | by apply sublist_inserts_l].
Qed.

Lemma idsUnique_sublist (sb : StoryboardData) (scs' : list SceneInfo) :
  idsUnique sb ->
  map scene_id scs' `sublist_of` map scene_id (scenes sb) ->
  allShots scs' `sublist_of` allShots (scenes sb) ->
  idsUnique (withScenes sb scs').
Proof.
  intros [H1 H2] Hsc Hsh. split; simpl.
  - eapply sublist_NoDup; [exact H1 | exact Hsc].
  - eapply sublist_NoDup; [exact H2|]. by apply (fmap_sublist shot_id).
Qed.

(** With unique ids, the scene that holds a shot with a given id is the
    only one. *)
Lemma shot_scene_unique (scs : list SceneInfo) (sc sc' : SceneInfo) (sh sh' : ShotInfo) :
  NoDup (map shot_id (allShots scs)) ->
  sc ∈ scs -> sc' ∈ scs -> sh ∈ shots sc -> sh' ∈ shots sc' ->
  shot_id sh = shot_id sh' -> sc = sc'.
Proof.
  unfold allShots. induction scs as [|y scs IH]; intros Hnd Hsc Hsc' Hsh Hsh' Heq.
  - by apply elem_of_nil in Hsc.
  - simpl in Hnd. rewrite map_app in Hnd.
    apply NoDup_app in Hnd as (_ & Hdisj & Hnd).
    assert (forall z zh, z ∈ scs -> zh ∈ shots z ->
                         shot_id zh ∈ map shot_id (concat (map shots scs))) as Hrest.
    { intros z zh Hz Hzh. apply elem_of_map, list_elem_of_In, in_concat.
      exists (shots z). split; apply list_elem_of_In; [by apply elem_of_map | done]. }
    apply elem_of_cons in Hsc as [->|Hsc]; apply elem_of_cons in Hsc' as [->|Hsc'].
    + done.
    + exfalso. apply (Hdisj (shot_id sh)); [by apply elem_of_map|].
      rewrite Heq. by apply (Hrest sc').
    + exfalso. apply (Hdisj (shot_id sh')); [by apply elem_of_map|].
      rewrite <- Heq. by apply (Hrest sc).
    + by apply (IH Hnd).
Qed.

Lemma filter_id_delete (scs : list SceneInfo) (d : nat) (x : SceneInfo) :
  NoDup (map scene_id scs) -> scs !! d = Some x ->
  filter (fun sc => scene_id sc <> scene_id x) scs = delete d scs.
Proof.
  revert d. induction scs as [|y scs IH]; intros d Hnd Hd; [done|].
  simpl in Hnd. apply NoDup_cons in Hnd as [Hy Hnd].
  destruct d as [|d]; simpl in *.
  - injection Hd as ->. rewrite filter_cons_False by tauto.
    apply filter_all, Forall_forall. intros z Hz Heq. apply Hy. rewrite <- Heq.
    by apply elem_of_map.
  - rewrite filter_cons_True.
    + f_equal. by apply IH.
    + intros Heq. apply Hy. rewrite Heq. apply elem_of_map.
      by eapply list_elem_of_lookup_2.
Qed.

Lemma scene_id_inj (scs : list SceneInfo) (x y : SceneInfo) :
  NoDup (map scene_id scs) -> x ∈ scs -> y ∈ scs -> scene_id x = scene_id y -> x = y.
Proof.
  induction scs as [|z scs IH]; intros Hnd Hx Hy Heq.
  - by apply elem_of_nil in Hx.
  - simpl in Hnd. apply NoDup_cons in Hnd as [Hz Hnd].
    apply elem_of_cons in Hx as [->|Hx]; apply elem_of_cons in Hy as [->|Hy].
    + done.
    + exfalso. apply Hz. rewrite Heq. by apply elem_of_map.
    + exfalso. apply Hz. rewrite <- Heq. by apply elem_of_map.
    + by apply IH.
Qed.

Lemma shots_sublist_allShots (scs : list SceneInfo) (sc : SceneInfo) :
  sc ∈ scs -> shots sc `sublist_of` allShots scs.
Proof.
  unfold allShots. induction scs as [|y scs IH]; intros Hin.
  - by apply elem_of_nil in Hin.
  - simpl. apply elem_of_cons in Hin as [->|Hin].
    + by apply sublist_inserts_r.
    + by apply sublist_inserts_l, IH.
Qed.

(** Confirming the delete of a shot whose scene has a second shot. *)
Lemma confirm_shot_safe (a : App) (sb : StoryboardData) (sc : SceneInfo) (sh : ShotInfo) :
  storyboardData (provider a) = Some sb ->
  idsUnique sb ->
  Forall (fun sc => shots sc <> []) (scenes sb) ->
  cursorValid sb (viewer a) ->
  confirmDelete (viewer a) = Some (shot, shot_id sh) ->
  sc ∈ scenes sb -> sh ∈ shots sc -> 2 <= length (shots sc) ->
  exists a', confirmDeleteItem a = Returned a'
             /\ viewerSafe a'
             /\ confirmDelete (viewer a') = None
             /\ provider a' = removeShot (scene_id sc) (shot_id sh) (provider a).
Proof.
  intros Hsb [Hscenes Hshots] Hfull (cur & Hcur & Hidx) Hpending Hsc Hsh Hlen.
  unfold confirmDeleteItem. rewrite Hsb, Hpending.
  destruct (find _ (scenes sb)) as [sc'|] eqn:Hfind.
  2:{ exfalso. pose proof (find_none _ _ Hfind sc (proj1 (list_elem_of_In _ _) Hsc)) as Hno.
      simpl in Hno. apply not_true_iff_false in Hno. apply Hno.
      apply existsb_exists. exists sh. split; [by apply list_elem_of_In|].
      by apply bool_decide_eq_true. }
  apply find_some in Hfind as [Hsc' Hex]. apply list_elem_of_In in Hsc'.
  apply existsb_exists in Hex as (sh' & Hsh' & Hid). apply list_elem_of_In in Hsh'.
  apply bool_decide_eq_true in Hid.
  assert (sc' = sc) as -> by (by eapply (shot_scene_unique (scenes sb) sc' sc sh' sh)).
  rewrite Hcur.
  set (F := fun scene : SceneInfo =>
              if decide (scene_id scene = scene_id sc)
              then withShots scene (filter (fun y => shot_id y <> shot_id sh) (shots scene))
              else scene).
  assert (storyboardData (removeShot (scene_id sc) (shot_id sh) (provider a))
          = Some (withScenes sb (map F (scenes sb)))) as Hdata.
  { unfold removeShot. rewrite Hsb. by rewrite storyboardData_commitScenes. }
  assert (NoDup (map shot_id (shots sc))) as Hnd.
  { eapply sublist_NoDup; [exact Hshots|].
    apply (fmap_sublist shot_id). by apply shots_sublist_allShots. }
  pose proof (filter_one_out (shot_id sh) (shots sc) sh Hnd Hsh eq_refl) as Hone.
  eexists. split; [reflexivity|]. split; [|done].
  exists (withScenes sb (map F (scenes sb))). split; [exact Hdata|]. split; [|split].
  - apply idsUnique_sublist; [by split| |].
    + rewrite map_map. erewrite map_ext; [reflexivity|].
      intros x. unfold F. by destruct (decide _).
    + apply allShots_sublist. intros x. unfold F.
      destruct (decide _); [apply sublist_filter | done].
  - simpl. apply Forall_forall. intros x Hx.
    apply list_elem_of_In, in_map_iff in Hx as (y & <- & Hy). apply list_elem_of_In in Hy.
    unfold F. destruct (decide (scene_id y = scene_id sc)) as [Heq|Hne].
    + rewrite (scene_id_inj (scenes sb) y sc Hscenes Hy Hsc Heq). simpl.
      intros Hnil. rewrite Hnil in Hone. simpl in Hone. lia.
    + rewrite Forall_forall in Hfull. by apply Hfull.
  - assert (map F (scenes sb) !! sceneIndex (currentShot (viewer a)) = Some (F cur)) as HFcur.
    { change (map F (scenes sb)) with (F <$> scenes sb).
      by rewrite list_lookup_fmap, Hcur. }
    assert (cur ∈ scenes sb) as Hcurin by (by eapply list_elem_of_lookup_2).
    destruct (decide (scene_id sc = scene_id cur)) as [Heq|Hne].
    + assert (cur = sc) as -> by (by apply (scene_id_inj (scenes sb) cur sc)).
      assert (length (shots (F sc)) = length (shots sc) - 1) as HlenF.
      { unfold F. rewrite decide_True by done. simpl. lia. }
      destruct (Nat.leb_spec (length (shots sc)) (S (shotIndex (currentShot (viewer a)))));
        exists (F sc); simpl; (split; [exact HFcur | lia]).
    + exists (F cur). simpl. split; [exact HFcur|].
      unfold F. by rewrite decide_False.
Qed.

(** Confirming the delete of a scene when the document has a second one. *)
Lemma confirm_scene_safe (a : App) (sb : StoryboardData) (id : jsstring) :
  storyboardData (provider a) = Some sb ->
  idsUnique sb ->
  Forall (fun sc => shots sc <> []) (scenes sb) ->
  cursorValid sb (viewer a) ->
  confirmDelete (viewer a) = Some (scene, id) ->
  2 <= length (scenes sb) ->
  exists a', confirmDeleteItem a = Returned a'
             /\ viewerSafe a'
             /\ confirmDelete (viewer a') = None
             /\ provider a' = removeScene id (provider a).
Proof.
  intros Hsb [Hscenes Hshots] Hfull (cur & Hcur & Hidx) Hpending Hlen.
  unfold confirmDeleteItem. rewrite Hsb, Hpending.
  assert (storyboardData (removeScene id (provider a))
          = Some (withScenes sb (filter (fun sc => scene_id sc <> id) (scenes sb)))) as Hdata.
  { unfold removeScene. rewrite Hsb. by rewrite storyboardData_commitScenes. }
  eexists. split; [reflexivity|]. split; [|done].
  exists (withScenes sb (filter (fun sc => scene_id sc <> id) (scenes sb))).
  split; [exact Hdata|]. split; [|split].
  - apply idsUnique_sublist; [by split| |].
    + apply (fmap_sublist scene_id), sublist_filter.
    + apply allShots_sublist_scenes, sublist_filter.
  - simpl. by apply Forall_filter_keep.
  - simpl scenes.
    destruct (list_find (fun sc => scene_id sc = id) (scenes sb)) as [[d x]|] eqn:Hfind.
    + apply list_find_Some in Hfind as (Hd & <- & _).
      rewrite (filter_id_delete (scenes sb) d x Hscenes Hd).
      assert (d < length (scenes sb)) as Hdlt by (by eapply lookup_lt_Some).
      assert (sceneIndex (currentShot (viewer a)) < length (scenes sb)) as Hclt
        by (by eapply lookup_lt_Some).
      assert (length (delete d (scenes sb)) = length (scenes sb) - 1) as Hdel
        by (apply length_delete; by eexists).
      destruct (Nat.leb_spec d (sceneIndex (currentShot (viewer a)))) as [Hle|Hgt].
      * destruct (lookup_lt_is_Some_2 (delete d (scenes sb))
                    (sceneIndex (currentShot (viewer a)) - 1)) as [y Hy]; [lia|].
        exists y. simpl. split; [exact Hy|].
        assert (y ∈ scenes sb) as Hyin.
        { eapply elem_of_delete. by eapply list_elem_of_lookup_2. }
        rewrite Forall_forall in Hfull. specialize (Hfull y Hyin).
        destruct (shots y); [done | simpl; lia].
      * exists cur. simpl. split; [|done].
        by rewrite list_lookup_delete_lt.
    + apply list_find_None in Hfind.
      rewrite filter_all; [by exists cur|].
      eapply Forall_impl; [exact Hfind|]. done.
Qed.

(** X15: in the second [StoryboardViewer], on a document with unique ids in
    which every scene has a shot and with the cursor on a shot, a delete as
    the user does it (the delete button of the current shot or of a shot
    given with the scene that holds it, of the current scene or of a scene
    given by id, and then the confirm button) never fails and leaves a
    document with unique ids in which every scene has a shot and the cursor
    is on a shot: the last shot of a scene and the last scene are not
    deleted, and the cursor is moved back when its shot or scene goes. *)
Theorem second_viewer_delete_keeps_cursor (a : App) (sb : StoryboardData) :
  storyboardData (provider a) = Some sb ->
  viewerSafe a ->
  confirmDelete (viewer a) = None ->
  (exists a', thenConfirm (Second.handleDeleteShot None None a) = Returned a'
              /\ viewerSafe a')
  /\ (forall sceneId shotId sc,
        findScene sceneId (scenes sb) = Some sc ->
        shotId ∈ map shot_id (shots sc) ->
        exists a', thenConfirm (Second.handleDeleteShot (Some sceneId) (Some shotId) a)
                   = Returned a'
                   /\ viewerSafe a')
  /\ (forall sceneId,
        exists a', thenConfirm (Second.handleDeleteScene sceneId a) = Returned a'
                   /\ viewerSafe a').
Proof.
  intros Hsb Hsafe Hidle.
  pose proof Hsafe as (sb0 & Hsb0 & Hunique & Hfull & Hcursor).
  assert (sb0 = sb) as -> by congruence.
  pose proof Hcursor as (cur & Hcur & Hidx).
  assert (confirmDeleteItem a = Returned a) as Hsame by (by apply confirmDeleteItem_idle).
  split; [|split].
  - unfold Second.handleDeleteShot. rewrite Hsb, Hcur. simpl.
    destruct (Nat.leb_spec (length (shots cur)) 1) as [Hle|Hgt].
    { exists a. by split. }
    destruct (lookup_lt_is_Some_2 (shots cur) _ Hidx) as [sh Hsh]. rewrite Hsh. simpl.
    destruct (confirm_shot_safe
                (mkApp (provider a) (setConfirmDelete (Some (shot, shot_id sh)) (viewer a)))
                sb cur sh) as (a' & Hrun & Ha' & _); try done.
    + by eapply list_elem_of_lookup_2.
    + by eapply list_elem_of_lookup_2.
    + by exists a'.
  - intros sceneId shotId sc Hfind Hin.
    unfold Second.handleDeleteShot. rewrite Hsb.
    destruct (given (Some sceneId) && given (Some shotId)) eqn:Hgiven.
    + simpl. rewrite Hfind.
      destruct (Nat.leb_spec (length (shots sc)) 1) as [Hle|Hgt].
      { exists a. by split. }
      apply list_elem_of_In, in_map_iff in Hin as (sh & <- & Hsh).
      apply list_elem_of_In in Hsh. apply findScene_Some in Hfind as [Hsc _]. simpl.
      destruct (confirm_shot_safe
                  (mkApp (provider a) (setConfirmDelete (Some (shot, shot_id sh)) (viewer a)))
                  sb sc sh) as (a' & Hrun & Ha' & _); try done.
      by exists a'.
    + rewrite Hcur.
      destruct (Nat.leb_spec (length (shots cur)) 1) as [Hle|Hgt].
      { exists a. by split. }
      destruct (lookup_lt_is_Some_2 (shots cur) _ Hidx) as [sh Hsh]. rewrite Hsh. simpl.
      destruct (confirm_shot_safe
                  (mkApp (provider a) (setConfirmDelete (Some (shot, shot_id sh)) (viewer a)))
                  sb cur sh) as (a' & Hrun & Ha' & _); try done.
      * by eapply list_elem_of_lookup_2.
      * by eapply list_elem_of_lookup_2.
      * by exists a'.
  - intros sceneId. unfold Second.handleDeleteScene. rewrite Hsb.
    destruct (Nat.leb_spec (length (scenes sb)) 1) as [Hle|Hgt].
    { exists a. destruct (given sceneId); by split. }
    destruct (given sceneId); [|rewrite Hcur]; simpl.
    + destruct (confirm_scene_safe
                  (mkApp (provider a)
                     (setConfirmDelete (Some (scene, default [] sceneId)) (viewer a)))
                  sb (default [] sceneId)) as (a' & Hrun & Ha' & _); try done.
      by exists a'.
    + destruct (confirm_scene_safe
                  (mkApp (provider a)
                     (setConfirmDelete (Some (scene, scene_id cur)) (viewer a)))
                  sb (scene_id cur)) as (a' & Hrun & Ha' & _); try done.
      by exists a'.
Qed.

Lemma second_viewer_delete_keeps_cursor_witness :
  viewerSafe Sample.viewerApp
  /\ exists a', thenConfirm (Second.handleDeleteShot None None Sample.viewerApp) = Returned a'
                /\ viewerSafe a'.
Proof.
  assert (viewerSafe Sample.viewerApp) as Hsafe.
  { exists Sample.board. split; [reflexivity|]. split; [split; by_computation|]. split.
    - constructor; [discriminate|]. constructor; [discriminate | constructor].
    - exists Sample.sceneA. split; [reflexivity | simpl; lia]. }
  split; [exact Hsafe|].
  apply (second_viewer_delete_keeps_cursor Sample.viewerApp Sample.board eq_refl Hsafe eq_refl).
Defined.

End ViewerCursorFacts.

(** ** The request queue at rest, and the placeholder URLs *)

Section QueueRestFacts.
Import ImageQueue.

(** X16: for every sequence of calls, timer firings and API returns on
    either image service, at most one request is in progress at a time
    (none is ever suspended in [FalImageService]); the requests are taken in
    the order of the calls, none skipped and none twice; and when the worker
    is left to run, every request has been taken, each promise whose
    placeholder URL could be built is resolved, in the order of the calls,
    and the worker comes to rest: nothing queued, nothing in progress, no
    timer pending. *)
Theorem queue_serves_in_order_and_rests
    (a : Adapter) (key : jsstring) (tasks : list Task) (l : Loop) (fuel : nat) :
  runAll a tasks (start key) = Some l ->
  workLeft l <= fuel ->
  length (awaiting l) <= 1
  /\ (a = FalAdapter -> awaiting l = [])
  /\ (exists k, k <= length (submitted tasks)
                /\ resolved l = omap (resolution a) (take k (submitted tasks))
                /\ awaiting l ++ requestQueue (service l) = drop k (submitted tasks))
  /\ resolved (drain a fuel l) = omap (resolution a) (submitted tasks)
  /\ requestQueue (service (drain a fuel l)) = []
  /\ awaiting (drain a fuel l) = []
  /\ timers (drain a fuel l) = 0
  /\ isProcessing (service (drain a fuel l)) = false
  /\ (Forall (fun e => is_Some (placeholderFor a (prompt e))) (submitted tasks) ->
      map fst (resolved (drain a fuel l)) = map ticket (submitted tasks)).
Proof.
  intros Hrun Hfuel. pose proof (queue_invariant_reachable a key tasks l Hrun) as Hinv.
  destruct (drain_resolved a _ fuel l Hinv Hfuel) as (Hres & Hq & Hw).
  destruct (drain_finishes a _ fuel l Hinv Hfuel) as [Hinv' Hrest].
  pose proof Hinv as [Hfifo Hone _ _ Hfal].
  split; [done|]. split; [done|]. split; [done|]. split; [done|].
  split; [done|]. split; [done|]. split.
  { unfold workLeft in Hrest. lia. }
  split.
  { destruct Hinv' as [_ _ Hflag _ _]. rewrite Hflag, Hw.
    apply bool_decide_eq_false_2. intros H. by apply H. }
  rewrite Hres. clear. induction 1 as [|e es [u Hu] _ IH]; simpl; [done|].
  unfold resolution at 1. rewrite Hu. simpl. f_equal. exact IH.
Qed.

Lemma queue_serves_in_order_and_rests_witness :
  exists l,
    runAll GenericAdapter [Call 0 (js "a"); Call 1 (js "b"); TimerFires] (start []) = Some l
    /\ workLeft l <= 2
    /\ map fst (resolved (drain GenericAdapter 2 l)) = [0; 1]
    /\ timers (drain GenericAdapter 2 l) = 0.
Proof.
  eexists. split; [reflexivity|].
  match goal with |- workLeft ?l <= 2 /\ _ =>
    assert (workLeft l <= 2) as Hfuel by (vm_compute; lia);
    pose proof (queue_serves_in_order_and_rests GenericAdapter []
                  [Call 0 (js "a"); Call 1 (js "b"); TimerFires] l 2 eq_refl Hfuel)
      as (_ & _ & _ & _ & _ & _ & Htimers & _ & Horder)
  end.
  split; [exact Hfuel|]. split; [|exact Htimers].
  apply Horder. repeat constructor; by eexists.
Defined.

End QueueRestFacts.

Section UrlFacts.
Import ImageQueue.

Lemma hexDigit_safe (d : N) : (d < 16)%N -> isUnreserved (hexDigit d) = true.
Proof.
  intros Hd.
  assert (forallb (fun n => isUnreserved (hexDigit (N.of_nat n))) (seq 0 16) = true) as Hall
    by (vm_compute; reflexivity).
  rewrite forallb_forall in Hall. specialize (Hall (N.to_nat d)).
  rewrite N2Nat.id in Hall. apply Hall, in_seq. lia.
Qed.

Lemma percent_safe (octet : N) :
  (octet < 256)%N -> Forall (fun c => isUrlSafe c = true) (percent octet).
Proof.
  intros Ho. unfold percent, isUrlSafe.
  constructor; [done|]. constructor.
  { rewrite hexDigit_safe; [done|]. apply N.Div0.div_lt_upper_bound. lia. }
  constructor; [|constructor].
  rewrite hexDigit_safe; [done|]. by apply N.mod_lt.
Qed.

Lemma flat_map_percent_safe (octets : list N) :
  Forall (fun o => (o < 256)%N) octets ->
  Forall (fun c => isUrlSafe c = true) (flat_map percent octets)
  /\ length (flat_map percent octets) = 3 * length octets.
Proof.
  induction 1 as [|o l Ho _ [IH1 IH2]]; simpl; [by split|].
  split; [|lia].
  pose proof (percent_safe o Ho) as Hp. unfold percent in Hp.
  inversion Hp as [|? ? H1 Hp1]; subst. inversion Hp1 as [|? ? H2 Hp2]; subst.
  inversion Hp2 as [|? ? H3 _]; subst. by repeat constructor.
Qed.

Lemma utf8_octets (cp : N) :
  (cp < 1114112)%N ->
  Forall (fun o => (o < 256)%N) (utf8 cp)
  /\ length (utf8 cp) <= 4
  /\ ((cp < 65536)%N -> length (utf8 cp) <= 3).
Proof.
  intros Hcp. unfold utf8.
  destruct (N.ltb_spec cp 128); [repeat split; simpl; try lia; repeat constructor; lia|].
  destruct (N.ltb_spec cp 2048).
  { repeat split; simpl; try lia. repeat constructor.
    - assert (cp / 64 < 32)%N by (apply N.Div0.div_lt_upper_bound; lia). lia.
    - assert (cp mod 64 < 64)%N by (by apply N.mod_lt). lia. }
  destruct (N.ltb_spec cp 65536).
  { repeat split; simpl; try lia. repeat constructor.
    - assert (cp / 4096 < 16)%N by (apply N.Div0.div_lt_upper_bound; lia). lia.
    - assert ((cp / 64) mod 64 < 64)%N by (by apply N.mod_lt). lia.
    - assert (cp mod 64 < 64)%N by (by apply N.mod_lt). lia. }
  repeat split; simpl; try lia. repeat constructor.
  - assert (cp / 262144 < 5)%N by (apply N.Div0.div_lt_upper_bound; lia). lia.
  - assert ((cp / 4096) mod 64 < 64)%N by (by apply N.mod_lt). lia.
  - assert ((cp / 64) mod 64 < 64)%N by (by apply N.mod_lt). lia.
  - assert (cp mod 64 < 64)%N by (by apply N.mod_lt). lia.
Qed.

(** The encoding of a string of code units is made of unreserved characters
    and percent escapes, at most nine characters for a code unit. *)
Lemma encodeURIComponent_safe : forall (n : nat) (s q : jsstring),
  length s <= n ->
  Forall (fun c => isCodeUnit c = true) s ->
  encodeURIComponent s = Some q ->
  Forall (fun c => isUrlSafe c = true) q /\ length q <= 9 * length s.
Proof.
  induction n as [|n IH]; intros s q Hlen Hunits Henc.
  { destruct s; [|simpl in Hlen; lia]. injection Henc as <-. by split. }
  destruct s as [|c s']; [injection Henc as <-; by split|].
  apply Forall_cons in Hunits as [Hc Hunits]. simpl in Hlen.
  unfold isCodeUnit in Hc. apply N.ltb_lt in Hc.
  cbn [encodeURIComponent] in Henc.
  destruct (isUnreserved c) eqn:Hun.
  { destruct (encodeURIComponent s') as [q'|] eqn:Hq'; [|done].
    simpl in Henc. injection Henc as <-.
    destruct (IH s' q' ltac:(lia) Hunits Hq') as [H1 H2].
    split; [|simpl; lia]. constructor; [|done]. unfold isUrlSafe. by rewrite Hun. }
  destruct (isLowSurrogate c) eqn:Hlow; [done|].
  destruct (isHighSurrogate c) eqn:Hhigh.
  - destruct s' as [|k s'']; [done|].
    destruct (isLowSurrogate k) eqn:Hk; [|done].
    apply Forall_cons in Hunits as [_ Hunits]. simpl in Hlen.
    destruct (encodeURIComponent s'') as [q'|] eqn:Hq'; [|done].
    simpl in Henc. injection Henc as <-.
    destruct (IH s'' q' ltac:(lia) Hunits Hq') as [H1 H2].
    unfold isHighSurrogate in Hhigh. unfold isLowSurrogate in Hk.
    apply andb_true_iff in Hhigh as [Hh1 Hh2]. apply andb_true_iff in Hk as [Hk1 Hk2].
    apply N.leb_le in Hh1, Hh2, Hk1, Hk2.
    destruct (utf8_octets ((c - 55296) * 1024 + (k - 56320) + 65536)) as (Ho & Hl & _);
      [lia|].
    destruct (flat_map_percent_safe _ Ho) as [Hs Hlen3].
    split; [by apply Forall_app|]. rewrite length_app, Hlen3. simpl. lia.
  - destruct (encodeURIComponent s') as [q'|] eqn:Hq'; [|done].
    simpl in Henc. injection Henc as <-.
    destruct (IH s' q' ltac:(lia) Hunits Hq') as [H1 H2].
    destruct (utf8_octets c) as (Ho & _ & Hl); [lia|].
    destruct (flat_map_percent_safe _ Ho) as [Hs Hlen3].
    split; [by apply Forall_app|]. rewrite length_app, Hlen3. simpl.
    specialize (Hl Hc). lia.
Qed.

(** A string without surrogates can be encoded. *)
Lemma encodeURIComponent_total (s : jsstring) :
  Forall (fun c => isSurrogate c = false) s -> is_Some (encodeURIComponent s).
Proof.
  induction 1 as [|c s Hc _ [q IH]]; [by eexists|].
  unfold isSurrogate in Hc. apply orb_false_iff in Hc as [Hhigh Hlow].
  cbn [encodeURIComponent]. rewrite Hlow, Hhigh, IH.
  destruct (isUnreserved c); by eexists.
Qed.

(** X17: the placeholder URL that either service builds for a prompt of
    UTF-16 code units is the fixed prefix followed by a query made of
    unreserved characters and percent escapes only, at most nine characters
    for each code unit encoded, so at most 900 in [FalImageService], which
    encodes the first 100 code units; and for a prompt without surrogate
    code units the URL can always be built. *)
Theorem placeholder_url_shape (a : Adapter) (p : jsstring) :
  Forall (fun c => isCodeUnit c = true) p ->
  (forall url, placeholderFor a p = Some url ->
     exists query,
       url = placeholderPrefix ++ query
       /\ Forall (fun c => isUrlSafe c = true) query
       /\ length query <= 9 * length p
       /\ (a = FalAdapter -> length query <= 900))
  /\ (Forall (fun c => isSurrogate c = false) p -> is_Some (placeholderFor a p)).
Proof.
  intros Hunits. split.
  - intros url. rewrite placeholderFor_spec.
    destruct (encodeURIComponent _) as [q|] eqn:Hq; [|done].
    intros [= <-]. exists q. split; [done|].
    destruct a.
    + destruct (encodeURIComponent_safe _ _ q (Nat.le_refl _)
                  (Forall_take _ 100 _ Hunits) Hq) as [H1 H2].
      unfold substring0 in H2. rewrite length_take in H2.
      split; [done|]. split; [lia|]. intros _. lia.
    + destruct (encodeURIComponent_safe _ _ q (Nat.le_refl _) Hunits Hq) as [H1 H2].
      by repeat split.
  - intros Hplain. rewrite placeholderFor_spec.
    destruct (encodeURIComponent_total
                match a with FalAdapter => substring0 100 p | GenericAdapter => p end)
      as [q ->]; [|by eexists].
    destruct a; [by apply Forall_take | done].
Qed.

Lemma placeholder_url_shape_witness :
  Forall (fun c => isCodeUnit c = true) (js "a b")
  /\ exists query,
       js "/placeholder.svg?height=450&width=800&query=a%20b" = placeholderPrefix ++ query
       /\ Forall (fun c => isUrlSafe c = true) query.
Proof.
  assert (Forall (fun c => isCodeUnit c = true) (js "a b")) as Hunits
    by (repeat constructor).
  split; [exact Hunits|].
  destruct (proj1 (placeholder_url_shape FalAdapter (js "a b") Hunits)
              (js "/placeholder.svg?height=450&width=800&query=a%20b") eq_refl)
    as (query & Hurl & Hsafe & _).
  by exists query.
Defined.

End UrlFacts.

(** ** Paging and zooming in the print preview *)

Section ViewFacts.
Import Doc PrintPreview.

(** X18: whatever the user does in the print preview after the pages were
    generated (next and previous page, zoom in, zoom out, reset, and any
    regeneration of the pages), the zoom level stays a multiple of 10
    between 50 and 200, [totalPages] is the number of preview pages, and the
    current page is at least 1 and, when there is a page at all, names one
    of the preview pages, so that [previewPages[currentPage - 1]] is
    there to render. *)
Theorem preview_view_stays_in_range
    (settings : PrintSettings) (sb : StoryboardData) (events : list ViewEvent) :
  let v := foldl handle (pagesGenerated settings sb initialView) events in
  50 <= zoomLevel v <= 200
  /\ zoomLevel v mod 10 = 0
  /\ totalPages v = length (view_previewPages v)
  /\ 1 <= currentPage v
  /\ (view_previewPages v <> [] ->
      is_Some (view_previewPages v !! (currentPage v - 1))).
Proof.
  simpl.
  set (inv := fun v : View =>
                50 <= zoomLevel v <= 200
                /\ zoomLevel v mod 10 = 0
                /\ totalPages v = length (view_previewPages v)
                /\ 1 <= currentPage v
                /\ (currentPage v <= totalPages v \/ currentPage v = 1)).
  assert (inv (pagesGenerated settings sb initialView)) as Hstart.
  { unfold inv. simpl. split; [lia|]. split; [done|]. split; [done|]. split; [lia|].
    by right. }
  assert (forall v e, inv v -> inv (handle v e)) as Hstep.
  { intros v e (Hz & Hm & Ht & Hp & Hq). unfold inv.
    destruct e; unfold handle, zoomIn, zoomOut, resetZoom, pagesGenerated;
      cbn [zoomLevel totalPages currentPage view_previewPages].
    - unfold goToNextPage. destruct (Nat.ltb_spec (currentPage v) (totalPages v));
        cbn [zoomLevel totalPages currentPage view_previewPages].
      + split; [done|]. split; [done|]. split; [done|]. split; [lia|]. left. lia.
      + done.
    - unfold goToPrevPage. destruct (Nat.ltb_spec 1 (currentPage v));
        cbn [zoomLevel totalPages currentPage view_previewPages].
      + split; [done|]. split; [done|]. split; [done|]. split; [lia|]. left. lia.
      + done.
    - split; [lia|]. split; [|done].
      destruct (Nat.min_spec (zoomLevel v + 10) 200) as [[_ ->]|[_ ->]]; [|done].
      by rewrite <- (Nat.Div0.add_mod_idemp_l (zoomLevel v) 10), Hm.
    - split; [lia|]. split; [|done].
      destruct (Nat.max_spec (zoomLevel v - 10) 50) as [[_ ->]|[Hle ->]]; [done|].
      apply Nat.Div0.mod_divides in Hm as [k Hk].
      apply Nat.Div0.mod_divides. exists (k - 1). lia.
    - split; [lia|]. by split.
    - split; [done|]. split; [done|]. split; [done|]. split; [lia|]. by right. }
  assert (inv (foldl handle (pagesGenerated settings sb initialView) events)) as Hinv.
  { revert Hstart. generalize (pagesGenerated settings sb initialView).
    induction events as [|e events IH]; intros v Hv; simpl; [done|].
    apply IH, Hstep, Hv. }
  destruct Hinv as (Hz & Hm & Ht & Hp & Hq).
  split; [done|]. split; [done|]. split; [done|]. split; [done|].
  intros Hpages. apply lookup_lt_is_Some_2.
  destruct (view_previewPages _) as [|pg pgs]; [done|]. simpl in *. lia.
Qed.

Lemma placeShot_zero (scene : SceneInfo) (c : Cursor) (shot : ShotInfo) :
  placeShot 0 scene c shot = placeShot 1 scene c shot.
Proof. unfold placeShot. simpl. rewrite length_app. simpl. by rewrite Nat.add_1_r. Qed.

(** X19: a limit of 0 shots per page (below the slider's minimum) makes
    the pagination behave as with a limit of 1, the detailed layout: a page
    is closed after every shot. *)
Theorem previewPages_zero_limit (settings : PrintSettings) (sb : StoryboardData) :
  perPage settings = 0 ->
  previewPages settings sb
  = previewPages (mkPrintSettings detailed (shotsPerPage settings)) sb
  /\ Forall (fun pg => length (page_shots pg) = 1) (previewPages settings sb)
  /\ length (previewPages settings sb) = totalShots (scenes sb).
Proof.
  intros Hzero.
  assert (previewPages settings sb
          = previewPages (mkPrintSettings detailed (shotsPerPage settings)) sb) as Heq.
  { unfold previewPages. rewrite Hzero. simpl. f_equal.
    generalize startCursor. induction (scenes sb) as [|sc scs IH]; intros c; simpl; [done|].
    rewrite IH. f_equal. unfold placeScene.
    generalize (mkCursor (pages (if breakBefore sc c then pushPage c else c))
                  (currentPageShots (if breakBefore sc c then pushPage c else c))
                  (currentPageNumber (if breakBefore sc c then pushPage c else c))
                  (Some (mkSceneHeader (scene_id sc) origin))).
    induction (shots sc) as [|sh shs IHs]; intros c'; simpl; [done|].
    by rewrite placeShot_zero, IHs. }
  split; [exact Heq|]. rewrite Heq.
  destruct (pages_of_scenes 1 (Nat.le_refl 1) (scenes sb)) as (Hsize & Hcontent & _).
  unfold previewPages. simpl.
  assert (Forall (fun pg => length (page_shots pg) = 1)
                 (lastPage (foldl (placeScene 1) startCursor (scenes sb)))) as Hone.
  { eapply Forall_impl; [exact Hsize|]. simpl. intros pg Hpg. lia. }
  split; [exact Hone|].
  change (perPage (mkPrintSettings detailed (shotsPerPage settings))) with 1.
  rewrite <- allPageShots_length, <- Hcontent.
  revert Hone. generalize (lastPage (foldl (placeScene 1) startCursor (scenes sb))).
  clear. intros pgs Hone. induction Hone as [|pg pgs Hpg _ IH]; simpl; [done|].
  rewrite length_app, Hpg, <- IH. done.
Qed.

Lemma previewPages_zero_limit_witness :
  perPage (mkPrintSettings grid 0) = 0
  /\ length (previewPages (mkPrintSettings grid 0) Sample.board) = 3.
Proof.
  split; [reflexivity|].
  apply (previewPages_zero_limit (mkPrintSettings grid 0) Sample.board eq_refl).
Defined.

End ViewFacts.

(** ** File names for exports *)

Section ExportFacts.
Import ExportUtils.

Lemma collapseUnderscores_chars (P : N -> Prop) (s : jsstring) :
  Forall P s -> Forall P (collapseUnderscores s).
Proof.
  induction 1 as [|c s Hc Hs IH]; [constructor|].
  cbn [collapseUnderscores]. destruct s as [|d s']; [by constructor|].
  destruct ((c =? 95)%N && (d =? 95)%N); [exact IH | by constructor].
Qed.

Lemma collapseUnderscores_starts (d : N) (s' rest : jsstring) :
  collapseUnderscores (d :: s') = rest -> exists rest', rest = d :: rest'.
Proof.
  revert d rest. induction s' as [|e s'' IH]; intros d rest Hrest.
  - simpl in Hrest. subst. by eexists.
  - cbn [collapseUnderscores] in Hrest.
    destruct ((d =? 95)%N && (e =? 95)%N) eqn:Hde.
    + apply andb_true_iff in Hde as [Hd%N.eqb_eq He%N.eqb_eq]. subst d e.
      by apply (IH 95%N).
    + subst. by eexists.
Qed.

Lemma collapseUnderscores_noDouble (s : jsstring) :
  noDoubleUnderscore (collapseUnderscores s).
Proof.
  induction s as [|c s IH]; [done|].
  cbn [collapseUnderscores]. destruct s as [|d s']; [done|].
  destruct ((c =? 95)%N && (d =? 95)%N) eqn:Hcd; [exact IH|].
  destruct (collapseUnderscores_starts d s' _ eq_refl) as [rest' Hrest].
  rewrite Hrest in *. cbn [noDoubleUnderscore]. split; [|exact IH].
  intros [-> ->]. by rewrite !N.eqb_refl in Hcd.
Qed.

Lemma collapseUnderscores_id (s : jsstring) :
  noDoubleUnderscore s -> collapseUnderscores s = s.
Proof.
  induction s as [|c s IH]; intros Hs; [done|].
  cbn [collapseUnderscores]. destruct s as [|d s']; [done|].
  cbn [noDoubleUnderscore] in Hs. destruct Hs as [Hcd Hs].
  destruct ((c =? 95)%N && (d =? 95)%N) eqn:Hb.
  - apply andb_true_iff in Hb as [Hc%N.eqb_eq Hd%N.eqb_eq]. by destruct Hcd.
  - by rewrite IH.
Qed.

Lemma replaceSpaceRuns_id (s : jsstring) (inrun : bool) :
  Forall (fun c => isWhiteSpace c = false) s -> replaceSpaceRuns s inrun = s.
Proof.
  intros Hs. revert inrun. induction Hs as [|c s Hc _ IH]; intros inrun; simpl; [done|].
  by rewrite Hc, IH.
Qed.

Lemma isFilenameChar_not_space (c : N) : isFilenameChar c = true -> isWhiteSpace c = false.
Proof.
  unfold isFilenameChar, isWord, isUpper, isLower, isDigit, isWhiteSpace. intros H.
  repeat (apply orb_true_iff in H as [H|H]);
    repeat match goal with
           | H : (_ && _) = true |- _ => apply andb_true_iff in H as [? ?]
           | H : (_ <=? _)%N = true |- _ => apply N.leb_le in H
           | H : (_ =? _)%N = true |- _ => apply N.eqb_eq in H
           end;
    repeat (apply orb_false_iff; split);
    try (apply andb_false_iff; (left + right));
    try (apply N.eqb_neq; lia); try (apply N.leb_gt; lia).
Qed.

(** X20: the file name that [sanitizeFilename] returns is made of word
    characters, hyphens and dots only (so it has no white space), no
    underscore in it is followed by another one, and sanitizing it again
    gives the same name. *)
Theorem sanitizeFilename_clean (filename : jsstring) :
  Forall (fun c => isFilenameChar c = true) (sanitizeFilename filename)
  /\ noDoubleUnderscore (sanitizeFilename filename)
  /\ sanitizeFilename (sanitizeFilename filename) = sanitizeFilename filename.
Proof.
  assert (Forall (fun c => isFilenameChar c = true) (sanitizeFilename filename)) as Hchars.
  { unfold sanitizeFilename. apply collapseUnderscores_chars.
    apply Forall_forall. intros c Hc. by apply list_elem_of_filter in Hc as [Hc _]. }
  pose proof (collapseUnderscores_noDouble
                (filter (fun c => isFilenameChar c = true) (replaceSpaceRuns filename false)))
    as Hclean.
  split; [exact Hchars|]. split; [exact Hclean|].
  fold (sanitizeFilename filename) in Hclean.
  unfold sanitizeFilename at 1.
  rewrite replaceSpaceRuns_id.
  - rewrite filter_all by exact Hchars. by apply collapseUnderscores_id.
  - eapply Forall_impl; [exact Hchars|]. apply isFilenameChar_not_space.
Qed.

Example sanitizeFilename_sample :
  sanitizeFilename (js "My  Story: part_ #1.pdf") = js "My_Story_part_1.pdf".
Proof. vm_compute. reflexivity. Qed.

End ExportFacts.

(** ** Titles *)

Section TitleFacts.
Import Generator.

Lemma splitAt_nonempty (c : N) (s : jsstring) : splitAt c s <> [].
Proof.
  destruct s as [|x s]; simpl; [done|].
  destruct (x =? c)%N; [done|]. by destruct (splitAt c s).
Qed.

Lemma join_cons2 (sep x y : jsstring) (l : list jsstring) :
  join sep (x :: y :: l) = x ++ sep ++ join sep (y :: l).
Proof. done. Qed.

(** Splitting at a character and joining with it gives the text back. *)
Lemma join_splitAt (c : N) (s : jsstring) : join [c] (splitAt c s) = s.
Proof.
  induction s as [|x s IH]; [done|]. simpl.
  pose proof (splitAt_nonempty c s) as Hne.
  destruct (N.eqb_spec x c) as [->|Hx].
  - destruct (splitAt c s) as [|p ps]; [done|]. rewrite join_cons2, IH. done.
  - destruct (splitAt c s) as [|p ps]; [done|].
    destruct ps as [|p' ps]; simpl in *; by rewrite <- IH.
Qed.

Lemma splitAt_pieces (c : N) (s : jsstring) :
  Forall (fun p => c ∉ p) (splitAt c s).
Proof.
  induction s as [|x s IH]; simpl.
  - constructor; [apply not_elem_of_nil | constructor].
  - destruct (N.eqb_spec x c) as [->|Hx].
    + constructor; [apply not_elem_of_nil | done].
    + destruct (splitAt c s) as [|p ps].
      { constructor; [|constructor]. intros Hin%list_elem_of_singleton. by apply Hx. }
      apply Forall_cons in IH as [Hp Hps]. constructor; [|done].
      intros [?|?]%elem_of_cons; [by apply Hx | done].
Qed.

Lemma occurrences_app (c : N) (s t : jsstring) :
  occurrences c (s ++ t) = occurrences c s + occurrences c t.
Proof. unfold occurrences. by rewrite filter_app, length_app. Qed.

Lemma occurrences_none (c : N) (s : jsstring) : c ∉ s -> occurrences c s = 0.
Proof.
  unfold occurrences. induction s as [|x s IH]; intros Hs; [done|].
  rewrite not_elem_of_cons in Hs. destruct Hs as [Hx Hs].
  rewrite filter_cons_False by (intros ->; done). by apply IH.
Qed.

Lemma occurrences_join (c : N) (l : list jsstring) :
  Forall (fun p => c ∉ p) l -> occurrences c (join [c] l) = length l - 1.
Proof.
  induction 1 as [|p l Hp Hl IH]; [done|].
  destruct l as [|q l]; [simpl; by apply occurrences_none|].
  rewrite join_cons2, !occurrences_app, IH, (occurrences_none c p Hp).
  unfold occurrences at 1. rewrite filter_cons_True by done. simpl. lia.
Qed.

Lemma join_take_drop (sep : jsstring) (l : list jsstring) (k : nat) :
  0 < k < length l ->
  join sep l = join sep (take k l) ++ sep ++ join sep (drop k l).
Proof.
  revert k. induction l as [|x l IH]; intros k [Hk Hl]; simpl in Hl; [lia|].
  destruct k as [|k]; [lia|]. destruct l as [|y l]; [simpl in Hl; lia|].
  destruct k as [|k]; [done|].
  rewrite join_cons2, (IH (S k)) by (simpl in *; lia).
  change (take (S (S k)) (x :: y :: l)) with (x :: take (S k) (y :: l)).
  change (drop (S (S k)) (x :: y :: l)) with (drop (S k) (y :: l)).
  change (take (S k) (y :: l)) with (y :: take k l).
  rewrite join_cons2 at 1. by rewrite <- !app_assoc.
Qed.

(** X21: [generateTitle] returns the story text itself when it has at
    most four spaces (five words, empty ones between adjacent spaces
    counted), and otherwise the text before its fifth space followed by
    three dots. *)
Theorem generateTitle_spec (storyText : jsstring) :
  (occurrences 32 storyText <= 4 -> generateTitle storyText = storyText)
  /\ (4 < occurrences 32 storyText ->
      exists prefix rest,
        storyText = prefix ++ 32%N :: rest
        /\ occurrences 32 prefix = 4
        /\ generateTitle storyText = prefix ++ js "...").
Proof.
  pose proof (join_splitAt 32 storyText) as Hjoin.
  pose proof (splitAt_pieces 32 storyText) as Hpieces.
  assert (occurrences 32 storyText = length (splitAt 32 storyText) - 1) as Hcount.
  { rewrite <- Hjoin at 1. by apply occurrences_join. }
  assert (length (splitAt 32 storyText) <> 0) as Hne.
  { pose proof (splitAt_nonempty 32 storyText). by destruct (splitAt 32 storyText). }
  unfold generateTitle, slice. rewrite Nat.sub_0_r, drop_0.
  change (js " ") with [32%N].
  split; intros Hspaces.
  - rewrite Nat.min_r by lia. rewrite firstn_all, Hjoin.
    rewrite (proj2 (Nat.ltb_ge _ _)) by lia. by rewrite app_nil_r.
  - rewrite Nat.min_l by lia.
    assert (length (take 5 (splitAt 32 storyText)) = 5) as Hfive
      by (rewrite length_take; lia).
    rewrite Hfive, (proj2 (Nat.ltb_lt _ _)) by lia.
    exists (join [32%N] (take 5 (splitAt 32 storyText))),
           (join [32%N] (drop 5 (splitAt 32 storyText))).
    split; [|split; [|done]].
    + rewrite <- Hjoin at 1. apply (join_take_drop [32%N] _ 5). lia.
    + rewrite occurrences_join by (by apply Forall_take). lia.
Qed.

Example generateTitle_samples :
  generateTitle (js "A knight rode out at dawn.") = js "A knight rode out at..."
  /\ generateTitle (js "Once upon a time") = js "Once upon a time"
  /\ generateTitle [] = [].
Proof. repeat split; vm_compute; reflexivity. Qed.

End TitleFacts.

(** ** The attributes of the analysed shots *)

Section ShotAttributeFacts.
Import Generator.

Lemma pick_elem_of {A} (d : A) (arr : list A) (r : Rng) :
  arr <> [] -> (pick d arr r).1 ∈ arr.
Proof.
  intros Hne. unfold pick, mbind, rand_bind, randomBelow, mret, rand_ret. simpl.
  apply list_elem_of_In, nth_In, Nat.mod_upper_bound. by destruct arr.
Qed.

Lemma mapIndexed_lookup {A B} (body : A -> nat -> Rand B) (l : list A) :
  forall (index : nat) (r : Rng) (k : nat) (y : B),
    (mapIndexed body l index r).1 !! k = Some y ->
    exists x r', l !! k = Some x /\ y = (body x (index + k) r').1.
Proof.
  induction l as [|x l IH]; intros index r k y; simpl; [done|].
  unfold mbind, rand_bind. destruct (body x index r) as [y0 r1] eqn:Hy0.
  specialize (IH (S index) r1). destruct (mapIndexed body l (S index) r1) as [ys r2].
  simpl in *. destruct k as [|k]; simpl.
  - intros [= <-]. exists x, r. by rewrite Nat.add_0_r, Hy0.
  - intros Hk. destruct (IH k y Hk) as (x' & r' & Hx' & ->).
    exists x', r'. split; [done|]. by rewrite Nat.add_succ_r.
Qed.

Lemma makeScene_shot_origin (paragraph : jsstring) (index : nat) (r : Rng) (i : nat)
    (shot : AnalyzedShot) :
  as_shots (makeScene paragraph index r).1 !! i = Some shot ->
  exists r', shot = (makeShot paragraph (drawnShotCount r) i r').1.
Proof.
  intros H.
  assert (i < drawnShotCount r) as Hi.
  { rewrite <- (makeScene_shot_count paragraph index r). by eapply lookup_lt_Some. }
  revert H. unfold makeScene, drawnShotCount in *.
  unfold mbind at 1. unfold rand_bind at 1.
  destruct (randomBelow 3 r) as [k r1] eqn:Hk. simpl in Hi.
  unfold mbind, rand_bind at 1.
  destruct (forRange_lookup (makeShot paragraph (k + 2)) (k + 2) 0 r1 i Hi) as [r' Hr'].
  destruct (forRange (k + 2) 0 (makeShot paragraph (k + 2)) r1) as [shots r2].
  simpl in *. rewrite Hr'. intros [= <-]. by exists r'.
Qed.

Lemma dedupe_NoDup (l : list jsstring) : NoDup (dedupe l).
Proof.
  induction l as [|x l IH]; simpl; [constructor|].
  apply NoDup_cons. split.
  - intros [Hne _]%list_elem_of_filter. done.
  - by apply NoDup_filter.
Qed.

Lemma charactersOf_names (paragraph : jsstring) (names : list jsstring) :
  charactersOf paragraph = Some names -> 1 <= length names <= 2 /\ NoDup names.
Proof.
  unfold charactersOf.
  destruct (capitalizedWords paragraph false None) as [|w ws] eqn:Hwords; [done|].
  intros [= <-]. pose proof (dedupe_NoDup (w :: ws)) as Hnd.
  revert Hnd. cbn [dedupe]. generalize (filter (fun y => y <> w) (dedupe ws)).
  intros rest Hnd. change (slice 0 2 (w :: rest)) with (w :: take 1 rest). split.
  - simpl. pose proof (length_take_le rest 1). destruct rest; simpl in *; lia.
  - eapply sublist_NoDup; [exact Hnd|]. apply sublist_skip, sublist_take.
Qed.

Lemma lightingFor_night (paragraph : jsstring) :
  mentions paragraph "night" = true ->
  lightingFor paragraph = js "Low-key lighting with deep shadows".
Proof. intros H. unfold lightingFor. by rewrite H. Qed.

(** X22: every shot that [analyzeStoryBasic] returns, at position [i] of
    scene [k]: the first shot of a scene has an establishing shot type (ELS,
    LS or AERIAL), the last a close one (CU, MCU or MS), the others one of
    MS, MLS, LS, MCU, OTS; angle, movement and mood come from the fixed
    lists (so never SERENE or CHAOTIC, never a Dutch angle); audio and notes
    are determined by mood, shot type and movement; location, time of day,
    lighting and characters depend on the paragraph only, a scene set at
    night is lit low-key, and the characters, when there are any, are one or
    two distinct names; the scene is titled by its number and the first
    three words of the paragraph. *)
Theorem analyzeStoryBasic_shot_attributes
    (storyText : jsstring) (r : Rng) (k i : nat) (sc : AnalyzedScene) (shot : AnalyzedShot) :
  an_scenes (analyzeStoryBasic storyText r).1 !! k = Some sc ->
  as_shots sc !! i = Some shot ->
  a_shotType shot ∈ (if i =? 0 then [ELS; LS; AERIAL]
                     else if i =? length (as_shots sc) - 1 then [CU; MCU; MS]
                     else [MS; MLS; LS; MCU; OTS])
  /\ a_cameraAngle shot ∈ [EYE_LEVEL; LOW_ANGLE; HIGH_ANGLE; BIRD_EYE]
  /\ a_cameraMovement shot ∈ [STATIC; PAN; DOLLY_IN; ZOOM_IN; TRACKING]
  /\ a_mood shot ∈ [HAPPY; SAD; TENSE; MYSTERIOUS; ROMANTIC; SCARY]
  /\ a_audio shot = audioFor (a_mood shot)
  /\ a_notes shot = notesFor (a_shotType shot) (a_cameraMovement shot)
  /\ a_location shot = js "Story location"
  /\ a_timeOfDay shot
     = (if mentions (as_description sc) "night" then js "Night" else js "Day")
  /\ a_lighting shot = lightingFor (as_description sc)
  /\ (a_timeOfDay shot = js "Night" ->
      a_lighting shot = js "Low-key lighting with deep shadows")
  /\ a_characters shot = charactersOf (as_description sc)
  /\ (forall names, a_characters shot = Some names ->
        1 <= length names <= 2 /\ NoDup names)
  /\ paragraphs storyText !! k = Some (as_description sc)
  /\ as_title sc = sceneTitle (as_description sc) k.
Proof.
  intros Hsc Hshot. rewrite analyzeStoryBasic_scenes in Hsc.
  apply mapIndexed_lookup in Hsc as (p & r1 & Hp & ->). simpl in Hp |- *.
  pose proof (makeScene_description p k r1) as Hdesc.
  pose proof (makeScene_shot_count p k r1) as Hcount.
  apply makeScene_shot_origin in Hshot as [r2 ->].
  rewrite Hdesc, Hcount.
  assert (as_title (makeScene p k r1).1 = sceneTitle p k) as Htitle.
  { unfold makeScene, mbind, rand_bind. destruct (randomBelow 3 r1) as [c r3].
    by destruct (forRange _ _ _ _). }
  rewrite Htitle. clear Hdesc Hcount Htitle.
  set (c := drawnShotCount r1).
  unfold makeShot, mbind, rand_bind.
  set (first := if i =? 0 then pick ELS [ELS; LS; AERIAL]
                else if i =? c - 1 then pick CU [CU; MCU; MS]
                else pick MS [MS; MLS; LS; MCU; OTS]).
  assert ((first r2).1 ∈ (if i =? 0 then [ELS; LS; AERIAL]
                           else if i =? c - 1 then [CU; MCU; MS]
                           else [MS; MLS; LS; MCU; OTS])) as Htype.
  { unfold first. destruct (i =? 0); [by apply pick_elem_of|].
    destruct (i =? c - 1); by apply pick_elem_of. }
  destruct (first r2) as [shotType r3].
  pose proof (pick_elem_of EYE_LEVEL [EYE_LEVEL; LOW_ANGLE; HIGH_ANGLE; BIRD_EYE] r3
                ltac:(done)) as Hangle.
  destruct (pick EYE_LEVEL _ r3) as [angle r4].
  pose proof (pick_elem_of STATIC [STATIC; PAN; DOLLY_IN; ZOOM_IN; TRACKING] r4
                ltac:(done)) as Hmove.
  destruct (pick STATIC _ r4) as [movement r5].
  pose proof (pick_elem_of HAPPY [HAPPY; SAD; TENSE; MYSTERIOUS; ROMANTIC; SCARY] r5
                ltac:(done)) as Hmood.
  destruct (pick HAPPY _ r5) as [mood r6].
  simpl in *.
  split; [done|]. split; [done|]. split; [done|]. split; [done|]. split; [done|].
  split; [done|]. split; [done|]. split; [done|]. split; [done|]. split.
  { destruct (mentions p "night") eqn:Hnight; [intros _; by apply lightingFor_night|].
    intros Heq. discriminate Heq. }
  split; [done|]. split; [apply charactersOf_names|]. by split.
Qed.

Lemma analyzeStoryBasic_shot_attributes_witness :
  exists sc shot,
    an_scenes (analyzeStoryBasic overlapStory overlapRng).1 !! 0 = Some sc
    /\ as_shots sc !! 0 = Some shot
    /\ a_shotType shot ∈ [ELS; LS; AERIAL]
    /\ a_characters shot = charactersOf (as_description sc).
Proof.
  assert (exists sc shot,
            an_scenes (analyzeStoryBasic overlapStory overlapRng).1 !! 0 = Some sc
            /\ as_shots sc !! 0 = Some shot) as (sc & shot & Hsc & Hshot).
  { eexists _, _. split; vm_compute; reflexivity. }
  exists sc, shot. split; [exact Hsc|]. split; [exact Hshot|].
  destruct (analyzeStoryBasic_shot_attributes overlapStory overlapRng 0 0 sc shot Hsc Hshot)
    as (Htype & _ & _ & _ & _ & _ & _ & _ & _ & _ & Hchars & _).
  split; [exact Htype | exact Hchars].
Defined.

End ShotAttributeFacts.

(** ** The ids that [generateStoryboard] gives *)

Section AssembleFacts.
Import Generator Doc GenerateStoryboard.

Lemma js_inj (s t : string) : js s = js t -> s = t.
Proof.
  revert t. induction s as [|a s IH]; intros [|b t] H; simpl in H; try done.
  injection H as Hab Hst. f_equal; [|by apply IH].
  by rewrite <- (ascii_N_embedding a), <- (ascii_N_embedding b), Hab.
Qed.

Lemma string_of_uint_inj (d d' : Decimal.uint) :
  NilEmpty.string_of_uint d = NilEmpty.string_of_uint d' -> d = d'.
Proof.
  intros H. pose proof (NilEmpty.usu d) as Hd. rewrite H, NilEmpty.usu in Hd.
  by injection Hd.
Qed.

Lemma decimal_inj (n m : nat) : decimal n = decimal m -> n = m.
Proof. intros H. by apply Unsigned.to_uint_inj, string_of_uint_inj, js_inj. Qed.

Lemma decimal_no_dash (n : nat) : 45%N ∉ decimal n.
Proof.
  unfold decimal. generalize (Nat.to_uint n). intros d.
  induction d; simpl; rewrite ?not_elem_of_cons; try (split; [done|]); try done.
  apply not_elem_of_nil.
Qed.

(** Two texts with a dash after a dash-free part agree part by part. *)
Lemma dash_split (a a' b b' : jsstring) :
  45%N ∉ a -> 45%N ∉ a' -> a ++ 45%N :: b = a' ++ 45%N :: b' -> a = a' /\ b = b'.
Proof.
  revert a'. induction a as [|x a IH]; intros [|y a'] Ha Ha' H; simpl in H.
  - by injection H.
  - injection H as Hy _. exfalso. apply Ha'. rewrite <- Hy. left.
  - injection H as Hx _. exfalso. apply Ha. rewrite Hx. left.
  - injection H as Hxy H. rewrite not_elem_of_cons in Ha, Ha'.
    destruct (IH a' (proj2 Ha) (proj2 Ha') H) as [-> ->]. by rewrite Hxy.
Qed.

Lemma shotIdFor_inj (i j i' j' : nat) :
  shotIdFor i j = shotIdFor i' j' -> i = i' /\ j = j'.
Proof.
  unfold shotIdFor. change (js "-") with [45%N]. simpl app. intros H.
  apply dash_split in H as [Hi Hj]; try apply decimal_no_dash.
  apply decimal_inj in Hi, Hj. lia.
Qed.

Lemma sceneIdFor_inj (i i' : nat) : sceneIdFor i = sceneIdFor i' -> i = i'.
Proof. unfold sceneIdFor. intros H%app_inv_head. by apply decimal_inj. Qed.

Lemma shots_toSceneInfo_ids (i : nat) (scene : AnalyzedScene) :
  map shot_id (shots (toSceneInfo i scene))
  = map (shotIdFor i) (seq 0 (length (as_shots scene))).
Proof.
  simpl. change (map shot_id ?l) with (shot_id <$> l).
  rewrite fmap_imap. apply (imap_seq_0 (as_shots scene) (shotIdFor i)).
Qed.

(** The shot ids of the scenes built from position [start] on. *)
Lemma extract_shot_ids (l : list AnalyzedScene) : forall start : nat,
  NoDup (map shot_id (allShots (imap (fun i => toSceneInfo (start + i)) l)))
  /\ (forall id, id ∈ map shot_id (allShots (imap (fun i => toSceneInfo (start + i)) l)) ->
        exists i j, start <= i /\ id = shotIdFor i j).
Proof.
  induction l as [|scene l IH]; intros start.
  { split; [constructor|]. intros id Hid. by apply elem_of_nil in Hid. }
  rewrite imap_cons.
  assert (imap ((fun i => toSceneInfo (start + i)) ∘ S) l
          = imap (fun i => toSceneInfo (S start + i)) l) as ->.
  { apply imap_ext. intros i x _. simpl. f_equal. lia. }
  destruct (IH (S start)) as [IHnd IHids].
  unfold allShots in *. cbn [map concat]. rewrite map_app, Nat.add_0_r.
  rewrite shots_toSceneInfo_ids.
  split.
  - apply NoDup_app. split; [|split; [|done]].
    + apply (NoDup_fmap_2_strong (shotIdFor start)); [|apply NoDup_seq].
      intros j j' _ _ H. by apply shotIdFor_inj in H as [_ ->].
    + intros id Hin Hin'.
      apply list_elem_of_In, in_map_iff in Hin as (j & <- & _).
      destruct (IHids _ Hin') as (i' & j' & Hi' & Heq).
      apply shotIdFor_inj in Heq as [-> _]. lia.
  - intros id [Hin|Hin]%elem_of_app.
    + apply list_elem_of_In, in_map_iff in Hin as (j & <- & _). by exists start, j.
    + destruct (IHids _ Hin) as (i' & j' & Hi' & ->). exists i', j'. split; [lia | done].
Qed.

(** X23: the scenes that [generateStoryboard] builds from the result of
    [analyzeStoryBasic]: one scene for each line of the story text that is
    not blank (the text is cut at every newline, not only at blank lines),
    in order, with the line as description and the ids scene-0, scene-1,
    ...; every scene has 2 to 4 shots, the shot at position j of scene i has
    the id (i+1)-(j+1), the id of its scene as [sceneId] and the line as
    [sceneContext]; so the scene ids are distinct, the shot ids are
    distinct across the whole document, and every shot names the scene that
    holds it. *)
Theorem generated_scenes_have_unique_ids (storyText : jsstring) (r : Rng) :
  let scs := extractScenes (analyzeStoryBasic storyText r).1 in
  let lines := filter (fun l => nonBlank l = true) (linesOf storyText) in
  map scene_description scs = lines
  /\ map scene_id scs = map sceneIdFor (seq 0 (length lines))
  /\ Forall (fun sc => 2 <= length (shots sc) <= 4) scs
  /\ (forall i j sc sh, scs !! i = Some sc -> shots sc !! j = Some sh ->
        shot_id sh = shotIdFor i j
        /\ sceneId sh = scene_id sc
        /\ sceneContext sh = scene_description sc)
  /\ NoDup (map scene_id scs)
  /\ NoDup (map shot_id (allShots scs))
  /\ Forall (fun sc => Forall (fun sh => sceneId sh = scene_id sc) (shots sc)) scs.
Proof.
  cbv zeta. rewrite <- paragraphs_lines. unfold extractScenes.
  destruct (analyzeStoryBasic_scene_count storyText r) as (Hlen & Hdesc & Hshots).
  set (scenes := an_scenes (analyzeStoryBasic storyText r).1) in *.
  assert (map scene_id (imap toSceneInfo scenes)
          = map sceneIdFor (seq 0 (length (paragraphs storyText)))) as Hids.
  { change (map scene_id ?l) with (scene_id <$> l). rewrite fmap_imap, <- Hlen.
    apply (imap_seq_0 scenes sceneIdFor). }
  assert (forall i j sc sh,
            imap toSceneInfo scenes !! i = Some sc -> shots sc !! j = Some sh ->
            shot_id sh = shotIdFor i j
            /\ sceneId sh = scene_id sc
            /\ sceneContext sh = scene_description sc) as Hshot.
  { intros i j sc sh Hsc Hsh.
    apply list_lookup_imap_Some in Hsc as (scene & _ & ->). simpl in Hsh.
    apply list_lookup_imap_Some in Hsh as (shot & _ & ->). done. }
  split; [|split; [exact Hids|split; [|split; [exact Hshot|split; [|split]]]]].
  - rewrite <- Hdesc. change (map ?f ?l) with (f <$> l). rewrite fmap_imap.
    etrans; [|apply (imap_const as_description)]. by apply imap_ext.
  - apply Forall_forall. intros sc Hsc.
    apply elem_of_lookup_imap_1 in Hsc as (i & scene & -> & Hscene).
    simpl. rewrite length_imap. rewrite Forall_forall in Hshots.
    apply Hshots. by eapply list_elem_of_lookup_2.
  - rewrite Hids. apply (NoDup_fmap_2_strong sceneIdFor); [|apply NoDup_seq].
    intros i i' _ _. apply sceneIdFor_inj.
  - apply (extract_shot_ids scenes 0).
  - apply Forall_forall. intros sc Hsc. apply Forall_forall. intros sh Hsh.
    apply list_elem_of_lookup in Hsc as [i Hsc]. apply list_elem_of_lookup in Hsh as [j Hsh].
    by destruct (Hshot i j sc sh Hsc Hsh) as (_ & ? & _).
Qed.

End AssembleFacts.

(** ** Escaping for the HTML export *)

Section HtmlFacts.
Import HtmlExport.

Lemma flat_map_flat_map {A B C} (f : A -> list B) (g : B -> list C) (l : list A) :
  flat_map g (flat_map f l) = flat_map (fun x => flat_map g (f x)) l.
Proof. induction l as [|x l IH]; simpl; [done|]. by rewrite flat_map_app, IH. Qed.

(** The five replacements one after the other amount to one pass that puts
    an entity for each special character: no replacement touches what an
    earlier one wrote. *)
Lemma escapeHtml_one_pass (text : jsstring) : escapeHtml text = flat_map entityOf text.
Proof.
  unfold escapeHtml. destruct text as [|c text]; [done|].
  cbn [truthy]. generalize (c :: text). clear. intros s.
  unfold replaceAll. rewrite !flat_map_flat_map. apply flat_map_ext. intros x.
  unfold entityOf.
  destruct (N.eqb_spec x 38) as [->|H38]; [vm_compute; reflexivity|].
  destruct (N.eqb_spec x 60) as [->|H60]; [vm_compute; reflexivity|].
  destruct (N.eqb_spec x 62) as [->|H62]; [vm_compute; reflexivity|].
  destruct (N.eqb_spec x 34) as [->|H34]; [vm_compute; reflexivity|].
  destruct (N.eqb_spec x 39) as [->|H39]; [vm_compute; reflexivity|].
  apply N.eqb_neq in H38, H60, H62, H34, H39.
  simpl. rewrite ?H38. simpl. rewrite ?H60. simpl. rewrite ?H62. simpl. rewrite ?H34.
  simpl. by rewrite ?H39.
Qed.

Lemma entityOf_cases (c : N) :
  (c = 38%N \/ c = 60%N \/ c = 62%N \/ c = 34%N \/ c = 39%N)
  \/ (entityOf c = [c] /\ c <> 38%N /\ c <> 60%N /\ c <> 62%N /\ c <> 34%N /\ c <> 39%N).
Proof.
  unfold entityOf.
  destruct (N.eqb_spec c 38); [tauto|]. destruct (N.eqb_spec c 60); [tauto|].
  destruct (N.eqb_spec c 62); [tauto|]. destruct (N.eqb_spec c 34); [tauto|].
  destruct (N.eqb_spec c 39); [tauto|]. right. tauto.
Qed.

(** The entities form a prefix code. *)
Lemma entityOf_prefix_free (x y : N) (s t : jsstring) :
  entityOf x ++ s = entityOf y ++ t -> x = y /\ s = t.
Proof.
  intros H.
  destruct (entityOf_cases x) as [Hx|(Hx & ? & ? & ? & ? & ?)];
    destruct (entityOf_cases y) as [Hy|(Hy & ? & ? & ? & ? & ?)].
  - destruct Hx as [->|[->|[->|[->| ->]]]]; destruct Hy as [->|[->|[->|[->| ->]]]];
      vm_compute in H; first [discriminate H | injection H as ->; by split].
  - rewrite Hy in H.
    destruct Hx as [->|[->|[->|[->| ->]]]]; vm_compute in H; injection H as Hy38 _; congruence.
  - rewrite Hx in H.
    destruct Hy as [->|[->|[->|[->| ->]]]]; vm_compute in H; injection H as Hx38 _; congruence.
  - rewrite Hx, Hy in H. simpl in H. injection H as -> ->. by split.
Qed.

(** X24: [escapeHtml] writes each of the five special characters as its
    entity and copies every other character, in one pass over the text (the
    later replacements do not touch the ampersands that the earlier ones
    wrote); so its result has no [<], [>], double quote or apostrophe, and
    two different texts are never escaped to the same text. *)
Theorem escapeHtml_entities (text : jsstring) :
  escapeHtml text = flat_map entityOf text
  /\ Forall (fun c => c <> 60%N /\ c <> 62%N /\ c <> 34%N /\ c <> 39%N) (escapeHtml text)
  /\ (forall other, escapeHtml other = escapeHtml text -> other = text).
Proof.
  split; [apply escapeHtml_one_pass|]. split.
  - rewrite escapeHtml_one_pass. induction text as [|c text IH]; simpl; [constructor|].
    apply Forall_app. split; [|exact IH].
    destruct (entityOf_cases c) as [Hc|(-> & ? & ? & ? & ? & ?)].
    + destruct Hc as [->|[->|[->|[->| ->]]]]; vm_compute;
        repeat constructor; discriminate.
    + by repeat constructor.
  - intros other. rewrite !escapeHtml_one_pass. revert other.
    induction text as [|c text IH]; intros [|d other] H; simpl in H.
    + done.
    + exfalso. destruct (entityOf_cases d) as [Hd|(Hd & _)].
      * destruct Hd as [->|[->|[->|[->| ->]]]]; vm_compute in H; discriminate H.
      * rewrite Hd in H. discriminate H.
    + exfalso. destruct (entityOf_cases c) as [Hc|(Hc & _)].
      * destruct Hc as [->|[->|[->|[->| ->]]]]; vm_compute in H; discriminate H.
      * rewrite Hc in H. discriminate H.
    + apply entityOf_prefix_free in H as [-> H]. f_equal. by apply IH.
Qed.

Example escapeHtml_sample :
  escapeHtml (js "Tom & <Jerry>'s") = js "Tom &amp; &lt;Jerry&gt;&#039;s".
Proof. vm_compute. reflexivity. Qed.

End HtmlFacts.

(** ** Annotations and template styles *)

Section AnnotationFacts.
Import Doc.

Lemma storyboardData_commitAnnotations (sb : StoryboardData) anns (s : ProviderState) :
  storyboardData (commitAnnotations sb anns s) = Some (withAnnotations sb anns).
Proof. unfold commitAnnotations. simpl. by destruct sb. Qed.

Lemma find_none_filter {A} (f : A -> bool) (l : list A) :
  List.find f (filter (fun x => f x = false) l) = None.
Proof.
  induction l as [|x l IH]; [done|].
  destruct (f x) eqn:Hx.
  - by rewrite filter_cons_False by (by rewrite Hx).
  - rewrite filter_cons_True by done. simpl. by rewrite Hx.
Qed.

Lemma find_app_fresh {A} (f : A -> bool) (l : list A) (x : A) :
  Forall (fun y => f y = false) l -> f x = true -> List.find f (l ++ [x]) = Some x.
Proof.
  induction 1 as [|y l Hy _ IH]; intros Hx; simpl.
  - by rewrite Hx.
  - rewrite Hy. by apply IH.
Qed.

(** X25: an annotation added with [addAnnotation] under an id that no
    annotation has yet is removed again by [deleteAnnotation], which gives
    back the document as it was; [clearAnnotations] with a shot id removes
    the annotations of that shot and no other, whatever the scene id given
    with it, with a scene id alone the annotations of that scene, and with
    neither all of them; none of them touches the scenes. *)
Theorem annotations_add_delete_clear (s : ProviderState) (sb : StoryboardData) :
  storyboardData s = Some sb ->
  (forall a id,
     member "id" a = Some (JStr id) ->
     Forall (fun b => isText (member "id" b) id = false) (annotations sb) ->
     storyboardData (deleteAnnotation id (addAnnotation a s)) = Some sb)
  /\ (forall sceneId shotId,
        truthy shotId = true ->
        storyboardData (clearAnnotations sceneId (Some shotId) s)
        = Some (withAnnotations sb
                  (filter (fun a => isText (member "shotId" a) shotId = false)
                          (annotations sb))))
  /\ (forall sceneId shotId,
        truthy sceneId = true -> truthy (default [] shotId) = false ->
        storyboardData (clearAnnotations (Some sceneId) shotId s)
        = Some (withAnnotations sb
                  (filter (fun a => isText (member "sceneId" a) sceneId = false)
                          (annotations sb))))
  /\ (forall sceneId shotId,
        truthy (default [] sceneId) = false -> truthy (default [] shotId) = false ->
        storyboardData (clearAnnotations sceneId shotId s) = Some (withAnnotations sb []))
  /\ (forall sceneId shotId sb',
        storyboardData (clearAnnotations sceneId shotId s) = Some sb' ->
        scenes sb' = scenes sb /\ annotations sb' `sublist_of` annotations sb).
Proof.
  intros Hsb. split; [|split; [|split; [|split]]].
  - intros a id Hid Hfresh. unfold addAnnotation, deleteAnnotation. rewrite Hsb.
    rewrite !storyboardData_commitAnnotations. simpl.
    rewrite filter_app, filter_cons_False, filter_nil, app_nil_r.
    + rewrite filter_all by done. by destruct sb.
    + rewrite Hid. simpl. rewrite bool_decide_eq_true_2 by done. done.
  - intros sceneId shotId Hshot. unfold clearAnnotations. rewrite Hsb. simpl.
    by rewrite Hshot, storyboardData_commitAnnotations.
  - intros sceneId shotId Hscene Hshot. unfold clearAnnotations. rewrite Hsb, Hshot. simpl.
    by rewrite Hscene, storyboardData_commitAnnotations.
  - intros sceneId shotId Hscene Hshot. unfold clearAnnotations.
    by rewrite Hsb, Hshot, Hscene, storyboardData_commitAnnotations.
  - intros sceneId shotId sb'. unfold clearAnnotations. rewrite Hsb.
    destruct (truthy (default [] shotId)); [|destruct (truthy (default [] sceneId))];
      rewrite storyboardData_commitAnnotations; intros [= <-]; simpl;
      (split; [done|]); try apply sublist_filter. apply sublist_nil_l.
Qed.

Lemma annotations_add_delete_clear_witness :
  storyboardData (deleteAnnotation (js "n1") (addAnnotation Sample.noteOnX Sample.state0))
  = Some Sample.board.
Proof.
  apply (annotations_add_delete_clear Sample.state0 Sample.board eq_refl);
    [reflexivity | constructor].
Defined.

(** X26: a template style saved with [saveTemplateStyle] under an id that
    no saved template has yet is the one that [loadTemplateStyle] with that
    id puts into the document; [deleteTemplateStyle] with the id takes it
    out of the saved templates again; and after [deleteTemplateStyle],
    [loadTemplateStyle] with the same id changes nothing. *)
Theorem template_save_load_delete
    (s : ProviderState) (sb : StoryboardData) (t : json) (id : jsstring) :
  storyboardData s = Some sb ->
  member "id" t = Some (JStr id) ->
  Forall (fun u => isText (member "id" u) id = false) (savedTemplateStyles s) ->
  storyboardData (loadTemplateStyle id (saveTemplateStyle t s))
  = Some (withTemplateStyle sb t)
  /\ savedTemplateStyles (deleteTemplateStyle id (saveTemplateStyle t s))
     = savedTemplateStyles s
  /\ loadTemplateStyle id (deleteTemplateStyle id (saveTemplateStyle t s))
     = deleteTemplateStyle id (saveTemplateStyle t s).
Proof.
  intros Hsb Hid Hfresh.
  assert (isText (member "id" t) id = true) as Ht.
  { rewrite Hid. simpl. by apply bool_decide_eq_true_2. }
  split; [|split].
  - unfold loadTemplateStyle, saveTemplateStyle, findTemplate. simpl.
    rewrite (find_app_fresh _ _ t Hfresh Ht), Hsb. simpl. by destruct sb.
  - unfold deleteTemplateStyle, saveTemplateStyle. simpl.
    rewrite filter_app, filter_cons_False, filter_nil, app_nil_r by (by rewrite Ht).
    by apply filter_all.
  - unfold loadTemplateStyle at 1. unfold deleteTemplateStyle at 1 2. simpl.
    unfold findTemplate. by rewrite find_none_filter.
Qed.

Lemma template_save_load_delete_witness :
  storyboardData
    (loadTemplateStyle (js "t1") (saveTemplateStyle Sample.plainTemplate Sample.state0))
  = Some (withTemplateStyle Sample.board Sample.plainTemplate).
Proof.
  apply (template_save_load_delete Sample.state0 Sample.board Sample.plainTemplate (js "t1")
           eq_refl eq_refl); constructor.
Defined.

End AnnotationFacts.
(** ** The simulated analysis *)

Section SimulatedFacts.
Import Generator Gemini.

Lemma simulated_shot_basic (paragraph : jsstring) (shotCount i : nat) (r : Rng) :
  basic (Gemini.makeShot paragraph shotCount i r).1
  = (Generator.makeShot paragraph shotCount i r).1.
Proof.
  unfold Gemini.makeShot. unfold mbind at 1. unfold rand_bind at 1.
  destruct (Generator.makeShot paragraph shotCount i r) as [shot r1].
  unfold mbind, rand_bind, randomOverHalf, pick, mbind, rand_bind, randomBelow,
    mret, rand_ret.
  destruct (a_characters shot) as [[|name names]|]; [done| |done].
  by destruct (Nat.odd _).
Qed.

Lemma simulated_shot_dialogue (paragraph : jsstring) (shotCount i : nat) (r : Rng) :
  dialogueFits paragraph (Gemini.makeShot paragraph shotCount i r).1.
Proof.
  unfold Gemini.makeShot. unfold mbind at 1. unfold rand_bind at 1.
  destruct (Generator.makeShot paragraph shotCount i r) as [shot r1].
  unfold mbind at 1. unfold rand_bind at 1.
  destruct (randomOverHalf r1) as [over r2].
  destruct (a_characters shot) as [[|name names]|] eqn:Hnames;
    [by unfold dialogueFits| |by unfold dialogueFits].
  destruct over; [|by unfold dialogueFits].
  pose proof (pick_elem_of name (name :: names) r2 ltac:(done)) as Hpick.
  unfold mbind, rand_bind in *.
  destruct (pick name (name :: names) r2) as [character r3].
  unfold dialogueFits, mret, rand_ret. simpl in *.
  by exists (name :: names), character.
Qed.

Lemma simulated_scene_description (paragraph : jsstring) (index : nat) (r : Rng) :
  sim_description (Gemini.makeScene paragraph index r).1 = paragraph.
Proof.
  unfold Gemini.makeScene, mbind, rand_bind, randomBelow.
  by destruct (forRange _ _ _ _).
Qed.

Lemma simulated_scene_shot_count (paragraph : jsstring) (index : nat) (r : Rng) :
  length (sim_shots (Gemini.makeScene paragraph index r).1) = drawnShotCount r.
Proof.
  unfold Gemini.makeScene, drawnShotCount, mbind, rand_bind, randomBelow. simpl.
  pose proof (forRange_length (Gemini.makeShot paragraph (draws r (consumed r) mod 3 + 2))
                (draws r (consumed r) mod 3 + 2) 0
                (mkRng (draws r) (S (consumed r)))) as H.
  by destruct (forRange _ _ _ _).
Qed.

Lemma simulated_scene_shot_origin (paragraph : jsstring) (index : nat) (r : Rng)
    (i : nat) (sh : SimulatedShot) :
  sim_shots (Gemini.makeScene paragraph index r).1 !! i = Some sh ->
  exists r', sh = (Gemini.makeShot paragraph (drawnShotCount r) i r').1.
Proof.
  intros H.
  assert (i < drawnShotCount r) as Hi.
  { rewrite <- (simulated_scene_shot_count paragraph index r). by eapply lookup_lt_Some. }
  revert H. unfold Gemini.makeScene, drawnShotCount in *.
  unfold mbind at 1. unfold rand_bind at 1.
  destruct (randomBelow 3 r) as [k r1] eqn:Hk. simpl in Hi.
  unfold mbind, rand_bind at 1.
  destruct (forRange_lookup (Gemini.makeShot paragraph (k + 2)) (k + 2) 0 r1 i Hi)
    as [r' Hr'].
  destruct (forRange (k + 2) 0 (Gemini.makeShot paragraph (k + 2)) r1) as [shots r2].
  simpl in *. rewrite Hr'. intros [= <-]. by exists r'.
Qed.

(** Shots described by the sentence windows cover the sentences. *)
Lemma described_shots_cover (sc : AnalyzedScene) :
  0 < length (as_shots sc) ->
  (forall (i : nat) (shot : AnalyzedShot),
     as_shots sc !! i = Some shot ->
     a_description shot
     = shotDescription (as_description sc) (length (as_shots sc)) i) ->
  shotsCoverSentences sc.
Proof.
  intros Hc Hdesc. unfold shotsCoverSentences.
  split; [|split].
  - intros i shot H. by rewrite (Hdesc _ _ H).
  - intros j s Hs.
    assert (j < sentenceCount (as_description sc)) as Hj.
    { apply lookup_lt_Some in Hs.
      pose proof (sentences_length_le (as_description sc)). lia. }
    destruct (windows_cover _ (length (as_shots sc)) j Hc Hj) as (i & Hi & Hr).
    exists i. split; [done|]. split; [done|].
    unfold shotSentences. by eapply slice_lookup.
  - intros i Hi. split; [apply startSentence_mono|].
    apply startSentence_next_le_end; lia.
Qed.

Lemma simulated_scene_spec (paragraph : jsstring) (index : nat) (r : Rng) :
  let sc := (Gemini.makeScene paragraph index r).1 in
  sim_description sc = paragraph
  /\ 2 <= length (sim_shots sc) <= 4
  /\ (forall (i : nat) (sh : SimulatedShot),
        sim_shots sc !! i = Some sh ->
        exists r', basic sh
                   = (Generator.makeShot paragraph (length (sim_shots sc)) i r').1)
  /\ shotsCoverSentences (basicScene sc)
  /\ Forall (dialogueFits paragraph) (sim_shots sc).
Proof.
  cbv zeta.
  pose proof (simulated_scene_description paragraph index r) as Hd.
  pose proof (simulated_scene_shot_count paragraph index r) as Hn.
  pose proof (drawnShotCount_range r) as Hc.
  pose proof (simulated_scene_shot_origin paragraph index r) as Horigin.
  revert Hd Hn Horigin. generalize (Gemini.makeScene paragraph index r).1.
  intros sc Hd Hn Horigin.
  assert (forall (i : nat) (sh : SimulatedShot),
            sim_shots sc !! i = Some sh ->
            exists r', basic sh
                       = (Generator.makeShot paragraph (length (sim_shots sc)) i r').1)
    as Hbasic.
  { intros i sh Hsh. destruct (Horigin i sh Hsh) as [r' ->].
    exists r'. rewrite Hn. apply simulated_shot_basic. }
  split; [done|]. split; [lia|]. split; [done|]. split.
  - apply described_shots_cover; unfold basicScene; simpl.
    + rewrite length_map. lia.
    + intros i shot Hshot. rewrite length_map, Hd.
      rewrite list_lookup_fmap in Hshot.
      destruct (sim_shots sc !! i) as [sh|] eqn:Hsh; [|done].
      simpl in Hshot. injection Hshot as <-.
      destruct (Hbasic i sh Hsh) as [r' ->]. apply makeShot_description.
  - apply Forall_lookup. intros i sh Hsh.
    destruct (Horigin i sh Hsh) as [r' ->]. apply simulated_shot_dialogue.
Qed.

Lemma simulateGeminiResponse_scenes_eq (storyText : jsstring) (r : Rng) :
  gem_scenes (simulateGeminiResponse storyText r).1
  = (mapIndexed Gemini.makeScene (paragraphs storyText) 0 r).1.
Proof.
  unfold simulateGeminiResponse, mbind, rand_bind.
  by destruct (mapIndexed Gemini.makeScene (paragraphs storyText) 0 r).
Qed.

(** X27: the simulated analysis, which [generateStoryboard] uses by
    default, segments like the basic one: one scene for each line of the
    story text that is not blank (the text is cut at every newline), in
    input order, 2 to 4 shots per scene, every shot without its dialogue a
    shot that the basic loop builds at that position for that line, the
    shot descriptions covering the line's sentences.  A line of dialogue,
    when a shot has one, is spoken by one of the shot's characters and
    quotes the first ten words of the scene's text; a shot without
    characters has none. *)
Theorem simulateGeminiResponse_segments (storyText : jsstring) (r : Rng) :
  let scenes := gem_scenes (simulateGeminiResponse storyText r).1 in
  map sim_description scenes = filter (fun l => nonBlank l = true) (linesOf storyText)
  /\ Forall (fun sc =>
       2 <= length (sim_shots sc) <= 4
       /\ (forall (i : nat) (sh : SimulatedShot),
             sim_shots sc !! i = Some sh ->
             exists r', basic sh
                        = (Generator.makeShot (sim_description sc)
                             (length (sim_shots sc)) i r').1)
       /\ shotsCoverSentences (basicScene sc)
       /\ Forall (fun sh =>
            dialogueFits (sim_description sc) sh
            /\ (a_characters (basic sh) = None -> dialogueSnippet sh = None))
            (sim_shots sc))
     scenes.
Proof.
  cbv zeta. rewrite <- paragraphs_lines, simulateGeminiResponse_scenes_eq.
  pose proof (mapIndexed_fst_spec Gemini.makeScene
    (fun p sc =>
       sim_description sc = p
       /\ 2 <= length (sim_shots sc) <= 4
       /\ (forall (i : nat) (sh : SimulatedShot),
             sim_shots sc !! i = Some sh ->
             exists r', basic sh
                        = (Generator.makeShot p (length (sim_shots sc)) i r').1)
       /\ shotsCoverSentences (basicScene sc)
       /\ Forall (dialogueFits p) (sim_shots sc))
    (fun x i r0 => simulated_scene_spec x i r0) (paragraphs storyText) 0 r) as H.
  revert H. generalize (mapIndexed Gemini.makeScene (paragraphs storyText) 0 r).1.
  generalize (paragraphs storyText). intros ps scs H.
  induction H as [|p sc ps scs (Hd & Hn & Hb & Hc & Hf) _ [IH1 IH2]]; simpl.
  - split; constructor.
  - split; [by rewrite Hd, IH1|]. constructor; [|done].
    rewrite Hd. split; [done|]. split; [done|]. split; [done|].
    eapply Forall_impl; [exact Hf|]. intros sh Hsh. split; [done|].
    intros Hnone. unfold dialogueFits in Hsh.
    destruct (dialogueSnippet sh) as [line|]; [|done].
    destruct Hsh as (names & character & Hnames & _). congruence.
Qed.

Example simulateGeminiResponse_sample :
  map (fun sc => map dialogueSnippet (sim_shots sc))
      (gem_scenes (simulateGeminiResponse meetingStory onesRng).1)
  = [replicate 3
       (Some (js "Bob: " ++ [34%N] ++ js "Alice met Bob. They talked...." ++ [34%N]))]
  /\ map (fun sc => map dialogueSnippet (sim_shots sc))
       (gem_scenes (simulateGeminiResponse meetingStory overlapRng).1)
     = [[None; None]].
Proof. split; vm_compute; reflexivity. Qed.

(** X28: the simulated analysis titles a story by the story text itself
    when it has at most seven spaces (eight words, empty ones between
    adjacent spaces counted), and otherwise by the text before its eighth
    space followed by three dots. *)
Theorem simulateGeminiResponse_title (storyText : jsstring) (r : Rng) :
  let title := gem_title (simulateGeminiResponse storyText r).1 in
  (occurrences 32 storyText <= 7 -> title = storyText)
  /\ (7 < occurrences 32 storyText ->
      exists prefix rest,
        storyText = prefix ++ 32%N :: rest
        /\ occurrences 32 prefix = 7
        /\ title = prefix ++ js "...").
Proof.
  cbv zeta.
  assert (gem_title (simulateGeminiResponse storyText r).1 = titleOf storyText) as ->.
  { unfold simulateGeminiResponse, mbind, rand_bind.
    by destruct (mapIndexed Gemini.makeScene (paragraphs storyText) 0 r). }
  pose proof (join_splitAt 32 storyText) as Hjoin.
  pose proof (splitAt_pieces 32 storyText) as Hpieces.
  assert (occurrences 32 storyText = length (splitAt 32 storyText) - 1) as Hcount.
  { rewrite <- Hjoin at 1. by apply occurrences_join. }
  assert (length (splitAt 32 storyText) <> 0) as Hne.
  { pose proof (splitAt_nonempty 32 storyText). by destruct (splitAt 32 storyText). }
  unfold titleOf, slice. rewrite Nat.sub_0_r, drop_0.
  change (js " ") with [32%N].
  split; intros Hspaces.
  - rewrite Nat.min_r by lia. rewrite firstn_all, Hjoin.
    rewrite (proj2 (Nat.ltb_ge _ _)) by lia. by rewrite app_nil_r.
  - rewrite Nat.min_l by lia.
    assert (length (take 8 (splitAt 32 storyText)) = 8) as Height
      by (rewrite length_take; lia).
    rewrite Height, (proj2 (Nat.ltb_lt _ _)) by lia.
    exists (join [32%N] (take 8 (splitAt 32 storyText))),
           (join [32%N] (drop 8 (splitAt 32 storyText))).
    split; [|split; [|done]].
    + rewrite <- Hjoin at 1. apply (join_take_drop [32%N] _ 8). lia.
    + rewrite occurrences_join by (by apply Forall_take). lia.
Qed.

End SimulatedFacts.
(** ** Scenes, lines and paragraphs *)

Section ParagraphFacts.
Import Generator.

Local Abbreviation notBlank := (fun l : jsstring => nonBlank l = true).

Lemma splitAt_none (c : N) (s : jsstring) : c ∉ s -> splitAt c s = [s].
Proof.
  induction s as [|x s IH]; intros Hs; [done|]. simpl.
  apply not_elem_of_cons in Hs as [Hx Hs].
  destruct (N.eqb_spec x c) as [->|_]; [done|]. by rewrite IH.
Qed.

Lemma splitAt_app_sep (c : N) (s rest : jsstring) :
  c ∉ s -> splitAt c (s ++ c :: rest) = s :: splitAt c rest.
Proof.
  induction s as [|x s IH]; intros Hs; simpl.
  - by rewrite N.eqb_refl.
  - apply not_elem_of_cons in Hs as [Hx Hs].
    destruct (N.eqb_spec x c) as [->|_]; [done|]. by rewrite IH.
Qed.

(** Lines joined by newlines are split into the same lines again. *)
Lemma splitAt_join (c : N) (g : list jsstring) :
  Forall (fun l => c ∉ l) g -> g <> [] -> splitAt c (join [c] g) = g.
Proof.
  induction 1 as [|x g Hx Hg IH]; intros Hne; [done|].
  destruct g as [|y g]; [by apply splitAt_none|].
  rewrite join_cons2.
  change ([c] ++ join [c] (y :: g)) with (c :: join [c] (y :: g)).
  rewrite splitAt_app_sep by done. by rewrite IH.
Qed.

Lemma splitAt_length (c : N) (s : jsstring) :
  length (splitAt c s) = S (occurrences c s).
Proof.
  unfold occurrences. induction s as [|x s IH]; [done|]. simpl.
  destruct (N.eqb_spec x c) as [->|Hx].
  - rewrite filter_cons_True by done. simpl. by rewrite IH.
  - rewrite filter_cons_False by done.
    destruct (splitAt c s); simpl in *; [done | exact IH].
Qed.

Lemma occurrences_zero (c : N) (s : jsstring) : occurrences c s = 0 -> c ∉ s.
Proof.
  unfold occurrences. induction s as [|x s IH]; intros H; [apply not_elem_of_nil|].
  destruct (decide (x = c)) as [Heq|Hne].
  - rewrite filter_cons_True in H by done. discriminate H.
  - rewrite filter_cons_False in H by done.
    apply not_elem_of_cons. split; [done | by apply IH].
Qed.

(** The groups, put end to end, are the lines that are not blank. *)
Lemma groupLines_concat (ls : list jsstring) : forall current,
  concat (groupLines ls current) = current ++ filter notBlank ls.
Proof.
  induction ls as [|l ls IH]; intros current; simpl.
  - destruct current; simpl; by rewrite ?app_nil_r.
  - destruct (nonBlank l) eqn:Hl.
    + rewrite IH, filter_cons_True by done. by rewrite <- app_assoc.
    + rewrite filter_cons_False by (rewrite Hl; done).
      destruct current; simpl; by rewrite IH.
Qed.

Lemma groupLines_groups (Q : jsstring -> Prop) (ls : list jsstring) : forall current,
  Forall Q ls -> Forall Q current ->
  Forall (fun g => g <> [] /\ Forall Q g) (groupLines ls current).
Proof.
  induction ls as [|l ls IH]; intros current Hls Hcur; simpl.
  - destruct current; [constructor|]. constructor; [by split | constructor].
  - apply Forall_cons in Hls as [Hl Hls]. destruct (nonBlank l).
    + apply IH; [done|]. apply Forall_app. split; [done | by constructor].
    + destruct current; [by apply IH|].
      constructor; [done | by apply IH].
Qed.

(** The lines of the paragraphs are the lines of the text that are not
    blank. *)
Lemma blankLineParagraphs_lines (text : jsstring) :
  concat (map linesOf (blankLineParagraphs text)) = filter notBlank (linesOf text).
Proof.
  unfold blankLineParagraphs.
  transitivity (concat (groupLines (linesOf text) []));
    [|exact (groupLines_concat (linesOf text) [])].
  f_equal. rewrite map_map.
  pose proof (groupLines_groups (fun l => 10%N ∉ l) (linesOf text) []
                (splitAt_pieces 10 text) (Forall_nil_2 _)) as Hgroups.
  induction Hgroups as [|g gs [Hne Hg] _ IH]; [done|]. simpl.
  rewrite IH. f_equal. by apply splitAt_join.
Qed.

Lemma concat_length_ge {A} (ls : list (list A)) :
  Forall (fun l => l <> []) ls -> length ls <= length (concat ls).
Proof.
  induction 1 as [|l ls Hl _ IH]; simpl; [done|].
  rewrite length_app. destruct l; [done|]. simpl. lia.
Qed.

Lemma concat_length_eq {A} (ls : list (list A)) :
  Forall (fun l => l <> []) ls -> length (concat ls) = length ls ->
  Forall (fun l => length l = 1) ls.
Proof.
  induction 1 as [|l ls Hl Hls IH]; simpl; [constructor|].
  rewrite length_app. intros Hlen.
  pose proof (concat_length_ge ls Hls). destruct l as [|x l]; [done|]. simpl in *.
  constructor; [simpl; lia | apply IH; lia].
Qed.

(** Texts without a line break are their own lines. *)
Lemma linesOf_single (ps : list jsstring) :
  Forall (fun p => 10%N ∉ p) ps -> concat (map linesOf ps) = ps.
Proof.
  induction 1 as [|p ps Hp _ IH]; [done|]. simpl.
  unfold linesOf at 1. by rewrite (splitAt_none _ _ Hp), IH.
Qed.

(** C1 (amended): [analyzeStoryBasic] makes one scene of each line of the
    text that is not blank, in order, the line being the description of the
    scene: the scenes are the lines of the paragraphs that blank lines
    delimit, so there are at least as many scenes as paragraphs, and as
    many, the scenes then being the paragraphs, exactly when no paragraph
    has a line break in it.  Every scene has 2 to 4 shots. *)
Theorem analyzeStoryBasic_scene_per_line (storyText : jsstring) (r : Rng) :
  let scenes := an_scenes (analyzeStoryBasic storyText r).1 in
  let paras := blankLineParagraphs storyText in
  map as_description scenes = filter (fun l => nonBlank l = true) (linesOf storyText)
  /\ map as_description scenes = concat (map linesOf paras)
  /\ length paras <= length scenes
  /\ (length scenes = length paras <-> Forall (fun p => 10%N ∉ p) paras)
  /\ (Forall (fun p => 10%N ∉ p) paras -> map as_description scenes = paras)
  /\ Forall (fun sc => 2 <= length (as_shots sc) <= 4) scenes.
Proof.
  cbv zeta.
  destruct (analyzeStoryBasic_scene_count storyText r) as (_ & Hdesc & Hshots).
  rewrite paragraphs_lines, <- blankLineParagraphs_lines in Hdesc.
  assert (length (an_scenes (analyzeStoryBasic storyText r).1)
          = length (concat (map linesOf (blankLineParagraphs storyText)))) as Hlen.
  { by rewrite <- Hdesc, length_map. }
  assert (Forall (fun l => l <> []) (map linesOf (blankLineParagraphs storyText)))
    as Hlines.
  { apply Forall_map, Forall_forall. intros p _. apply splitAt_nonempty. }
  pose proof (linesOf_single (blankLineParagraphs storyText)) as Hsingle.
  split; [by rewrite Hdesc, blankLineParagraphs_lines|]. split; [exact Hdesc|].
  split.
  { rewrite Hlen. etrans; [|by apply concat_length_ge]. by rewrite length_map. }
  split; [|split; [|exact Hshots]].
  - split.
    + intros Heq. rewrite Hlen in Heq.
      apply concat_length_eq in Hlines; [|by rewrite length_map].
      apply Forall_map in Hlines. eapply Forall_impl; [exact Hlines|].
      intros p Hp. simpl in Hp. unfold linesOf in Hp. rewrite splitAt_length in Hp.
      apply occurrences_zero. lia.
    + intros Hall. by rewrite Hlen, (Hsingle Hall).
  - intros Hall. by rewrite Hdesc, (Hsingle Hall).
Qed.

(** C1 (counterexample): a text of two lines with no blank line between
    them is one paragraph; it is made into two scenes, whatever is drawn. *)
Lemma analyzeStoryBasic_splits_paragraph_lines :
  blankLineParagraphs twoLineStory = [twoLineStory]
  /\ (forall r : Rng,
        map as_description (an_scenes (analyzeStoryBasic twoLineStory r).1)
        = [js "Alice ran."; js "She fell."])
  /\ length (an_scenes (analyzeStoryBasic twoLineStory overlapRng).1) = 2.
Proof.
  split; [vm_compute; reflexivity|]. split; [|vm_compute; reflexivity].
  intros r. destruct (analyzeStoryBasic_scene_count twoLineStory r) as (_ & -> & _).
  vm_compute. reflexivity.
Qed.

Example blankLineParagraphs_sample :
  blankLineParagraphs threeLineStory = [twoLineStory; js "Bob laughed."]
  /\ paragraphs threeLineStory = [js "Alice ran."; js "She fell."; js "Bob laughed."]
  /\ blankLineParagraphs (js "Alice ran. She fell." ++ [10%N; 32%N; 10%N] ++ js "Bob laughed.")
     = paragraphs (js "Alice ran. She fell." ++ [10%N; 32%N; 10%N] ++ js "Bob laughed.").
Proof. repeat split; vm_compute; reflexivity. Qed.

End ParagraphFacts.
